(** * chd_stream: a track of a hunk-compressed disc image as a byte stream

    Shallow embedding of [streams/chd_stream.c] and the properties of its
    track resolution, hunk cache and read/seek cursor.

    Conventions.  C integers are [Z] with the wrap-around of their type
    written out: [uint32_t] wraps modulo 2^32, [size_t] modulo 2^64 and
    [ssize_t] is the 64-bit two's-complement reading (an LP64 target).
    Byte buffers are [list Z].  The storage engine (libchdr) is an explicit
    value of type [chd_file]: its header, its hunks and its metadata
    records, the latter already split into the fields that [sscanf]
    extracts.  Functions whose C text can divide by zero, read outside the
    hunk buffer, call [abort()] or loop without bound return an [outcome]. *)

From Stdlib Require Import ZArith List String Bool Lia.
Import ListNotations.
Local Open Scope Z_scope.

(** ** Machine integers *)

Definition wrap32 (x : Z) : Z := x mod 2 ^ 32.
Definition wrap64 (x : Z) : Z := x mod 2 ^ 64.

(** Conversion to [int32_t] and to [ssize_t] (two's complement). *)
Definition to_int32 (x : Z) : Z :=
  let u := wrap32 x in if u <? 2 ^ 31 then u else u - 2 ^ 32.
Definition to_ssize (x : Z) : Z :=
  let u := wrap64 x in if u <? 2 ^ 63 then u else u - 2 ^ 64.

Definition SSIZE_MAX : Z := 2 ^ 63 - 1.
Definition INT32_MAX : Z := 2 ^ 31 - 1.

(** ** Outcomes of a call *)

Inductive outcome (A : Type) : Type :=
| Ret (a : A)      (* the call returns [a] *)
| Aborted            (* the process is terminated by [abort()] *)
| Undef            (* undefined behaviour: zero divisor, out-of-bounds copy, signed overflow *)
| OutOfFuel.       (* the loop did not finish within the given number of turns *)
Arguments Ret {A} a.
Arguments Aborted {A}.
Arguments Undef {A}.
Arguments OutOfFuel {A}.

Definition bind {A B : Type} (m : outcome A) (k : A -> outcome B) : outcome B :=
  match m with
  | Ret a => k a
  | Aborted => Aborted
  | Undef => Undef
  | OutOfFuel => OutOfFuel
  end.

Notation "x <- m ;; k" := (bind m (fun x => k))
  (at level 61, m at next level, right associativity).

(** ** Constants of the unit *)

Definition SECTOR_SIZE : Z := 2352.
Definition SUBCODE_SIZE : Z := 96.
Definition TRACK_PAD : Z := 4.

(** Modelled from the spec: the selector sentinels of [streams/chd_stream.h],
    which is not part of the sources at hand; the spec only says that they
    are reserved negative values. *)
Definition CHDSTREAM_TRACK_FIRST_DATA : Z := -1.
Definition CHDSTREAM_TRACK_LAST : Z := -2.
Definition CHDSTREAM_TRACK_PRIMARY : Z := -3.

(** [stdio.h] *)
Definition SEEK_SET : Z := 0.
Definition SEEK_CUR : Z := 1.
Definition SEEK_END : Z := 2.
Definition EOF : Z := -1.

(** ** The storage engine *)

Record chd_header : Type := {
  hunkbytes : Z;
  unitbytes : Z
}.

(** One metadata record as text, split into the fields of the three
    formats (a format that lacks a field leaves it unread). *)
Record track_text : Type := {
  t_track : Z;
  t_type : string;
  t_subtype : string;
  t_frames : Z;
  t_pad : Z;
  t_pregap : Z;
  t_pgtype : string;
  t_pgsub : string;
  t_postgap : Z
}.

Record chd_file : Type := {
  header : chd_header;
  hunks : Z -> option (list Z);          (* decompressed hunk, or a read error *)
  cdrom2_meta : list track_text;         (* CDROM_TRACK_METADATA2_TAG records *)
  cdrom_meta : list track_text;          (* CDROM_TRACK_METADATA_TAG records *)
  gdrom_meta : list track_text           (* GDROM_TRACK_METADATA_TAG records *)
}.

Definition chd_get_header (fd : chd_file) : chd_header := header fd.

Definition chd_get_metadata (records : list track_text) (idx : Z) : option track_text :=
  if idx <? 0 then None else nth_error records (Z.to_nat idx).

(** The engine fills the whole buffer of [hunkbytes] bytes ([uint8_t]). *)
Definition fit (n : Z) (l : list Z) : list Z :=
  firstn (Z.to_nat n) (map (fun b => b mod 256) l ++ repeat 0 (Z.to_nat n)).

Definition chd_read (fd : chd_file) (hunknum : Z) : option (list Z) :=
  option_map (fit (hunkbytes (header fd))) (hunks fd hunknum).

(** ** Track metadata *)

Record metadata_t : Type := {
  m_type : string;
  m_subtype : string;
  m_pgtype : string;
  m_pgsub : string;
  m_frame_offset : Z;
  m_frames : Z;
  m_pad : Z;
  m_extra : Z;
  m_pregap : Z;
  m_postgap : Z;
  m_track : Z
}.

(** [memset(md, 0, sizeof( *md))] *)
Definition metadata_zero : metadata_t :=
  {| m_type := ""; m_subtype := ""; m_pgtype := ""; m_pgsub := "";
     m_frame_offset := 0; m_frames := 0; m_pad := 0; m_extra := 0;
     m_pregap := 0; m_postgap := 0; m_track := 0 |}.

Definition set_frame_offset (md : metadata_t) (v : Z) : metadata_t :=
  {| m_type := m_type md; m_subtype := m_subtype md; m_pgtype := m_pgtype md;
     m_pgsub := m_pgsub md; m_frame_offset := v; m_frames := m_frames md;
     m_pad := m_pad md; m_extra := m_extra md; m_pregap := m_pregap md;
     m_postgap := m_postgap md; m_track := m_track md |}.

Definition padding_frames (frames : Z) : Z :=
  wrap32 (Z.land (wrap32 (frames + TRACK_PAD - 1)) (wrap32 (Z.lnot (TRACK_PAD - 1))) - frames).

Definition chdstream_get_meta (fd : chd_file) (idx : Z) : bool * metadata_t :=
  match chd_get_metadata (cdrom2_meta fd) idx with
  | Some t =>
      (true,
       {| m_type := t_type t; m_subtype := t_subtype t;
          m_pgtype := t_pgtype t; m_pgsub := t_pgsub t;
          m_frame_offset := 0; m_frames := wrap32 (t_frames t);
          m_pad := 0; m_extra := padding_frames (wrap32 (t_frames t));
          m_pregap := wrap32 (t_pregap t); m_postgap := wrap32 (t_postgap t);
          m_track := wrap32 (t_track t) |})
  | None =>
  match chd_get_metadata (cdrom_meta fd) idx with
  | Some t =>
      (true,
       {| m_type := t_type t; m_subtype := t_subtype t;
          m_pgtype := ""; m_pgsub := "";
          m_frame_offset := 0; m_frames := wrap32 (t_frames t);
          m_pad := 0; m_extra := padding_frames (wrap32 (t_frames t));
          m_pregap := 0; m_postgap := 0;
          m_track := wrap32 (t_track t) |})
  | None =>
  match chd_get_metadata (gdrom_meta fd) idx with
  | Some t =>
      (true,
       {| m_type := t_type t; m_subtype := t_subtype t;
          m_pgtype := t_pgtype t; m_pgsub := t_pgsub t;
          m_frame_offset := 0; m_frames := wrap32 (t_frames t);
          m_pad := wrap32 (t_pad t); m_extra := padding_frames (wrap32 (t_frames t));
          m_pregap := wrap32 (t_pregap t); m_postgap := wrap32 (t_postgap t);
          m_track := wrap32 (t_track t) |})
  | None => (false, metadata_zero)
  end end end.

(** ** Track location *)

(** The scan [for (i = 0; true; ++i)] of [chdstream_find_track_number]; one
    unit of fuel per record index. *)
Fixpoint find_track_number_loop (fuel : nat) (fd : chd_file) (track : Z)
    (i : Z) (frame_offset : Z) : outcome (bool * metadata_t) :=
  match fuel with
  | O => OutOfFuel
  | S fuel' =>
      match chdstream_get_meta fd i with
      | (false, meta) => Ret (false, meta)
      | (true, meta) =>
          if wrap32 track =? m_track meta
          then Ret (true, set_frame_offset meta frame_offset)
          else find_track_number_loop fuel' fd track (i + 1)
                 (wrap32 (frame_offset + m_frames meta + m_extra meta))
      end
  end.

(** The scan stops at the first index that no tag supplies, which is at most
    the length of the longest record list. *)
Definition meta_count (fd : chd_file) : nat :=
  Nat.max (List.length (cdrom2_meta fd))
          (Nat.max (List.length (cdrom_meta fd)) (List.length (gdrom_meta fd))).

Definition chdstream_find_track_number (fd : chd_file) (track : Z)
    : outcome (bool * metadata_t) :=
  find_track_number_loop (S (meta_count fd)) fd track 0 0.

Definition is_audio (s : string) : bool := String.eqb s "AUDIO".

(** The loop [for (i = 1; true; ++i)] of [chdstream_find_special_track]:
    the C text has no exit on a failed lookup other than the two returns for
    LAST and PRIMARY, so the number of turns is a parameter. *)
Fixpoint find_special_track_loop (fuel : nat) (fd : chd_file) (track : Z)
    (i : Z) (largest_track : Z) (largest_size : Z) : outcome (bool * metadata_t) :=
  match fuel with
  | O => OutOfFuel
  | S fuel' =>
      r <- chdstream_find_track_number fd i ;;
      let (found, iter) := r in
      if negb found && (track =? CHDSTREAM_TRACK_LAST) && (1 <? i)
      then Ret (true, iter)
      else if negb found && (track =? CHDSTREAM_TRACK_PRIMARY)
              && negb (largest_track =? 0)
      then chdstream_find_track_number fd largest_track
      else
        if (track =? CHDSTREAM_TRACK_FIRST_DATA) && negb (is_audio (m_type iter))
        then Ret (true, iter)
        else
          let upd := (track =? CHDSTREAM_TRACK_PRIMARY)
                     && negb (is_audio (m_type iter))
                     && (largest_size <? m_frames iter) in
          let largest_size' := if upd then m_frames iter else largest_size in
          let largest_track' := if upd then to_int32 (m_track iter) else largest_track in
          if i =? INT32_MAX then Undef
          else find_special_track_loop fuel' fd track (i + 1) largest_track' largest_size'
  end.

Definition chdstream_find_special_track (fuel : nat) (fd : chd_file) (track : Z)
    : outcome (bool * metadata_t) :=
  find_special_track_loop fuel fd track 1 0 0.

Definition chdstream_find_track (fuel : nat) (fd : chd_file) (track : Z)
    : outcome (bool * metadata_t) :=
  if track <? 0 then chdstream_find_special_track fuel fd track
  else chdstream_find_track_number fd track.

(** ** The stream *)

Record chdstream : Type := {
  chd : chd_file;
  swab : bool;               (* should we swap bytes? *)
  frame_size : Z;            (* size of frame taken from each hunk *)
  frame_offset : Z;          (* offset of data within frame *)
  frames_per_hunk : Z;       (* number of frames per hunk *)
  track_frame : Z;           (* first frame of track in chd *)
  track_start : Z;           (* byte offset where track data starts (after pregap) *)
  track_end : Z;             (* byte offset where track data ends *)
  offset : Z;                (* byte offset of read cursor *)
  hunknum : Z;               (* loaded hunk number *)
  hunkmem : list Z;          (* loaded hunk *)
  chd_reads : list Z         (* ghost: the hunk numbers passed to [chd_read] so far *)
}.

Definition set_offset (st : chdstream) (v : Z) : chdstream :=
  {| chd := chd st; swab := swab st; frame_size := frame_size st;
     frame_offset := frame_offset st; frames_per_hunk := frames_per_hunk st;
     track_frame := track_frame st; track_start := track_start st;
     track_end := track_end st; offset := v; hunknum := hunknum st;
     hunkmem := hunkmem st; chd_reads := chd_reads st |}.

Definition set_hunk (st : chdstream) (num : Z) (mem : list Z) (log : list Z) : chdstream :=
  {| chd := chd st; swab := swab st; frame_size := frame_size st;
     frame_offset := frame_offset st; frames_per_hunk := frames_per_hunk st;
     track_frame := track_frame st; track_start := track_start st;
     track_end := track_end st; offset := offset st; hunknum := num;
     hunkmem := mem; chd_reads := log |}.

(** What [chd_open], [calloc] and [malloc] answer. *)
Record storage : Type := {
  chd_open : string -> option chd_file;
  calloc_ok : bool;
  malloc_ok : Z -> bool
}.

(** [chdstream_open].  The buffer returned by [malloc] has indeterminate
    contents; it is shown as zeros. *)
Definition chdstream_open (fuel : nat) (sys : storage) (path : string) (track : Z)
    : outcome (option chdstream) :=
  match chd_open sys path with
  | None => Ret None
  | Some fd =>
      r <- chdstream_find_track fuel fd track ;;
      let (found, meta) := r in
      if negb found then Ret None
      else if negb (calloc_ok sys) then Ret None
      else
        let hd := chd_get_header fd in
        if negb (malloc_ok sys (hunkbytes hd)) then Ret None
        else
          let geom :=
            if String.eqb (m_type meta) "MODE1_RAW" then (SECTOR_SIZE, false)
            else if String.eqb (m_type meta) "MODE2_RAW" then (SECTOR_SIZE, false)
            else if String.eqb (m_type meta) "AUDIO" then (SECTOR_SIZE, true)
            else (unitbytes hd, false) in
          (* Only include pregap data if it was in the track file *)
          let pregap :=
            if String.eqb (m_type meta) (m_pgtype meta) then m_pregap meta else 0 in
          if unitbytes hd =? 0 then Undef
          else
            let start := wrap64 (pregap * fst geom) in
            Ret (Some
              {| chd := fd; swab := snd geom; frame_size := fst geom;
                 frame_offset := 0;
                 frames_per_hunk := hunkbytes hd / unitbytes hd;
                 track_frame := m_frame_offset meta;
                 track_start := start;
                 track_end := wrap64 (start + wrap64 (m_frames meta * fst geom));
                 offset := 0; hunknum := -1;
                 hunkmem := repeat 0 (Z.to_nat (hunkbytes hd));
                 chd_reads := [] |})
  end.

(** ** The hunk cache *)

(** Modelled from the spec: the macro [SWAP16] of [retro_endianness.h], which
    is not part of the sources at hand: the 16-bit byte swap. *)
Definition SWAP16 (x : Z) : Z :=
  Z.lor (Z.shiftl (Z.land x 255) 8) (Z.shiftr (Z.land x 65280) 8).

Fixpoint upd (l : list Z) (n : nat) (v : Z) : list Z :=
  match l, n with
  | [], _ => []
  | _ :: t, O => v :: t
  | h :: t, S n' => h :: upd t n' v
  end.

(** The hunk seen as [uint16_t array[]] (the two bytes of a word are
    exchanged by [SWAP16] whatever the byte order; little-endian here). *)
Definition load16 (mem : list Z) (i : Z) : Z :=
  nth (Z.to_nat (2 * i)) mem 0 + 256 * nth (Z.to_nat (2 * i + 1)) mem 0.

Definition store16 (mem : list Z) (i : Z) (v : Z) : list Z :=
  upd (upd mem (Z.to_nat (2 * i)) (Z.land v 255)) (Z.to_nat (2 * i + 1)) (Z.shiftr v 8).

(** [for (i = 0; i < count; ++i) array[i] = SWAP16(array[i]);] *)
Fixpoint swab_loop (n : nat) (i : Z) (mem : list Z) : list Z :=
  match n with
  | O => mem
  | S n' => swab_loop n' (i + 1) (store16 mem i (SWAP16 (load16 mem i)))
  end.

Definition chdstream_load_hunk (st : chdstream) (hunk : Z) : bool * chdstream :=
  if hunk =? wrap32 (hunknum st) then (true, st)
  else
    match chd_read (chd st) hunk with
    | None => (false, set_hunk st (hunknum st) (hunkmem st) (chd_reads st ++ [hunk]))
    | Some mem =>
        let mem' :=
          if swab st
          then swab_loop (Z.to_nat (hunkbytes (chd_get_header (chd st)) / 2)) 0 mem
          else mem in
        (true, set_hunk st (to_int32 hunk) mem' (chd_reads st ++ [hunk]))
    end.

(** ** The cursor *)

(** One turn of the [while] loop of [chdstream_read]: the cursor after it and
    the bytes stored at [out + data_offset]. *)
Definition read_chunk (st : chdstream) (end_ : Z) : outcome (chdstream * list Z) :=
  if frame_size st =? 0 then Undef
  else
    let frame_off := wrap32 (offset st mod frame_size st) in
    let amount0 := wrap32 (frame_size st - frame_off) in
    let amount :=
      if wrap64 (end_ - offset st) <? amount0
      then wrap32 (wrap64 (end_ - offset st)) else amount0 in
    if offset st <? track_start st
    then (* In pregap *)
      Ret (set_offset st (wrap64 (offset st + amount)), repeat 0 (Z.to_nat amount))
    else
      let chd_frame :=
        wrap32 (track_frame st + wrap64 (offset st - track_start st) / frame_size st) in
      if frames_per_hunk st =? 0 then Undef
      else
        let hunk := chd_frame / frames_per_hunk st in
        let hunk_offset :=
          wrap32 (chd_frame mod frames_per_hunk st
                  * unitbytes (chd_get_header (chd st))) in
        match chdstream_load_hunk st hunk with
        | (false, _) => Aborted
        | (true, st1) =>
            let src := frame_off + hunk_offset + frame_offset st1 in
            if src + amount <=? Z.of_nat (List.length (hunkmem st1))
            then Ret (set_offset st1 (wrap64 (offset st1 + amount)),
                      firstn (Z.to_nat amount) (skipn (Z.to_nat src) (hunkmem st1)))
            else Undef
        end.

Fixpoint read_loop (fuel : nat) (st : chdstream) (end_ : Z) (out : list Z)
    : outcome (chdstream * list Z) :=
  if offset st <? end_ then
    match fuel with
    | O => OutOfFuel
    | S fuel' =>
        r <- read_chunk st end_ ;;
        read_loop fuel' (fst r) end_ (out ++ snd r)
    end
  else Ret (st, out).

(** [chdstream_read]: the value returned, the stream afterwards and the bytes
    stored from the start of [data].  Every turn of the loop moves the cursor
    by at least one byte, so [bytes] turns are enough. *)
Definition chdstream_read (st : chdstream) (bytes : Z) : outcome (Z * chdstream * list Z) :=
  let bytes' :=
    if wrap64 (track_end st - offset st) <? bytes
    then wrap64 (track_end st - offset st) else bytes in
  let end_ := wrap64 (offset st + bytes') in
  r <- read_loop (Z.to_nat bytes') st end_ [] ;;
  Ret (to_ssize bytes', fst r, snd r).

(** [char] is signed on the target. *)
Definition to_char (b : Z) : Z :=
  let u := b mod 256 in if u <? 128 then u else u - 256.

Definition chdstream_getc (st : chdstream) : outcome (Z * chdstream) :=
  let sizeof_c := 1 in
  r <- chdstream_read st (Z.b2z (negb (sizeof_c =? sizeof_c))) ;;
  let '(n, st', out) := r in
  let c := to_char (nth 0 out 0) in
  if negb (n =? 0) then Ret (EOF, st') else Ret (c, st').

Section Gets.
(** The single-byte read called by the loop. *)
Variable getc : chdstream -> outcome (Z * chdstream).

(** [while (offset < len && (c = getc(stream)) != EOF) buffer[offset++] = c;] *)
Fixpoint gets_loop (fuel : nat) (st : chdstream) (len : Z) (off : Z) (buffer : list Z)
    : outcome (chdstream * Z * list Z) :=
  if off <? len then
    match fuel with
    | O => OutOfFuel
    | S fuel' =>
        r <- getc st ;;
        if fst r =? EOF then Ret (snd r, off, buffer)
        else gets_loop fuel' (snd r) len (off + 1) (buffer ++ [fst r mod 256])
    end
  else Ret (st, off, buffer).

(** The bytes stored from the start of [buffer], and the stream afterwards. *)
Definition gets_with (st : chdstream) (len : Z) : outcome (list Z * chdstream) :=
  r <- gets_loop (Z.to_nat len) st len 0 [] ;;
  let '(st', off, buffer) := r in
  Ret (if off <? len then buffer ++ [0] else buffer, st').
End Gets.

Definition chdstream_gets (st : chdstream) (len : Z) : outcome (list Z * chdstream) :=
  gets_with chdstream_getc st len.

Definition chdstream_tell (st : chdstream) : Z := offset st.

Definition chdstream_rewind (st : chdstream) : chdstream := set_offset st 0.

Definition chdstream_seek (st : chdstream) (off : Z) (whence : Z) : Z * chdstream :=
  let candidate :=
    if whence =? SEEK_SET then Some off
    else if whence =? SEEK_CUR then Some (to_ssize (offset st + off))
    else if whence =? SEEK_END then Some (to_ssize (track_end st + off))
    else None in
  match candidate with
  | None => (-1, st)
  | Some new_offset =>
      if new_offset <? 0 then (-1, st)
      else
        let new_offset' :=
          if track_end st <? new_offset then to_ssize (track_end st) else new_offset in
        (0, set_offset st (wrap64 new_offset'))
  end.

(** * Vocabulary of the properties *)

(** The geometry under which every division and every copy of
    [chdstream_read] is defined, together with the cursor invariant. *)
Record stream_ok (st : chdstream) : Prop := {
  ok_frame_size : 0 < frame_size st < 2 ^ 32;
  ok_frames_per_hunk : 0 < frames_per_hunk st;
  ok_unitbytes : 0 <= unitbytes (header (chd st));
  ok_frame_offset : 0 <= frame_offset st;
  ok_frame_fits : frame_size st + frame_offset st <= unitbytes (header (chd st));
  ok_hunk_fits :
    frames_per_hunk st * unitbytes (header (chd st)) <= hunkbytes (header (chd st));
  ok_hunkbytes : hunkbytes (header (chd st)) < 2 ^ 32;
  ok_hunkmem : Z.of_nat (List.length (hunkmem st)) = hunkbytes (header (chd st));
  ok_track_start : 0 <= track_start st < 2 ^ 64;
  ok_aligned : track_start st mod frame_size st = 0;
  ok_offset : 0 <= offset st <= track_end st;
  ok_track_end : track_end st < 2 ^ 64
}.

(** Everything but the cursor, the cache and the ghost log. *)
Definition same_geometry (st st' : chdstream) : Prop :=
  chd st' = chd st /\ swab st' = swab st /\ frame_size st' = frame_size st /\
  frame_offset st' = frame_offset st /\ frames_per_hunk st' = frames_per_hunk st /\
  track_frame st' = track_frame st /\ track_start st' = track_start st /\
  track_end st' = track_end st.

(** The hunk that holds the byte at stream offset [pos] (at or after
    [track_start]), and where its frame starts in the hunk. *)
Definition chd_frame_at (st : chdstream) (pos : Z) : Z :=
  wrap32 (track_frame st + (pos - track_start st) / frame_size st).

Definition hunk_at (st : chdstream) (pos : Z) : Z :=
  chd_frame_at st pos / frames_per_hunk st.

Definition hunk_offset_at (st : chdstream) (pos : Z) : Z :=
  chd_frame_at st pos mod frames_per_hunk st * unitbytes (header (chd st)).

Definition chunk_amount (st : chdstream) (end_ : Z) : Z :=
  Z.min (frame_size st - offset st mod frame_size st) (end_ - offset st).

(** What a run of the loop from [st] up to [end_] guarantees: it returns with
    the cursor at [end_] and [end_ - offset st] more bytes stored, those
    below [track_start] being zero, or it stops in [abort()] because the
    engine could not supply a hunk of the range; it neither runs out of
    turns nor leaves defined behaviour. *)
Definition read_post (st : chdstream) (end_ : Z) (out : list Z)
    (r : outcome (chdstream * list Z)) : Prop :=
  match r with
  | Ret (st', out') =>
      exists tail,
        out' = out ++ tail /\
        same_geometry st st' /\ stream_ok st' /\ offset st' = end_ /\
        Z.of_nat (List.length tail) = end_ - offset st /\
        (forall j, 0 <= j < end_ - offset st -> offset st + j < track_start st ->
                   nth (Z.to_nat j) tail 0 = 0) /\
        (end_ <= track_start st -> st' = set_offset st end_)
  | Aborted =>
      exists pos, offset st <= pos < end_ /\ track_start st <= pos /\
                  chd_read (chd st) (hunk_at st pos) = None
  | Undef | OutOfFuel => False
  end.

Ltac split_and := repeat match goal with |- _ /\ _ => split end.

(** The candidate position of a seek as the specification words it, in
    unbounded integers. *)
Definition seek_candidate (st : chdstream) (off : Z) (whence : Z) : option Z :=
  if whence =? SEEK_SET then Some off
  else if whence =? SEEK_CUR then Some (offset st + off)
  else if whence =? SEEK_END then Some (track_end st + off)
  else None.

(** The behaviour of [chdstream_seek] as the specification words it. *)
Definition seek_as_stated (st : chdstream) (off : Z) (whence : Z) : Prop :=
  match seek_candidate st off whence with
  | None => chdstream_seek st off whence = (-1, st)
  | Some c =>
      if c <? 0 then chdstream_seek st off whence = (-1, st)
      else if track_end st <? c
      then chdstream_seek st off whence = (0, set_offset st (track_end st))
      else chdstream_seek st off whence = (0, set_offset st c)
  end.

(** The candidate is representable as an [ssize_t]. *)
Definition candidate_fits (st : chdstream) (off : Z) (whence : Z) : Prop :=
  match seek_candidate st off whence with
  | None => True
  | Some c => - 2 ^ 63 <= c <= SSIZE_MAX
  end.

(** The engine calls made by a load: none on a hit, one on a miss. *)
Definition load_calls (st : chdstream) (h : Z) : list Z :=
  if h =? wrap32 (hunknum st) then [] else [h].

(** The fields read with [%d] are 32-bit values. *)
Definition meta_in_range (m : metadata_t) : Prop :=
  0 <= m_frames m < 2 ^ 32 /\ 0 <= m_pregap m < 2 ^ 32.

(** The frames of pregap that [chdstream_open] counts for a track. *)
Definition counted_pregap (m : metadata_t) : Z :=
  if String.eqb (m_type m) (m_pgtype m) then m_pregap m else 0.

(** The frame size that [chdstream_open] derives from the track type. *)
Definition frame_size_of (hd : chd_header) (m : metadata_t) : Z :=
  if String.eqb (m_type m) "MODE1_RAW" then SECTOR_SIZE
  else if String.eqb (m_type m) "MODE2_RAW" then SECTOR_SIZE
  else if String.eqb (m_type m) "AUDIO" then SECTOR_SIZE
  else unitbytes hd.

(** One call on an open stream. *)
Inductive step : chdstream -> chdstream -> Prop :=
| step_read st bytes r st' out :
    0 <= bytes < 2 ^ 64 ->
    chdstream_read st bytes = Ret (r, st', out) -> step st st'
| step_getc st c st' :
    chdstream_getc st = Ret (c, st') -> step st st'
| step_gets st len out st' :
    0 <= len < 2 ^ 64 ->
    chdstream_gets st len = Ret (out, st') -> step st st'
| step_seek st off whence :
    step st (snd (chdstream_seek st off whence))
| step_rewind st :
    step st (chdstream_rewind st).

(** The states a stream goes through after [chdstream_open]. *)
Inductive reachable (st0 : chdstream) : chdstream -> Prop :=
| reach_open : reachable st0 st0
| reach_step st st' : reachable st0 st -> step st st' -> reachable st0 st'.

(** The byte range of an opened track as the specification words it, in
    unbounded integers. *)
Definition open_geometry_as_stated (fuel : nat) (sys : storage) (path : string)
    (track : Z) : Prop :=
  forall st meta,
    chdstream_open fuel sys path track = Ret (Some st) ->
    chdstream_find_track fuel (chd st) track = Ret (true, meta) ->
    track_start st = counted_pregap meta * frame_size st /\
    track_end st = track_start st + m_frames meta * frame_size st.

(** What is observed of a read: the count returned, the cursor, the engine
    calls made so far and the bytes delivered. *)
Definition read_view (r : outcome (Z * chdstream * list Z))
    : outcome (Z * Z * list Z * list Z) :=
  x <- r ;;
  Ret (fst (fst x), chdstream_tell (snd (fst x)), chd_reads (snd (fst x)), snd x).

(** [reads_of g st cs st1]: from [st], successive calls of the single-byte
    read [g] return the values [cs], none of them [EOF], and lead to [st1]. *)
Inductive reads_of (g : chdstream -> outcome (Z * chdstream))
    : chdstream -> list Z -> chdstream -> Prop :=
| reads_nil st : reads_of g st [] st
| reads_cons st c st1 cs st2 :
    g st = Ret (c, st1) -> c <> EOF -> reads_of g st1 cs st2 ->
    reads_of g st (c :: cs) st2.

(** The loop of the bounded slurp as the specification words it: it stops
    once [len - 1] bytes are stored, or earlier at end-of-stream. *)
Definition slurp_as_stated (st : chdstream) (len : Z) : Prop :=
  exists st' off buffer,
    gets_loop chdstream_getc (Z.to_nat len) st len 0 [] = Ret (st', off, buffer) /\
    Z.of_nat (List.length buffer) = off /\
    off <= len - 1.

(** All the metadata records of a container. *)
Definition records (fd : chd_file) : list track_text :=
  cdrom2_meta fd ++ cdrom_meta fd ++ gdrom_meta fd.

(** ** The hunk cache and the bytes of a track *)

(** What a successful load of hunk [h] leaves in the buffer: the hunk as the
    engine supplies it, byte-swapped when [swab] is set. *)
Definition hunk_image (st : chdstream) (h : Z) : option (list Z) :=
  option_map
    (fun mem =>
       if swab st
       then swab_loop (Z.to_nat (hunkbytes (header (chd st)) / 2)) 0 mem
       else mem)
    (chd_read (chd st) h).

(** Nothing has been loaded yet, or the buffer holds the image of the hunk
    whose number is cached. *)
Definition cache_valid (st : chdstream) : Prop :=
  hunknum st = -1 \/ hunk_image st (wrap32 (hunknum st)) = Some (hunkmem st).

(** The byte of the track at stream offset [pos]: zero in the pregap, and
    past it the byte of the image of the hunk that holds the frame, at the
    place of the frame in the hunk plus the offset in the frame. *)
Definition stream_byte (st : chdstream) (pos : Z) : Z :=
  if pos <? track_start st then 0
  else
    match hunk_image st (hunk_at st pos) with
    | Some img =>
        nth (Z.to_nat (pos mod frame_size st + hunk_offset_at st pos + frame_offset st))
            img 0
    | None => 0
    end.

(** The hunk number that the empty cache ([hunknum = -1]) compares equal to. *)
Definition SENTINEL_HUNK : Z := 4294967295.

(** The cached hunk number as the specification has it: the number of the
    hunk loaded last, [-1] standing for none. *)
Definition cached_hunk (st : chdstream) : option Z :=
  if hunknum st =? -1 then None else Some (wrap32 (hunknum st)).

(** A cache miss as the specification words it: when [h] is not the cached
    hunk and the engine supplies it, the load asks the engine for it and
    leaves it in the buffer. *)
Definition miss_as_stated (st : chdstream) (h : Z) : Prop :=
  cached_hunk st <> Some h ->
  forall mem, chd_read (chd st) h = Some mem ->
    exists st',
      chdstream_load_hunk st h = (true, st') /\
      chd_reads st' = chd_reads st ++ [h] /\
      hunk_image st h = Some (hunkmem st').

(** The buffer holds the image of the hunk whose number is cached, as it
    does after every load that the engine has answered. *)
Definition cache_loaded (st : chdstream) : Prop :=
  hunk_image st (wrap32 (hunknum st)) = Some (hunkmem st).

(** The cache serves the reads from the cursor on: it is loaded, or it is
    empty and the first hunk that a read will ask for is not the one that
    the empty mark stands for. *)
Definition cache_sound (st : chdstream) : Prop :=
  cache_loaded st \/
  (hunknum st = -1 /\
   hunk_at st (Z.max (offset st) (track_start st)) <> SENTINEL_HUNK).

(** The count of a read as the specification words it: with the cursor
    within [0, track_end] and an engine that supplies every hunk, the call
    returns the clamped count and moves the cursor by it. *)
Definition read_count_as_stated (st : chdstream) (bytes : Z) : Prop :=
  0 <= offset st <= track_end st ->
  (forall h, chd_read (chd st) h <> None) ->
  exists st' out,
    chdstream_read st bytes
    = Ret (Z.min bytes (track_end st - offset st), st', out) /\
    chdstream_tell st' = chdstream_tell st + Z.min bytes (track_end st - offset st).

(** A read from offset 0 across a nonzero pregap as the specification words
    it: it delivers [track_start] zero bytes and then data. *)
Definition pregap_read_as_stated (st : chdstream) (bytes : Z) : Prop :=
  offset st = 0 -> 0 < track_start st < bytes -> bytes <= track_end st ->
  (forall h, chd_read (chd st) h <> None) ->
  exists st' out,
    chdstream_read st bytes = Ret (bytes, st', out) /\
    firstn (Z.to_nat (track_start st)) out = repeat 0 (Z.to_nat (track_start st)).

(** The single-byte read as the specification words it: it reads exactly
    one byte through [chdstream_read] and reports end-of-stream if no byte
    was produced. *)
Definition getc_as_stated (st : chdstream) : outcome (Z * chdstream) :=
  r <- chdstream_read st 1 ;;
  let '(n, st', out) := r in
  if n =? 0 then Ret (EOF, st') else Ret (nth 0 out 0, st').

(** * Sample containers *)

Definition track_record (n : Z) (ty : string) (frames pregap : Z) (pgtype : string)
    : track_text :=
  {| t_track := n; t_type := ty; t_subtype := "NONE"; t_frames := frames; t_pad := 0;
     t_pregap := pregap; t_pgtype := pgtype; t_pgsub := "NONE"; t_postgap := 0 |}.

Definition sample_hunk (h : Z) : list Z :=
  map (fun k => (Z.of_nat k + 64 * h + 1) mod 251) (seq 0 64).

(** Three cooked tracks on 16-byte units, four units to a hunk; the first
    track has a two-frame pregap stored with the track. *)
Definition cooked_disc : chd_file :=
  {| header := {| hunkbytes := 64; unitbytes := 16 |};
     hunks := fun h => Some (sample_hunk h);
     cdrom2_meta := [track_record 1 "MODE1" 5 2 "MODE1";
                     track_record 2 "MODE1" 3 0 "MODE1";
                     track_record 3 "MODE1" 7 1 "VAUDIO"];
     cdrom_meta := []; gdrom_meta := [] |}.

Definition sample_storage (fd : chd_file) : storage :=
  {| chd_open := fun _ => Some fd; calloc_ok := true; malloc_ok := fun _ => true |}.

(** The stream that [chdstream_open] builds for track 1 of [cooked_disc]. *)
Definition cooked_stream : chdstream :=
  {| chd := cooked_disc; swab := false; frame_size := 16; frame_offset := 0;
     frames_per_hunk := 4; track_frame := 0; track_start := 32; track_end := 112;
     offset := 0; hunknum := -1; hunkmem := repeat 0 64; chd_reads := [] |}.

(** The two-track disc of the scenario: track 1 (MODE1_RAW, 100 frames, no
    pregap) and track 2 (AUDIO, 50 frames, 150 frames of pregap of the same
    type), on 2352-byte units, two units to a hunk. *)
Definition audio_hunk (h : Z) : list Z :=
  map (fun k => (Z.of_nat k + h) mod 256) (seq 0 (Z.to_nat 4704)).

Definition audio_disc : chd_file :=
  {| header := {| hunkbytes := 4704; unitbytes := 2352 |};
     hunks := fun h => if h <? 76 then Some (audio_hunk h) else None;
     cdrom2_meta := [track_record 1 "MODE1_RAW" 100 0 "MODE1_RAW";
                     track_record 2 "AUDIO" 50 150 "AUDIO"];
     cdrom_meta := []; gdrom_meta := [] |}.

(** The stream that [chdstream_open] builds for track 2 of [audio_disc]. *)
Definition audio_stream : chdstream :=
  {| chd := audio_disc; swab := true; frame_size := 2352; frame_offset := 0;
     frames_per_hunk := 2; track_frame := 100; track_start := 352800;
     track_end := 470400; offset := 0; hunknum := -1;
     hunkmem := repeat 0 (Z.to_nat 4704); chd_reads := [] |}.

(** A cooked track whose unit size, frame count and pregap are all
    [2^32 - 1]: its byte range does not fit [size_t]. *)
Definition huge_disc : chd_file :=
  {| header := {| hunkbytes := 4294967295; unitbytes := 4294967295 |};
     hunks := fun _ => None;
     cdrom2_meta := [track_record 1 "MODE1" 4294967295 4294967295 "MODE1"];
     cdrom_meta := []; gdrom_meta := [] |}.

Definition huge_stream : chdstream :=
  {| chd := huge_disc; swab := false; frame_size := 4294967295; frame_offset := 0;
     frames_per_hunk := 1; track_frame := 0;
     track_start := 18446744065119617025; track_end := 18446744056529682434;
     offset := 0; hunknum := -1;
     hunkmem := repeat 0 (Z.to_nat 4294967295); chd_reads := [] |}.

(** [cooked_disc] with every hunk but the first unreadable, and the stream on
    its track 1 with the cursor at the start of the track data. *)
Definition broken_disc : chd_file :=
  {| header := header cooked_disc;
     hunks := fun h => if h =? 0 then Some (sample_hunk 0) else None;
     cdrom2_meta := cdrom2_meta cooked_disc;
     cdrom_meta := []; gdrom_meta := [] |}.

Definition broken_stream : chdstream :=
  {| chd := broken_disc; swab := false; frame_size := 16; frame_offset := 0;
     frames_per_hunk := 4; track_frame := 0; track_start := 32; track_end := 112;
     offset := 32; hunknum := -1; hunkmem := repeat 0 64; chd_reads := [] |}.

(** A disc of two audio tracks, and a disc with one audio track (200 frames)
    and one data track (500 frames). *)
Definition audio_only_disc : chd_file :=
  {| header := {| hunkbytes := 4704; unitbytes := 2352 |};
     hunks := fun _ => None;
     cdrom2_meta := [track_record 1 "AUDIO" 200 0 "AUDIO";
                     track_record 2 "AUDIO" 300 150 "AUDIO"];
     cdrom_meta := []; gdrom_meta := [] |}.

Definition mixed_disc : chd_file :=
  {| header := {| hunkbytes := 4704; unitbytes := 2352 |};
     hunks := fun _ => None;
     cdrom2_meta := [track_record 1 "AUDIO" 200 0 "AUDIO";
                     track_record 2 "MODE1_RAW" 500 0 "MODE1_RAW"];
     cdrom_meta := []; gdrom_meta := [] |}.

(** A header whose hunks are shorter than its units ([hunkbytes / unitbytes]
    is 0), with the track layout of [cooked_disc]'s first track, and the
    stream that [chdstream_open] builds on it. *)
Definition short_hunk_disc : chd_file :=
  {| header := {| hunkbytes := 8; unitbytes := 16 |};
     hunks := fun h => Some (sample_hunk h);
     cdrom2_meta := [track_record 1 "MODE1" 5 2 "MODE1"];
     cdrom_meta := []; gdrom_meta := [] |}.

Definition short_hunk_stream : chdstream :=
  {| chd := short_hunk_disc; swab := false; frame_size := 16; frame_offset := 0;
     frames_per_hunk := 0; track_frame := 0; track_start := 32; track_end := 112;
     offset := 0; hunknum := -1; hunkmem := repeat 0 8; chd_reads := [] |}.

(** A raw track (2352-byte frames) on 16-byte units, one unit to a hunk. *)
Definition narrow_unit_disc : chd_file :=
  {| header := {| hunkbytes := 16; unitbytes := 16 |};
     hunks := fun h => Some (sample_hunk h);
     cdrom2_meta := [track_record 1 "MODE1_RAW" 5 0 "MODE1_RAW"];
     cdrom_meta := []; gdrom_meta := [] |}.

Definition narrow_unit_stream : chdstream :=
  {| chd := narrow_unit_disc; swab := false; frame_size := 2352; frame_offset := 0;
     frames_per_hunk := 1; track_frame := 0; track_start := 0; track_end := 11760;
     offset := 0; hunknum := -1; hunkmem := repeat 0 16; chd_reads := [] |}.

(** A cooked track of one frame behind a pregap of [2^32 - 1] frames of
    [2^32 - 1] bytes: a byte range that fits [size_t] but not [ssize_t]. *)
Definition long_pregap_disc : chd_file :=
  {| header := {| hunkbytes := 4294967295; unitbytes := 4294967295 |};
     hunks := fun _ => Some [];
     cdrom2_meta := [track_record 1 "MODE1" 1 4294967295 "MODE1"];
     cdrom_meta := []; gdrom_meta := [] |}.

Definition long_pregap_stream : chdstream :=
  {| chd := long_pregap_disc; swab := false; frame_size := 4294967295;
     frame_offset := 0; frames_per_hunk := 1; track_frame := 0;
     track_start := 18446744065119617025; track_end := 18446744069414584320;
     offset := 0; hunknum := -1;
     hunkmem := repeat 0 (Z.to_nat 4294967295); chd_reads := [] |}.

(** Two cooked tracks on 16-byte units, one unit to a hunk; the second
    track starts at frame [2^32 - 4], so that its fourth frame is hunk
    [2^32 - 1]. *)
Definition last_hunk_disc : chd_file :=
  {| header := {| hunkbytes := 16; unitbytes := 16 |};
     hunks := fun h => Some (sample_hunk h);
     cdrom2_meta := [track_record 1 "MODE1" 4294967292 0 "MODE1";
                     track_record 2 "MODE1" 8 0 "MODE1"];
     cdrom_meta := []; gdrom_meta := [] |}.

Definition last_hunk_stream : chdstream :=
  {| chd := last_hunk_disc; swab := false; frame_size := 16; frame_offset := 0;
     frames_per_hunk := 1; track_frame := 4294967292; track_start := 0;
     track_end := 128; offset := 0; hunknum := -1; hunkmem := repeat 0 16;
     chd_reads := [] |}.

(** * Vocabulary of the further properties *)

(** The records that the scan of [chdstream_find_track_number] meets, in
    order: the one that [chdstream_get_meta] yields at each index below
    [meta_count]. *)
Definition scanned (fd : chd_file) : list metadata_t :=
  map (fun i => snd (chdstream_get_meta fd (Z.of_nat i))) (seq 0 (meta_count fd)).

(** The frames, padding included, that a list of records occupies. *)
Definition frames_of (l : list metadata_t) : Z :=
  fold_right (fun m acc => m_frames m + m_extra m + acc) 0 l.

(** What the lookup of [track] yields: the first scanned record with that
    number, its frame offset being the frames of the records before it, or
    the zeroed record when no scanned record has the number. *)
Definition lookup_post (fd : chd_file) (track : Z)
    (r : outcome (bool * metadata_t)) : Prop :=
  match r with
  | Ret (true, m) =>
      exists pre m0 post,
        scanned fd = pre ++ m0 :: post /\
        (forall p, In p pre -> m_track p <> wrap32 track) /\
        m_track m0 = wrap32 track /\
        m = set_frame_offset m0 (wrap32 (frames_of pre))
  | Ret (false, m) =>
      m = metadata_zero /\
      forall p, In p (scanned fd) -> m_track p <> wrap32 track
  | _ => False
  end.

(** Track [k], with record [mk], is the primary track among the tracks
    [1 .. n]: a non-AUDIO track with more frames than every non-AUDIO track
    of a lower number and at least as many as every other one. *)
Definition primary_among (fd : chd_file) (n k : Z) (mk : metadata_t) : Prop :=
  1 <= k <= n /\
  chdstream_find_track_number fd k = Ret (true, mk) /\
  is_audio (m_type mk) = false /\
  (forall j mj, 1 <= j <= n ->
     chdstream_find_track_number fd j = Ret (true, mj) ->
     is_audio (m_type mj) = false -> m_frames mj <= m_frames mk) /\
  (forall j mj, 1 <= j < k ->
     chdstream_find_track_number fd j = Ret (true, mj) ->
     is_audio (m_type mj) = false -> m_frames mj < m_frames mk).

(** The state of the scan before track [i] is looked at. *)
Definition primary_inv (fd : chd_file) (i lt ls : Z) : Prop :=
  (forall j mj, 1 <= j < i ->
     chdstream_find_track_number fd j = Ret (true, mj) ->
     is_audio (m_type mj) = false -> m_frames mj <= ls) /\
  ((lt = 0 /\ ls = 0) \/
   (exists mk,
      1 <= lt < i /\ chdstream_find_track_number fd lt = Ret (true, mk) /\
      is_audio (m_type mk) = false /\ m_frames mk = ls /\ 0 < ls /\
      forall j mj, 1 <= j < lt ->
        chdstream_find_track_number fd j = Ret (true, mj) ->
        is_audio (m_type mj) = false -> m_frames mj < ls)).

(** The reasons for which [chdstream_open] returns no stream on a container
    that the engine has opened: the track number is carried by no scanned
    record, or one of the two allocations fails. *)
Definition open_refused (sys : storage) (fd : chd_file) (track : Z) : Prop :=
  (forall p, In p (scanned fd) -> m_track p <> wrap32 track) \/
  calloc_ok sys = false \/ malloc_ok sys (hunkbytes (header fd)) = false.

(** ** What a stream holds *)

(** The three things that [chdstream_open] acquires: the engine's handle on
    the container ([chd_open]), the stream structure ([calloc]) and the hunk
    buffer ([malloc]). *)
Inductive resource : Type := Handle | Structure | Buffer.

Inductive event : Type :=
| Acquire (r : resource)
| Release (r : resource).

Definition resource_eqb (a b : resource) : bool :=
  match a, b with
  | Handle, Handle | Structure, Structure | Buffer, Buffer => true
  | _, _ => false
  end.

(** The two pointers of a stream structure that [chdstream_close] tests:
    [true] for a pointer that is not null. *)
Record stream_ptrs : Type := { p_hunkmem : bool; p_chd : bool }.

(** [chdstream_close], as the releases it makes, in order; [None] is the null
    pointer. *)
Definition chdstream_close (stream : option stream_ptrs) : list event :=
  match stream with
  | None => []
  | Some s =>
      (if p_hunkmem s then [Release Buffer] else []) ++
      (if p_chd s then [Release Handle] else []) ++
      [Release Structure]
  end.

(** The label [error] of [chdstream_open]: the events so far, then
    [chdstream_close (stream)], then [chd_close] when [chd] is set. *)
Definition open_error (done : list event) (stream : option stream_ptrs) (chd_set : bool)
    : list event * option stream_ptrs :=
  (done ++ chdstream_close stream ++ (if chd_set then [Release Handle] else []),
   None).

(** [chdstream_open] once more, as the acquisitions and releases it makes and
    the pointers of the structure it returns.  [calloc] zeroes the structure,
    and [stream->chd] is assigned after the last [goto error]. *)
Definition chdstream_open_events (fuel : nat) (sys : storage) (path : string)
    (track : Z) : outcome (list event * option stream_ptrs) :=
  match chd_open sys path with
  | None => Ret (open_error [] None false)
  | Some fd =>
      r <- chdstream_find_track fuel fd track ;;
      if negb (fst r) then Ret (open_error [Acquire Handle] None true)
      else if negb (calloc_ok sys) then Ret (open_error [Acquire Handle] None true)
      else
        let hd := chd_get_header fd in
        if negb (malloc_ok sys (hunkbytes hd))
        then Ret (open_error [Acquire Handle; Acquire Structure]
                    (Some {| p_hunkmem := false; p_chd := false |}) true)
        else if unitbytes hd =? 0 then Undef
        else Ret ([Acquire Handle; Acquire Structure; Acquire Buffer],
                  Some {| p_hunkmem := true; p_chd := true |})
  end.

(** The resources held after a run of events, starting from [held]; [None]
    when the run acquires what is held or releases what is not. *)
Fixpoint held_after (held : list resource) (tr : list event) : option (list resource) :=
  match tr with
  | [] => Some held
  | Acquire r :: tr' =>
      if existsb (resource_eqb r) held then None
      else held_after (r :: held) tr'
  | Release r :: tr' =>
      if existsb (resource_eqb r) held
      then held_after (filter (fun x => negb (resource_eqb r x)) held) tr'
      else None
  end.

(** * Further sample containers *)

(** A container with one record in the legacy CD-track format; the pregap
    fields of the text are not part of that format. *)
Definition legacy_disc : chd_file :=
  {| header := {| hunkbytes := 64; unitbytes := 16 |};
     hunks := fun h => Some (sample_hunk h);
     cdrom2_meta := [];
     cdrom_meta := [track_record 1 "MODE1" 5 9 "MODE1"];
     gdrom_meta := [] |}.

Definition legacy_stream : chdstream :=
  {| chd := legacy_disc; swab := false; frame_size := 16; frame_offset := 0;
     frames_per_hunk := 4; track_frame := 0; track_start := 0; track_end := 80;
     offset := 0; hunknum := -1; hunkmem := repeat 0 64; chd_reads := [] |}.
(** * Properties *)

(** ** Machine integers *)

Lemma wrap32_small (x : Z) : 0 <= x < 2 ^ 32 -> wrap32 x = x.
Proof. intros H. unfold wrap32. apply Z.mod_small. exact H. Qed.

Lemma wrap64_small (x : Z) : 0 <= x < 2 ^ 64 -> wrap64 x = x.
Proof. intros H. unfold wrap64. apply Z.mod_small. exact H. Qed.

Lemma wrap32_range (x : Z) : 0 <= wrap32 x < 2 ^ 32.
Proof. unfold wrap32. apply Z.mod_pos_bound. lia. Qed.

Lemma wrap64_range (x : Z) : 0 <= wrap64 x < 2 ^ 64.
Proof. unfold wrap64. apply Z.mod_pos_bound. lia. Qed.

Lemma to_ssize_small (x : Z) : 0 <= x <= SSIZE_MAX -> to_ssize x = x.
Proof.
  unfold SSIZE_MAX, to_ssize. intros H.
  rewrite wrap64_small by lia.
  destruct (Z.ltb_spec x (2 ^ 63)); lia.
Qed.

Lemma to_ssize_signed (x : Z) : - 2 ^ 63 <= x < 2 ^ 63 -> to_ssize x = x.
Proof.
  intros H. unfold to_ssize, wrap64.
  destruct (Z_lt_le_dec x 0) as [Hneg | Hpos].
  - replace (x mod 2 ^ 64) with (x + 2 ^ 64).
    + destruct (Z.ltb_spec (x + 2 ^ 64) (2 ^ 63)); lia.
    + apply Z.mod_unique with (q := -1); lia.
  - rewrite Z.mod_small by lia.
    destruct (Z.ltb_spec x (2 ^ 63)); lia.
Qed.

Lemma to_int32_range (x : Z) : - 2 ^ 31 <= to_int32 x < 2 ^ 31.
Proof.
  unfold to_int32. pose proof (wrap32_range x) as H.
  destruct (Z.ltb_spec (wrap32 x) (2 ^ 31)); lia.
Qed.

Lemma wrap32_to_int32 (x : Z) : wrap32 (to_int32 x) = wrap32 x.
Proof.
  unfold to_int32. pose proof (wrap32_range x) as H.
  destruct (Z.ltb_spec (wrap32 x) (2 ^ 31)).
  - apply wrap32_small. exact H.
  - unfold wrap32 in *.
    replace (x mod 2 ^ 32 - 2 ^ 32) with (x mod 2 ^ 32 + (-1) * 2 ^ 32) by lia.
    rewrite Z.mod_add by lia. apply Z.mod_mod. lia.
Qed.

(** ** Lists of bytes *)

Lemma upd_length (l : list Z) (n : nat) (v : Z) : List.length (upd l n v) = List.length l.
Proof.
  revert n. induction l as [| h t IH]; intros [| n]; simpl; auto.
Qed.

Lemma upd_nth_same (l : list Z) (n : nat) (v d : Z) :
  (n < List.length l)%nat -> nth n (upd l n v) d = v.
Proof.
  revert n. induction l as [| h t IH]; intros [| n] H; simpl in *; try lia; auto.
  apply IH. lia.
Qed.

Lemma upd_nth_other (l : list Z) (n m : nat) (v d : Z) :
  n <> m -> nth m (upd l n v) d = nth m l d.
Proof.
  revert n m. induction l as [| h t IH]; intros [| n] [| m] H; simpl; auto; try lia.
Qed.

Lemma store16_length (mem : list Z) (i v : Z) :
  List.length (store16 mem i v) = List.length mem.
Proof. unfold store16. now rewrite !upd_length. Qed.

Lemma swab_loop_length (n : nat) (i : Z) (mem : list Z) :
  List.length (swab_loop n i mem) = List.length mem.
Proof.
  revert i mem. induction n as [| n IH]; intros i mem; simpl; auto.
  rewrite IH. apply store16_length.
Qed.

Lemma fit_length (n : Z) (l : list Z) : List.length (fit n l) = Z.to_nat n.
Proof.
  unfold fit. rewrite length_firstn, length_app, repeat_length. lia.
Qed.

Lemma chd_read_length (fd : chd_file) (h : Z) (mem : list Z) :
  chd_read fd h = Some mem -> List.length mem = Z.to_nat (hunkbytes (header fd)).
Proof.
  unfold chd_read. destruct (hunks fd h); simpl; intros H; inversion H.
  apply fit_length.
Qed.

(** ** Well-formed streams *)

Lemma same_geometry_refl (st : chdstream) : same_geometry st st.
Proof. repeat split. Qed.

Lemma same_geometry_trans (a b c : chdstream) :
  same_geometry a b -> same_geometry b c -> same_geometry a c.
Proof.
  unfold same_geometry. intros H1 H2.
  destruct H1 as (?&?&?&?&?&?&?&?), H2 as (?&?&?&?&?&?&?&?).
  repeat split; congruence.
Qed.

Lemma same_geometry_set_offset (st : chdstream) (v : Z) :
  same_geometry st (set_offset st v).
Proof. repeat split. Qed.

Lemma stream_ok_set_offset (st : chdstream) (v : Z) :
  stream_ok st -> 0 <= v <= track_end st -> stream_ok (set_offset st v).
Proof. intros [] Hv. constructor; simpl; auto. Qed.

(** ** The hunk cache *)

Lemma load_hunk_hit (st : chdstream) (h : Z) :
  h = wrap32 (hunknum st) -> chdstream_load_hunk st h = (true, st).
Proof.
  intros ->. unfold chdstream_load_hunk. now rewrite Z.eqb_refl.
Qed.

Lemma load_hunk_geometry (st : chdstream) (h : Z) :
  same_geometry st (snd (chdstream_load_hunk st h)) /\
  offset (snd (chdstream_load_hunk st h)) = offset st.
Proof.
  unfold chdstream_load_hunk.
  destruct (h =? wrap32 (hunknum st)); [split; [apply same_geometry_refl | reflexivity] |].
  destruct (chd_read (chd st) h); simpl; split; repeat split.
Qed.

Lemma load_hunk_ok (st : chdstream) (h : Z) :
  stream_ok st -> stream_ok (snd (chdstream_load_hunk st h)).
Proof.
  intros Hok. unfold chdstream_load_hunk.
  destruct (h =? wrap32 (hunknum st)); [exact Hok |].
  destruct (chd_read (chd st) h) as [mem |] eqn:Hrd; simpl.
  - destruct Hok. constructor; simpl; auto.
    assert (Hlen : List.length mem = Z.to_nat (hunkbytes (header (chd st))))
      by (eapply chd_read_length; eauto).
    destruct (swab st); [rewrite swab_loop_length |]; lia.
  - destruct Hok. constructor; simpl; auto.
Qed.

(** ** One turn of the read loop *)

Lemma chunk_amount_pos (st : chdstream) (end_ : Z) :
  stream_ok st -> offset st < end_ ->
  1 <= chunk_amount st end_ <= end_ - offset st /\
  offset st mod frame_size st + chunk_amount st end_ <= frame_size st.
Proof.
  intros Hok Hlt. unfold chunk_amount.
  pose proof (Z.mod_pos_bound (offset st) (frame_size st)
                (proj1 (ok_frame_size st Hok))). lia.
Qed.

Lemma below_start_aligned (fs ts pos : Z) :
  0 < fs -> ts mod fs = 0 -> 0 <= pos < ts -> pos + (fs - pos mod fs) <= ts.
Proof.
  intros Hfs Hal Hpos.
  pose proof (Z.div_mod ts fs ltac:(lia)) as Hts.
  pose proof (Z.div_mod pos fs ltac:(lia)) as Hp.
  pose proof (Z.mod_pos_bound pos fs Hfs) as Hr.
  rewrite Hal in Hts.
  assert (pos / fs < ts / fs) by nia.
  nia.
Qed.

Lemma read_chunk_amount (st : chdstream) (end_ : Z) :
  stream_ok st -> offset st < end_ <= track_end st ->
  (if wrap64 (end_ - offset st) <? wrap32 (frame_size st - wrap32 (offset st mod frame_size st))
   then wrap32 (wrap64 (end_ - offset st))
   else wrap32 (frame_size st - wrap32 (offset st mod frame_size st)))
  = chunk_amount st end_.
Proof.
  intros Hok Hend. pose proof Hok as [].
  pose proof (Z.mod_pos_bound (offset st) (frame_size st) ltac:(lia)) as Hr.
  unfold chunk_amount.
  rewrite (wrap32_small (offset st mod frame_size st)) by lia.
  rewrite (wrap32_small (frame_size st - _)) by lia.
  rewrite (wrap64_small (end_ - offset st)) by lia.
  destruct (Z.ltb_spec (end_ - offset st) (frame_size st - offset st mod frame_size st)).
  - rewrite wrap32_small by lia. lia.
  - lia.
Qed.

(** In the pregap a chunk is zero-filled without touching the cache and
    stays below [track_start]. *)
Lemma read_chunk_pregap (st : chdstream) (end_ : Z) :
  stream_ok st -> offset st < end_ <= track_end st ->
  offset st < track_start st ->
  read_chunk st end_ =
    Ret (set_offset st (offset st + chunk_amount st end_),
         repeat 0 (Z.to_nat (chunk_amount st end_)))
  /\ offset st + chunk_amount st end_ <= track_start st.
Proof.
  intros Hok Hend Hpre. pose proof Hok as [].
  pose proof (chunk_amount_pos st end_ Hok ltac:(lia)) as [Ha Hb].
  unfold read_chunk.
  destruct (Z.eqb_spec (frame_size st) 0); [lia |].
  rewrite read_chunk_amount by assumption.
  destruct (Z.ltb_spec (offset st) (track_start st)); [| lia].
  rewrite wrap64_small by lia. split; [reflexivity |].
  pose proof (below_start_aligned (frame_size st) (track_start st) (offset st)).
  unfold chunk_amount in *. lia.
Qed.

(** In the track data a chunk is copied from the hunk that holds its frame,
    within the bounds of the hunk buffer. *)
Lemma read_chunk_data (st : chdstream) (end_ : Z) :
  stream_ok st -> offset st < end_ <= track_end st ->
  track_start st <= offset st ->
  let ld := chdstream_load_hunk st (hunk_at st (offset st)) in
  let src := offset st mod frame_size st + hunk_offset_at st (offset st)
             + frame_offset st in
  read_chunk st end_ =
    (if fst ld
     then Ret (set_offset (snd ld) (offset st + chunk_amount st end_),
               firstn (Z.to_nat (chunk_amount st end_))
                 (skipn (Z.to_nat src) (hunkmem (snd ld))))
     else Aborted)
  /\ 0 <= src /\ src + chunk_amount st end_ <= hunkbytes (header (chd st)).
Proof.
  intros Hok Hend Hdat ld src. pose proof Hok as [].
  pose proof (chunk_amount_pos st end_ Hok ltac:(lia)) as [Ha Hb].
  pose proof (Z.mod_pos_bound (offset st) (frame_size st) ltac:(lia)) as Hr.
  pose proof (wrap32_range (track_frame st
                + (offset st - track_start st) / frame_size st)) as Hcf.
  fold (chd_frame_at st (offset st)) in Hcf.
  pose proof (Z.mod_pos_bound (chd_frame_at st (offset st)) (frames_per_hunk st)
                ltac:(lia)) as Hm.
  assert (Hho : 0 <= hunk_offset_at st (offset st)
                <= hunkbytes (header (chd st)) - unitbytes (header (chd st))).
  { unfold hunk_offset_at. split; [apply Z.mul_nonneg_nonneg; lia | nia]. }
  assert (Hsrc : 0 <= src /\ src + chunk_amount st end_ <= hunkbytes (header (chd st))).
  { unfold src. lia. }
  split; [| exact Hsrc].
  unfold read_chunk.
  destruct (Z.eqb_spec (frame_size st) 0); [lia |].
  rewrite read_chunk_amount by assumption.
  destruct (Z.ltb_spec (offset st) (track_start st)); [lia |].
  destruct (Z.eqb_spec (frames_per_hunk st) 0); [lia |].
  rewrite (wrap64_small (offset st - track_start st)) by lia.
  fold (chd_frame_at st (offset st)). fold (hunk_at st (offset st)).
  unfold chd_get_header. fold (hunk_offset_at st (offset st)).
  rewrite (wrap32_small (offset st mod frame_size st)) by lia.
  rewrite (wrap32_small (hunk_offset_at st (offset st))) by lia.
  fold ld.
  pose proof (load_hunk_geometry st (hunk_at st (offset st))) as [Hg Ho].
  pose proof (load_hunk_ok st (hunk_at st (offset st)) Hok) as Hok1.
  fold ld in Hg, Ho, Hok1.
  destruct ld as [b st1]; simpl in *.
  destruct b; [| reflexivity].
  destruct Hg as (Hc & _ & _ & Hfo & _).
  rewrite Hfo, Ho. fold src.
  pose proof (ok_hunkmem st1 Hok1) as Hlen. rewrite Hc in Hlen.
  destruct (Z.leb_spec (src + chunk_amount st end_)
              (Z.of_nat (List.length (hunkmem st1)))); [| lia].
  rewrite wrap64_small by lia. reflexivity.
Qed.

Lemma load_hunk_false (st : chdstream) (h : Z) :
  fst (chdstream_load_hunk st h) = false -> chd_read (chd st) h = None.
Proof.
  unfold chdstream_load_hunk.
  destruct (h =? wrap32 (hunknum st)); simpl; [discriminate |].
  destruct (chd_read (chd st) h); simpl; [discriminate | reflexivity].
Qed.

Lemma hunk_at_geometry (st st' : chdstream) (pos : Z) :
  same_geometry st st' -> hunk_at st' pos = hunk_at st pos.
Proof.
  intros (?&?&Hfs&?&Hfph&Htf&Hts&?).
  unfold hunk_at, chd_frame_at. now rewrite Hfs, Hfph, Htf, Hts.
Qed.

Lemma set_offset_twice (st : chdstream) (a b : Z) :
  set_offset (set_offset st a) b = set_offset st b.
Proof. reflexivity. Qed.

Lemma set_offset_same (st : chdstream) : set_offset st (offset st) = st.
Proof. destruct st; reflexivity. Qed.

(** ** The read loop *)

Lemma read_loop_post (fuel : nat) :
  forall (st : chdstream) (end_ : Z) (out : list Z),
    stream_ok st -> offset st <= end_ <= track_end st ->
    end_ - offset st <= Z.of_nat fuel ->
    read_post st end_ out (read_loop fuel st end_ out).
Proof.
  induction fuel as [| fuel IH]; intros st end_ out Hok Hend Hfuel.
  - simpl. destruct (Z.ltb_spec (offset st) end_); [lia |].
    exists []. rewrite app_nil_r. assert (end_ = offset st) as -> by lia.
    split_and; auto using same_geometry_refl; simpl; try lia.
    intros _. symmetry. apply set_offset_same.
  - simpl. destruct (Z.ltb_spec (offset st) end_) as [Hlt | Hge].
    2:{ exists []. rewrite app_nil_r. assert (end_ = offset st) as -> by lia.
        split_and; auto using same_geometry_refl; simpl; try lia.
        intros _. symmetry. apply set_offset_same. }
    pose proof (chunk_amount_pos st end_ Hok Hlt) as [Ha Hb].
    pose proof (ok_offset st Hok) as Hoff0.
    destruct (Z_lt_le_dec (offset st) (track_start st)) as [Hpre | Hdat].
    + (* pregap *)
      destruct (read_chunk_pregap st end_ Hok ltac:(lia) Hpre) as [-> Hbelow].
      simpl.
      set (st1 := set_offset st (offset st + chunk_amount st end_)).
      assert (Hok1 : stream_ok st1) by (apply stream_ok_set_offset; [assumption | lia]).
      specialize (IH st1 end_ (out ++ repeat 0 (Z.to_nat (chunk_amount st end_)))
                    Hok1 ltac:(simpl; lia) ltac:(simpl; lia)).
      destruct (read_loop fuel st1 end_ _) as [[st' out'] | | |]; simpl in *; auto.
      * destruct IH as (tail & -> & Hg & Hok' & Hoff & Hlen & Hz & Hsame).
        exists (repeat 0 (Z.to_nat (chunk_amount st end_)) ++ tail).
        rewrite app_assoc. split_and; auto.
        -- rewrite length_app, repeat_length. lia.
        -- intros j Hj Hjs.
           destruct (Z_lt_le_dec j (chunk_amount st end_)) as [Hin | Hout].
           ++ rewrite app_nth1 by (rewrite repeat_length; lia).
              apply nth_repeat.
           ++ rewrite app_nth2 by (rewrite repeat_length; lia).
              rewrite repeat_length.
              replace (Z.to_nat j - Z.to_nat (chunk_amount st end_))%nat
                with (Z.to_nat (j - chunk_amount st end_)) by lia.
              apply Hz; lia.
      * destruct IH as (pos & Hp & Hs & Hrd). exists pos. split_and; auto; lia.
    + (* track data *)
      destruct (read_chunk_data st end_ Hok ltac:(lia) Hdat) as (-> & Hsrc0 & Hsrc1).
      pose proof (load_hunk_geometry st (hunk_at st (offset st))) as [Hg1 Ho1].
      pose proof (load_hunk_ok st (hunk_at st (offset st)) Hok) as Hokl.
      pose proof (load_hunk_false st (hunk_at st (offset st))) as Hfalse.
      destruct (chdstream_load_hunk st (hunk_at st (offset st))) as [b stl].
      simpl in *. destruct b; simpl.
      2:{ exists (offset st). split_and; auto; lia. }
      set (src := offset st mod frame_size st + hunk_offset_at st (offset st)
                  + frame_offset st) in *.
      set (bytes := firstn (Z.to_nat (chunk_amount st end_))
                      (skipn (Z.to_nat src) (hunkmem stl))).
      set (st1 := set_offset stl (offset st + chunk_amount st end_)).
      assert (Hte : track_end stl = track_end st) by apply Hg1.
      assert (Hts : track_start stl = track_start st) by apply Hg1.
      assert (Hok1 : stream_ok st1)
        by (apply stream_ok_set_offset; [assumption | rewrite Hte; lia]).
      assert (Hg : same_geometry st st1)
        by (eapply same_geometry_trans; [exact Hg1 | apply same_geometry_set_offset]).
      assert (Hlenb : Z.of_nat (List.length bytes) = chunk_amount st end_).
      { unfold bytes. rewrite length_firstn, length_skipn.
        pose proof (ok_hunkmem stl Hokl) as Hl.
        replace (chd stl) with (chd st) in Hl by (symmetry; apply Hg1). lia. }
      specialize (IH st1 end_ (out ++ bytes) Hok1
                    ltac:(simpl; rewrite Hte; lia) ltac:(simpl; lia)).
      destruct (read_loop fuel st1 end_ _) as [[st' out'] | | |]; simpl in *; auto.
      * destruct IH as (tail & -> & Hg' & Hok' & Hoff & Hlen & Hz & Hsame).
        exists (bytes ++ tail).
        rewrite app_assoc.
        pose proof (same_geometry_trans _ _ _ Hg Hg') as Hgg.
        split_and; auto.
        -- rewrite length_app. lia.
        -- intros j Hj Hjs. lia.
        -- intros Hes. lia.
      * destruct IH as (pos & Hp & Hs & Hrd). exists pos.
        rewrite Hts in Hs.
        replace (chd stl) with (chd st) in Hrd by (symmetry; apply Hg1).
        rewrite (hunk_at_geometry st st1 pos Hg) in Hrd.
        split_and; auto; lia.
Qed.

(** ** Reading *)

(** The clamped byte count and the bounds of the loop, without wrap-around. *)
Lemma read_unfold (st : chdstream) (bytes : Z) :
  stream_ok st -> 0 <= bytes < 2 ^ 64 ->
  let n := Z.min bytes (track_end st - offset st) in
  chdstream_read st bytes =
    (r <- read_loop (Z.to_nat n) st (offset st + n) [] ;;
     Ret (to_ssize n, fst r, snd r)).
Proof.
  intros Hok Hb n. pose proof Hok as [].
  unfold chdstream_read.
  rewrite (wrap64_small (track_end st - offset st)) by lia.
  assert (Hn : (if track_end st - offset st <? bytes
                then track_end st - offset st else bytes) = n).
  { unfold n. destruct (Z.ltb_spec (track_end st - offset st) bytes); lia. }
  rewrite Hn. rewrite (wrap64_small (offset st + n)) by lia.
  reflexivity.
Qed.

(** A call of [chdstream_read] on a well-formed stream returns or stops in
    [abort()]; when it returns, the value is the clamped count and the loop
    guarantees of [read_post] hold. *)
Lemma read_post_call (st : chdstream) (bytes : Z) :
  stream_ok st -> 0 <= bytes < 2 ^ 64 ->
  let n := Z.min bytes (track_end st - offset st) in
  match chdstream_read st bytes with
  | Ret (r, st', out) =>
      r = to_ssize n /\ read_post st (offset st + n) [] (Ret (st', out))
  | Aborted => read_post st (offset st + n) [] Aborted
  | Undef | OutOfFuel => False
  end.
Proof.
  intros Hok Hb n. rewrite read_unfold by assumption. fold n.
  pose proof (ok_offset st Hok) as Ho.
  pose proof (read_loop_post (Z.to_nat n) st (offset st + n) [] Hok
                ltac:(lia) ltac:(lia)) as Hpost.
  destruct (read_loop (Z.to_nat n) st (offset st + n) []) as [[st' out] | | |];
    simpl in *; auto.
Qed.

(** ** Byte swapping *)

Lemma SWAP16_all_words :
  forallb (fun lo =>
    forallb (fun hi =>
      (Z.land (SWAP16 (lo + 256 * hi)) 255 =? hi)
      && (Z.shiftr (SWAP16 (lo + 256 * hi)) 8 =? lo))
      (map Z.of_nat (seq 0 256)))
    (map Z.of_nat (seq 0 256)) = true.
Proof. vm_compute. reflexivity. Qed.

Lemma byte_listed (b : Z) : 0 <= b < 256 -> In b (map Z.of_nat (seq 0 256)).
Proof.
  intros Hb. apply in_map_iff. exists (Z.to_nat b). split; [lia |].
  apply in_seq. lia.
Qed.

Lemma SWAP16_bytes (lo hi : Z) :
  0 <= lo < 256 -> 0 <= hi < 256 ->
  Z.land (SWAP16 (lo + 256 * hi)) 255 = hi /\
  Z.shiftr (SWAP16 (lo + 256 * hi)) 8 = lo.
Proof.
  intros Hlo Hhi.
  pose proof SWAP16_all_words as Hall.
  rewrite forallb_forall in Hall.
  specialize (Hall lo (byte_listed lo Hlo)).
  rewrite forallb_forall in Hall.
  specialize (Hall hi (byte_listed hi Hhi)).
  apply andb_prop in Hall as [H1 H2].
  apply Z.eqb_eq in H1, H2. auto.
Qed.

Lemma store16_swapped (mem : list Z) (i : Z) :
  0 <= nth (Z.to_nat (2 * i)) mem 0 < 256 ->
  0 <= nth (Z.to_nat (2 * i + 1)) mem 0 < 256 ->
  store16 mem i (SWAP16 (load16 mem i)) =
  upd (upd mem (Z.to_nat (2 * i)) (nth (Z.to_nat (2 * i + 1)) mem 0))
      (Z.to_nat (2 * i + 1)) (nth (Z.to_nat (2 * i)) mem 0).
Proof.
  intros Hlo Hhi. unfold store16, load16.
  destruct (SWAP16_bytes _ _ Hlo Hhi) as [-> ->]. reflexivity.
Qed.

(** After the loop over the words [i .. i+n-1], each of them has its two
    bytes exchanged and every other byte is as before. *)
Lemma swab_loop_nth (n : nat) :
  forall (i : Z) (mem : list Z),
    0 <= i -> 2 * (i + Z.of_nat n) <= Z.of_nat (List.length mem) ->
    (forall k : nat, 0 <= nth k mem 0 < 256) ->
    forall k : Z, 0 <= k ->
      nth (Z.to_nat k) (swab_loop n i mem) 0 =
      if (2 * i <=? k) && (k <? 2 * (i + Z.of_nat n))
      then if Z.even k then nth (Z.to_nat (k + 1)) mem 0
           else nth (Z.to_nat (k - 1)) mem 0
      else nth (Z.to_nat k) mem 0.
Proof.
  induction n as [| n IH]; intros i mem Hi Hlen Hbytes k Hk.
  - cbn [swab_loop]. change (Z.of_nat 0) with 0.
    destruct (Z.leb_spec (2 * i) k), (Z.ltb_spec k (2 * (i + 0))); simpl;
      try reflexivity; lia.
  - cbn [swab_loop]. rewrite store16_swapped by apply Hbytes.
    set (mem1 := upd (upd mem _ _) _ _).
    assert (Hlen1 : List.length mem1 = List.length mem)
      by (unfold mem1; now rewrite !upd_length).
    assert (Hn1 : forall j : nat,
               nth j mem1 0 =
               if Nat.eqb j (Z.to_nat (2 * i)) then nth (Z.to_nat (2 * i + 1)) mem 0
               else if Nat.eqb j (Z.to_nat (2 * i + 1)) then nth (Z.to_nat (2 * i)) mem 0
               else nth j mem 0).
    { intros j. unfold mem1.
      destruct (Nat.eqb_spec j (Z.to_nat (2 * i))) as [-> | Hne0].
      - rewrite upd_nth_other by lia. apply upd_nth_same. lia.
      - destruct (Nat.eqb_spec j (Z.to_nat (2 * i + 1))) as [-> | Hne1].
        + apply upd_nth_same. rewrite upd_length. lia.
        + rewrite !upd_nth_other by lia. reflexivity. }
    assert (Hbytes1 : forall j : nat, 0 <= nth j mem1 0 < 256).
    { intros j. rewrite Hn1.
      destruct (Nat.eqb j (Z.to_nat (2 * i))); [apply Hbytes |].
      destruct (Nat.eqb j (Z.to_nat (2 * i + 1))); apply Hbytes. }
    rewrite (IH (i + 1) mem1 ltac:(lia) ltac:(lia) Hbytes1 k Hk).
    rewrite !Hn1.
    assert (Hev : Z.even k = true -> exists q, k = 2 * q)
      by (intros He; apply Z.even_spec in He; destruct He as [q ->]; eauto).
    assert (Hod : Z.even k = false -> exists q, k = 2 * q + 1).
    { intros He. rewrite <- Z.negb_odd in He. apply negb_false_iff in He.
      apply Z.odd_spec in He. destruct He as [q ->]. eauto. }
    destruct (Z.even k) eqn:Hpar;
      [destruct (Hev eq_refl) as [q Hq] | destruct (Hod eq_refl) as [q Hq]];
      destruct (Z.leb_spec (2 * (i + 1)) k),
               (Z.ltb_spec k (2 * (i + 1 + Z.of_nat n))),
               (Z.leb_spec (2 * i) k),
               (Z.ltb_spec k (2 * (i + Z.of_nat (S n)))); cbn [andb]; try lia;
      repeat match goal with
             | |- context [Nat.eqb ?a ?b] => destruct (Nat.eqb_spec a b); try lia
             end;
      try reflexivity; f_equal; lia.
Qed.

Lemma fit_bytes (n : Z) (l : list Z) (k : nat) : 0 <= nth k (fit n l) 0 < 256.
Proof.
  unfold fit. rewrite nth_firstn.
  destruct (Nat.ltb k (Z.to_nat n)); [| lia].
  set (bytes := map (fun b => b mod 256) l ++ repeat 0 (Z.to_nat n)).
  assert (Hall : Forall (fun b => 0 <= b < 256) bytes).
  { apply Forall_app. split.
    - apply Forall_map. apply Forall_forall. intros x _.
      apply Z.mod_pos_bound. lia.
    - apply Forall_forall. intros x Hx. apply repeat_spec in Hx. lia. }
  destruct (Nat.lt_ge_cases k (List.length bytes)) as [Hlt | Hge].
  - rewrite Forall_forall in Hall. apply Hall. now apply nth_In.
  - rewrite nth_overflow by exact Hge. lia.
Qed.

(** ** Reads that stay in one hunk *)

Lemma hunk_at_range (st : chdstream) (pos : Z) :
  0 < frames_per_hunk st -> 0 <= hunk_at st pos < 2 ^ 32.
Proof.
  intros Hfph. unfold hunk_at.
  pose proof (wrap32_range (track_frame st + (pos - track_start st) / frame_size st)) as Hr.
  fold (chd_frame_at st pos) in Hr.
  split.
  - apply Z.div_pos; lia.
  - apply Z.le_lt_trans with (chd_frame_at st pos); [| lia].
    apply Z.div_le_upper_bound; nia.
Qed.

Lemma load_hunk_miss (st : chdstream) (h : Z) (mem : list Z) :
  h <> wrap32 (hunknum st) -> chd_read (chd st) h = Some mem ->
  chdstream_load_hunk st h =
    (true, set_hunk st (to_int32 h)
             (if swab st
              then swab_loop (Z.to_nat (hunkbytes (header (chd st)) / 2)) 0 mem
              else mem)
             (chd_reads st ++ [h])).
Proof.
  intros Hne Hrd. unfold chdstream_load_hunk.
  destruct (Z.eqb_spec h (wrap32 (hunknum st))); [contradiction |].
  rewrite Hrd. reflexivity.
Qed.

Lemma read_loop_in_hunk (h : Z) (fuel : nat) :
  forall (st : chdstream) (end_ : Z) (out : list Z),
    stream_ok st -> offset st <= end_ <= track_end st ->
    track_start st <= offset st ->
    end_ - offset st <= Z.of_nat fuel ->
    (forall pos, offset st <= pos < end_ -> hunk_at st pos = h) ->
    chd_read (chd st) h <> None ->
    exists st' out',
      read_loop fuel st end_ out = Ret (st', out') /\
      (offset st < end_ ->
       wrap32 (hunknum st') = h /\ chd_reads st' = chd_reads st ++ load_calls st h) /\
      (offset st = end_ -> st' = st).
Proof.
  induction fuel as [| fuel IH]; intros st end_ out Hok Hend Hdat Hfuel Hin Hrd.
  - simpl. destruct (Z.ltb_spec (offset st) end_); [lia |].
    exists st, out. split_and; auto. lia.
  - simpl. destruct (Z.ltb_spec (offset st) end_) as [Hlt | Hge].
    2:{ exists st, out. split_and; auto. lia. }
    pose proof (chunk_amount_pos st end_ Hok Hlt) as [Ha Hb].
    pose proof (ok_offset st Hok) as Hoff0.
    destruct (read_chunk_data st end_ Hok ltac:(lia) Hdat) as (-> & _ & _).
    rewrite (Hin (offset st)) by lia.
    pose proof (hunk_at_range st (offset st) (ok_frames_per_hunk st Hok)) as Hh.
    rewrite (Hin (offset st)) in Hh by lia.
    pose proof (load_hunk_geometry st h) as [Hg1 Ho1].
    pose proof (load_hunk_ok st h Hok) as Hokl.
    assert (Hld : fst (chdstream_load_hunk st h) = true /\
                  wrap32 (hunknum (snd (chdstream_load_hunk st h))) = h /\
                  chd_reads (snd (chdstream_load_hunk st h))
                  = chd_reads st ++ load_calls st h).
    { unfold load_calls.
      destruct (Z.eqb_spec h (wrap32 (hunknum st))) as [Heq | Hne].
      - rewrite load_hunk_hit by assumption. simpl. rewrite app_nil_r. auto.
      - destruct (chd_read (chd st) h) as [mem |] eqn:Hmem; [| contradiction].
        rewrite (load_hunk_miss st h mem Hne Hmem). simpl.
        rewrite wrap32_to_int32, wrap32_small by lia. auto. }
    destruct (chdstream_load_hunk st h) as [b stl]. simpl in *.
    destruct Hld as (-> & Hnum & Hlog). simpl.
    set (st1 := set_offset stl (offset st + chunk_amount st end_)).
    set (bytes := firstn _ _).
    assert (Hte : track_end stl = track_end st) by apply Hg1.
    assert (Hts : track_start stl = track_start st) by apply Hg1.
    assert (Hg : same_geometry st st1)
      by (eapply same_geometry_trans; [exact Hg1 | apply same_geometry_set_offset]).
    assert (Hok1 : stream_ok st1)
      by (apply stream_ok_set_offset; [assumption | rewrite Hte; lia]).
    destruct (IH st1 end_ (out ++ bytes) Hok1) as (st' & out' & Hrun & Hmore & Hstop).
    + simpl. rewrite Hte. lia.
    + simpl. rewrite Hts. lia.
    + simpl. lia.
    + intros pos Hpos. simpl in Hpos.
      rewrite (hunk_at_geometry st st1 pos Hg). apply Hin. lia.
    + replace (chd st1) with (chd st) by (symmetry; apply Hg). exact Hrd.
    + exists st', out'. split; [exact Hrun |]. split; [| lia].
      intros _.
      destruct (Z_lt_le_dec (offset st1) end_) as [Hl | Hg'].
      * destruct (Hmore Hl) as [Hn' Hl'].
        split; [exact Hn' |]. rewrite Hl'. simpl.
        unfold load_calls at 1. simpl. rewrite Hnum, Z.eqb_refl, app_nil_r.
        exact Hlog.
      * rewrite (Hstop ltac:(simpl in *; lia)). simpl. auto.
Qed.

(** ** Opening *)

Lemma get_meta_in_range (fd : chd_file) (i : Z) :
  meta_in_range (snd (chdstream_get_meta fd i)).
Proof.
  unfold chdstream_get_meta, meta_in_range.
  destruct (chd_get_metadata (cdrom2_meta fd) i);
    [| destruct (chd_get_metadata (cdrom_meta fd) i);
       [| destruct (chd_get_metadata (gdrom_meta fd) i)]];
    simpl; repeat split; try apply wrap32_range; lia.
Qed.

Lemma find_track_number_loop_in_range (fuel : nat) :
  forall fd track i fo b m,
    find_track_number_loop fuel fd track i fo = Ret (b, m) -> meta_in_range m.
Proof.
  induction fuel as [| fuel IH]; intros fd track i fo b m H; simpl in H.
  - discriminate.
  - pose proof (get_meta_in_range fd i) as Hr.
    destruct (chdstream_get_meta fd i) as [[|] meta]; simpl in Hr.
    + destruct (wrap32 track =? m_track meta).
      * inversion H; subst. exact Hr.
      * eapply IH; eauto.
    + inversion H; subst. exact Hr.
Qed.

Lemma find_track_number_in_range (fd : chd_file) (track : Z) b m :
  chdstream_find_track_number fd track = Ret (b, m) -> meta_in_range m.
Proof. apply find_track_number_loop_in_range. Qed.

Lemma find_special_track_loop_in_range (fuel : nat) :
  forall fd track i lt ls b m,
    find_special_track_loop fuel fd track i lt ls = Ret (b, m) -> meta_in_range m.
Proof.
  induction fuel as [| fuel IH]; intros fd track i lt ls b m H; simpl in H.
  - discriminate.
  - destruct (chdstream_find_track_number fd i) as [[found iter] | | |] eqn:Hf;
      simpl in H; try discriminate.
    pose proof (find_track_number_in_range _ _ _ _ Hf) as Hr.
    destruct (negb found && (track =? CHDSTREAM_TRACK_LAST) && (1 <? i)).
    { inversion H; subst. exact Hr. }
    destruct (negb found && (track =? CHDSTREAM_TRACK_PRIMARY) && negb (lt =? 0)).
    { eapply find_track_number_in_range; eauto. }
    destruct ((track =? CHDSTREAM_TRACK_FIRST_DATA) && negb (is_audio (m_type iter))).
    { inversion H; subst. exact Hr. }
    destruct (i =? INT32_MAX); [discriminate |].
    eapply IH; eauto.
Qed.

Lemma find_track_in_range (fuel : nat) fd track b m :
  chdstream_find_track fuel fd track = Ret (b, m) -> meta_in_range m.
Proof.
  unfold chdstream_find_track, chdstream_find_special_track.
  destruct (track <? 0).
  - apply find_special_track_loop_in_range.
  - apply find_track_number_in_range.
Qed.

(** What a successful [chdstream_open] has done. *)
Lemma open_inv (fuel : nat) (sys : storage) (path : string) (track : Z) (st : chdstream) :
  chdstream_open fuel sys path track = Ret (Some st) ->
  exists fd meta,
    chd_open sys path = Some fd /\
    chdstream_find_track fuel fd track = Ret (true, meta) /\
    unitbytes (header fd) <> 0 /\
    st = {| chd := fd;
            swab := String.eqb (m_type meta) "AUDIO"
                    && negb (String.eqb (m_type meta) "MODE1_RAW")
                    && negb (String.eqb (m_type meta) "MODE2_RAW");
            frame_size := frame_size_of (header fd) meta;
            frame_offset := 0;
            frames_per_hunk := hunkbytes (header fd) / unitbytes (header fd);
            track_frame := m_frame_offset meta;
            track_start := wrap64 (counted_pregap meta * frame_size_of (header fd) meta);
            track_end :=
              wrap64 (wrap64 (counted_pregap meta * frame_size_of (header fd) meta)
                      + wrap64 (m_frames meta * frame_size_of (header fd) meta));
            offset := 0; hunknum := -1;
            hunkmem := repeat 0 (Z.to_nat (hunkbytes (header fd)));
            chd_reads := [] |}.
Proof.
  unfold chdstream_open. intros H.
  destruct (chd_open sys path) as [fd |]; [| discriminate].
  destruct (chdstream_find_track fuel fd track) as [[found meta] | | |] eqn:Hfind;
    simpl in H; try discriminate.
  destruct found; simpl in H; [| discriminate].
  destruct (calloc_ok sys); simpl in H; [| discriminate].
  destruct (malloc_ok sys (hunkbytes (chd_get_header fd))); simpl in H; [| discriminate].
  unfold chd_get_header in H.
  destruct (Z.eqb_spec (unitbytes (header fd)) 0); [discriminate |].
  exists fd, meta. split_and; auto.
  inversion H as [Hst]. unfold frame_size_of, counted_pregap.
  destruct (String.eqb (m_type meta) "MODE1_RAW");
    destruct (String.eqb (m_type meta) "MODE2_RAW");
    destruct (String.eqb (m_type meta) "AUDIO"); reflexivity.
Qed.

Lemma counted_pregap_range (m : metadata_t) :
  meta_in_range m -> 0 <= counted_pregap m < 2 ^ 32.
Proof.
  intros [_ Hp]. unfold counted_pregap.
  destruct (String.eqb (m_type m) (m_pgtype m)); lia.
Qed.

Lemma frame_size_of_cases (hd : chd_header) (m : metadata_t) :
  frame_size_of hd m = SECTOR_SIZE \/ frame_size_of hd m = unitbytes hd.
Proof.
  unfold frame_size_of.
  destruct (String.eqb (m_type m) "MODE1_RAW"); auto.
  destruct (String.eqb (m_type m) "MODE2_RAW"); auto.
  destruct (String.eqb (m_type m) "AUDIO"); auto.
Qed.

(** Under the header conditions a freshly opened stream is well formed. *)
Lemma open_stream_ok (fuel : nat) (sys : storage) (path : string) (track : Z)
    (st : chdstream) :
  chdstream_open fuel sys path track = Ret (Some st) ->
  0 < unitbytes (header (chd st)) ->
  unitbytes (header (chd st)) <= hunkbytes (header (chd st)) < 2 ^ 32 ->
  frame_size st <= unitbytes (header (chd st)) ->
  stream_ok st.
Proof.
  intros Hopen Hub Hhb Hfs.
  destruct (open_inv _ _ _ _ _ Hopen) as (fd & meta & _ & Hfind & _ & ->).
  simpl in *.
  pose proof (counted_pregap_range meta (find_track_in_range _ _ _ _ _ Hfind)) as Hpg.
  assert (Hfs0 : 0 < frame_size_of (header fd) meta)
    by (destruct (frame_size_of_cases (header fd) meta) as [-> | ->];
        unfold SECTOR_SIZE; lia).
  constructor; simpl; try lia.
  - apply Z.div_str_pos. lia.
  - rewrite Z.mul_comm. apply Z.mul_div_le. lia.
  - rewrite repeat_length. lia.
  - apply wrap64_range.
  - rewrite wrap64_small by nia. apply Z.mod_mul. lia.
  - split; [lia | apply wrap64_range].
  - apply wrap64_range.
Qed.

(** ** Calls keep a stream well formed *)

Lemma read_keeps_ok (st : chdstream) (bytes : Z) r st' out :
  stream_ok st -> 0 <= bytes < 2 ^ 64 ->
  chdstream_read st bytes = Ret (r, st', out) ->
  stream_ok st' /\ same_geometry st st'.
Proof.
  intros Hok Hb Hrd.
  pose proof (read_post_call st bytes Hok Hb) as Hpost. simpl in Hpost.
  rewrite Hrd in Hpost.
  destruct Hpost as (_ & tail & _ & Hg & Hok' & _). auto.
Qed.

Lemma getc_keeps_ok (st : chdstream) c st' :
  stream_ok st -> chdstream_getc st = Ret (c, st') ->
  stream_ok st' /\ same_geometry st st'.
Proof.
  intros Hok H. unfold chdstream_getc in H.
  destruct (chdstream_read st _) as [[[n st1] out] | | |] eqn:Hrd;
    simpl in H; try discriminate.
  apply read_keeps_ok in Hrd; [| assumption | simpl; lia].
  destruct (negb (n =? 0)); inversion H; subst; exact Hrd.
Qed.

Lemma gets_loop_keeps_ok (fuel : nat) :
  forall st len off buffer st' off' buffer',
    stream_ok st ->
    gets_loop chdstream_getc fuel st len off buffer = Ret (st', off', buffer') ->
    stream_ok st' /\ same_geometry st st'.
Proof.
  induction fuel as [| fuel IH]; intros st len off buffer st' off' buffer' Hok H;
    simpl in H.
  - destruct (off <? len); [discriminate |].
    inversion H; subst. auto using same_geometry_refl.
  - destruct (off <? len).
    2:{ inversion H; subst. auto using same_geometry_refl. }
    destruct (chdstream_getc st) as [[c st1] | | |] eqn:Hc; simpl in H; try discriminate.
    destruct (getc_keeps_ok _ _ _ Hok Hc) as [Hok1 Hg1].
    destruct (c =? EOF).
    + inversion H; subst. auto.
    + destruct (IH _ _ _ _ _ _ _ Hok1 H) as [Hok' Hg']. split; [exact Hok' |].
      eapply same_geometry_trans; eauto.
Qed.

Lemma gets_keeps_ok (st : chdstream) (len : Z) out st' :
  stream_ok st -> chdstream_gets st len = Ret (out, st') ->
  stream_ok st' /\ same_geometry st st'.
Proof.
  intros Hok H. unfold chdstream_gets, gets_with in H.
  destruct (gets_loop chdstream_getc (Z.to_nat len) st len 0 [])
    as [[[st1 off] buffer] | | |] eqn:Hl; simpl in H; try discriminate.
  inversion H; subst. eapply gets_loop_keeps_ok; eauto.
Qed.

Lemma wrap64_to_ssize (x : Z) : wrap64 (to_ssize x) = wrap64 x.
Proof.
  unfold to_ssize. pose proof (wrap64_range x) as H.
  destruct (Z.ltb_spec (wrap64 x) (2 ^ 63)).
  - apply wrap64_small. exact H.
  - unfold wrap64 in *.
    replace (x mod 2 ^ 64 - 2 ^ 64) with (x mod 2 ^ 64 + (-1) * 2 ^ 64) by lia.
    rewrite Z.mod_add by lia. apply Z.mod_mod. lia.
Qed.

Lemma seek_keeps_ok (st : chdstream) (off whence : Z) :
  stream_ok st ->
  stream_ok (snd (chdstream_seek st off whence)) /\
  same_geometry st (snd (chdstream_seek st off whence)).
Proof.
  intros Hok. pose proof (ok_offset st Hok) as Ho.
  pose proof (ok_track_end st Hok) as Hte.
  unfold chdstream_seek.
  destruct (if whence =? SEEK_SET then Some off
            else if whence =? SEEK_CUR then Some (to_ssize (offset st + off))
            else if whence =? SEEK_END then Some (to_ssize (track_end st + off))
            else None) as [c |]; simpl; [| auto using same_geometry_refl].
  destruct (Z.ltb_spec c 0); simpl; [auto using same_geometry_refl |].
  split; [| apply same_geometry_set_offset].
  apply stream_ok_set_offset; [assumption |].
  destruct (Z.ltb_spec (track_end st) c).
  - rewrite wrap64_to_ssize, wrap64_small by lia. lia.
  - rewrite wrap64_small by lia. lia.
Qed.

Lemma step_keeps_ok (st st' : chdstream) :
  step st st' -> stream_ok st -> stream_ok st' /\ same_geometry st st'.
Proof.
  intros Hstep Hok. destruct Hstep.
  - eapply read_keeps_ok; eauto.
  - eapply getc_keeps_ok; eauto.
  - eapply gets_keeps_ok; eauto.
  - now apply seek_keeps_ok.
  - unfold chdstream_rewind. split; [| apply same_geometry_set_offset].
    apply stream_ok_set_offset; [assumption |].
    pose proof (ok_offset st Hok). lia.
Qed.

Lemma reachable_keeps_ok (st0 st : chdstream) :
  reachable st0 st -> stream_ok st0 -> stream_ok st /\ same_geometry st0 st.
Proof.
  intros Hreach Hok. induction Hreach as [| st st' _ IH Hstep].
  - auto using same_geometry_refl.
  - destruct IH as [Hok1 Hg1].
    destruct (step_keeps_ok _ _ Hstep Hok1) as [Hok2 Hg2].
    split; [exact Hok2 | eapply same_geometry_trans; eauto].
Qed.

(** ** The lookup by number returns *)

(** The scan ends at the latest at the first index past every record list. *)
Lemma get_meta_exhausted (fd : chd_file) (i : Z) :
  Z.of_nat (meta_count fd) <= i -> chdstream_get_meta fd i = (false, metadata_zero).
Proof.
  intros Hi. unfold meta_count in Hi.
  assert (Hnone : forall l : list track_text,
             Z.of_nat (List.length l) <= i -> chd_get_metadata l i = None).
  { intros l Hl. unfold chd_get_metadata.
    destruct (Z.ltb_spec i 0); [reflexivity |].
    apply nth_error_None. lia. }
  unfold chdstream_get_meta.
  rewrite !Hnone by lia. reflexivity.
Qed.

Lemma find_track_number_loop_returns (fuel : nat) :
  forall fd track i fo,
    0 <= i -> Z.max 0 (Z.of_nat (meta_count fd) - i) < Z.of_nat fuel ->
    exists b m, find_track_number_loop fuel fd track i fo = Ret (b, m).
Proof.
  induction fuel as [| fuel IH]; intros fd track i fo Hi Hfuel; simpl.
  - lia.
  - destruct (chdstream_get_meta fd i) as [[|] meta] eqn:Hg; [| eauto].
    destruct (wrap32 track =? m_track meta); [eauto |].
    destruct (Z_le_gt_dec (Z.of_nat (meta_count fd)) i) as [Hle | Hgt].
    + rewrite (get_meta_exhausted fd i Hle) in Hg. discriminate.
    + apply IH; lia.
Qed.

Lemma find_track_number_returns (fd : chd_file) (track : Z) :
  exists b m, chdstream_find_track_number fd track = Ret (b, m).
Proof.
  apply find_track_number_loop_returns; lia.
Qed.

(** * Further lemmas *)

(** ** Padding, lookup by number and the frame where a track starts *)

Lemma land_clear_low2 (x : Z) : 0 <= x < 2 ^ 32 -> Z.land x 4294967292 = 4 * (x / 4).
Proof.
  intros Hx. apply Z.bits_inj'. intros n Hn.
  rewrite Z.land_spec.
  replace (4 * (x / 4)) with (Z.shiftl (Z.shiftr x 2) 2)
    by (rewrite Z.shiftl_mul_pow2, Z.shiftr_div_pow2 by lia; change (2 ^ 2) with 4; lia).
  change 4294967292 with (Z.shiftl (Z.ones 30) 2).
  destruct (Z_lt_le_dec n 2) as [Hlow | Hhigh].
  - rewrite !Z.shiftl_spec_low by lia. apply andb_false_r.
  - rewrite !Z.shiftl_spec by lia. rewrite Z.shiftr_spec by lia.
    replace (n - 2 + 2) with n by lia.
    destruct (Z_lt_le_dec n 32) as [Hin | Hout].
    + rewrite Z.ones_spec_low by lia. apply andb_true_r.
    + rewrite Z.ones_spec_high by lia. rewrite andb_false_r.
      symmetry. apply Z.bits_above_log2; [lia |].
      destruct (Z.eq_dec x 0) as [-> | Hnz]; [simpl; lia |].
      apply Z.lt_le_trans with 32; [| lia].
      apply Z.log2_lt_pow2; lia.
Qed.

Lemma padding_frames_value (frames : Z) :
  0 <= frames < 2 ^ 32 -> padding_frames frames = (- frames) mod 4.
Proof.
  intros Hf. unfold padding_frames, TRACK_PAD.
  change (wrap32 (Z.lnot (4 - 1))) with 4294967292.
  replace (frames + 4 - 1) with (frames + 3) by lia.
  pose proof (wrap32_range (frames + 3)) as Hr.
  rewrite land_clear_low2 by exact Hr.
  destruct (Z_lt_le_dec (frames + 3) (2 ^ 32)) as [Hs | Hw].
  - rewrite (wrap32_small (frames + 3)) by lia.
    rewrite wrap32_small by (Z.div_mod_to_equations; lia).
    Z.div_mod_to_equations; lia.
  - assert (Hx : wrap32 (frames + 3) = frames + 3 - 2 ^ 32).
    { unfold wrap32. symmetry. apply Z.mod_unique with (q := 1); lia. }
    rewrite Hx.
    replace ((frames + 3 - 2 ^ 32) / 4) with 0 by (Z.div_mod_to_equations; lia).
    unfold wrap32.
    replace ((4 * 0 - frames) mod 2 ^ 32) with (2 ^ 32 - frames)
      by (apply Z.mod_unique with (q := -1); lia).
    Z.div_mod_to_equations; lia.
Qed.

Lemma chd_get_metadata_some (l : list track_text) (k : nat) :
  (k < List.length l)%nat -> exists t, chd_get_metadata l (Z.of_nat k) = Some t.
Proof.
  intros Hk. unfold chd_get_metadata.
  destruct (Z.ltb_spec (Z.of_nat k) 0); [lia |].
  rewrite Nat2Z.id.
  destruct (nth_error l k) eqn:Hn; [eauto |].
  apply nth_error_None in Hn. lia.
Qed.

(** Below [meta_count] some tag supplies the record. *)
Lemma get_meta_found (fd : chd_file) (k : nat) :
  (k < meta_count fd)%nat -> fst (chdstream_get_meta fd (Z.of_nat k)) = true.
Proof.
  intros Hk. unfold meta_count in Hk. unfold chdstream_get_meta.
  destruct (chd_get_metadata (cdrom2_meta fd) (Z.of_nat k)) eqn:H2; [reflexivity |].
  destruct (chd_get_metadata (cdrom_meta fd) (Z.of_nat k)) eqn:H1; [reflexivity |].
  destruct (chd_get_metadata (gdrom_meta fd) (Z.of_nat k)) eqn:H0; [reflexivity |].
  exfalso.
  destruct (Nat.lt_ge_cases k (List.length (cdrom2_meta fd))) as [Ha | Ha].
  { destruct (chd_get_metadata_some _ _ Ha) as [t Ht]. congruence. }
  destruct (Nat.lt_ge_cases k (List.length (cdrom_meta fd))) as [Hb | Hb].
  { destruct (chd_get_metadata_some _ _ Hb) as [t Ht]. congruence. }
  destruct (Nat.lt_ge_cases k (List.length (gdrom_meta fd))) as [Hc | Hc].
  { destruct (chd_get_metadata_some _ _ Hc) as [t Ht]. congruence. }
  lia.
Qed.

Lemma scanned_length (fd : chd_file) : List.length (scanned fd) = meta_count fd.
Proof. unfold scanned. now rewrite length_map, length_seq. Qed.

Lemma scanned_nth (fd : chd_file) (k : nat) :
  (k < meta_count fd)%nat ->
  chdstream_get_meta fd (Z.of_nat k) = (true, nth k (scanned fd) metadata_zero).
Proof.
  intros Hk. pose proof (get_meta_found fd k Hk) as Hf.
  unfold scanned.
  rewrite nth_indep with (d' := snd (chdstream_get_meta fd (Z.of_nat 0)))
    by (rewrite length_map, length_seq; exact Hk).
  rewrite (map_nth (fun i => snd (chdstream_get_meta fd (Z.of_nat i)))).
  rewrite seq_nth by exact Hk. simpl.
  destruct (chdstream_get_meta fd (Z.of_nat k)) as [b m]. simpl in *. now subst.
Qed.

Lemma frames_of_app (l : list metadata_t) (m : metadata_t) :
  frames_of (l ++ [m]) = frames_of l + (m_frames m + m_extra m).
Proof.
  unfold frames_of. induction l as [| a l IH]; simpl; lia.
Qed.

Lemma firstn_snoc_nth (l : list metadata_t) (k : nat) :
  (k < List.length l)%nat ->
  firstn (S k) l = firstn k l ++ [nth k l metadata_zero].
Proof.
  revert k. induction l as [| a l IH]; intros k Hk; simpl in Hk; [lia |].
  destruct k as [| k]; [reflexivity |].
  cbn [firstn nth app]. f_equal. apply IH. lia.
Qed.

Lemma split_at_nth (l : list metadata_t) (k : nat) :
  (k < List.length l)%nat ->
  l = firstn k l ++ nth k l metadata_zero :: skipn (S k) l.
Proof.
  revert k. induction l as [| a l IH]; intros k Hk; simpl in Hk; [lia |].
  destruct k as [| k]; [reflexivity |].
  cbn [firstn nth skipn app]. f_equal. apply IH. lia.
Qed.

Lemma find_track_number_loop_post (fd : chd_file) (track : Z) (fuel : nat) :
  forall (k : nat) (fo : Z),
    (k <= meta_count fd)%nat -> (meta_count fd - k < fuel)%nat ->
    fo = wrap32 (frames_of (firstn k (scanned fd))) ->
    (forall p, In p (firstn k (scanned fd)) -> m_track p <> wrap32 track) ->
    lookup_post fd track (find_track_number_loop fuel fd track (Z.of_nat k) fo).
Proof.
  induction fuel as [| fuel IH]; intros k fo Hk Hfuel Hfo Hpre; [lia |].
  cbn [find_track_number_loop].
  destruct (Nat.eq_dec k (meta_count fd)) as [Hend | Hin].
  - rewrite get_meta_exhausted by lia. simpl. split; [reflexivity |].
    intros p Hp. apply Hpre. rewrite firstn_all2; [exact Hp |].
    rewrite scanned_length. lia.
  - rewrite scanned_nth by lia.
    set (mk := nth k (scanned fd) metadata_zero).
    destruct (Z.eqb_spec (wrap32 track) (m_track mk)) as [Heq | Hne].
    + simpl. exists (firstn k (scanned fd)), mk, (skipn (S k) (scanned fd)).
      split; [apply split_at_nth; rewrite scanned_length; lia |].
      split; [exact Hpre |]. split; [now symmetry |]. now rewrite Hfo.
    + replace (Z.of_nat k + 1) with (Z.of_nat (S k)) by lia.
      apply IH; try lia.
      * rewrite firstn_snoc_nth by (rewrite scanned_length; lia).
        fold mk. rewrite frames_of_app, Hfo. unfold wrap32.
        rewrite <- Z.add_assoc, Z.add_mod_idemp_l by lia. reflexivity.
      * intros p Hp.
        rewrite firstn_snoc_nth in Hp by (rewrite scanned_length; lia).
        apply in_app_or in Hp as [Hp | [<- | []]]; [now apply Hpre |].
        fold mk. congruence.
Qed.

Lemma find_track_number_post (fd : chd_file) (track : Z) :
  lookup_post fd track (chdstream_find_track_number fd track).
Proof.
  exact (find_track_number_loop_post fd track (S (meta_count fd)) 0 0
           ltac:(lia) ltac:(lia) eq_refl ltac:(intros p [])).
Qed.

Lemma scanned_padded (fd : chd_file) (p : metadata_t) :
  In p (scanned fd) -> (m_frames p + m_extra p) mod 4 = 0.
Proof.
  unfold scanned. intros Hp. apply in_map_iff in Hp as (i & <- & _).
  assert (H : forall t,
             (wrap32 (t_frames t) + padding_frames (wrap32 (t_frames t))) mod 4 = 0).
  { intros t. rewrite padding_frames_value by apply wrap32_range.
    pose proof (wrap32_range (t_frames t)). Z.div_mod_to_equations; lia. }
  unfold chdstream_get_meta.
  destruct (chd_get_metadata (cdrom2_meta fd) (Z.of_nat i)); [apply H |].
  destruct (chd_get_metadata (cdrom_meta fd) (Z.of_nat i)); [apply H |].
  destruct (chd_get_metadata (gdrom_meta fd) (Z.of_nat i)); [apply H |].
  reflexivity.
Qed.

Lemma frames_of_aligned (l : list metadata_t) :
  (forall p, In p l -> (m_frames p + m_extra p) mod 4 = 0) ->
  frames_of l mod 4 = 0.
Proof.
  induction l as [| a l IH]; intros Hall; simpl; [reflexivity |].
  pose proof (Hall a (or_introl eq_refl)) as Ha.
  pose proof (IH (fun p Hp => Hall p (or_intror Hp))) as Hl.
  Z.div_mod_to_equations; lia.
Qed.

Lemma wrap32_aligned (x : Z) : x mod 4 = 0 -> wrap32 x mod 4 = 0.
Proof. unfold wrap32. intros H. Z.div_mod_to_equations; lia. Qed.

Lemma find_track_number_aligned (fd : chd_file) (track : Z) b m :
  chdstream_find_track_number fd track = Ret (b, m) -> m_frame_offset m mod 4 = 0.
Proof.
  intros H. pose proof (find_track_number_post fd track) as Hpost.
  rewrite H in Hpost. simpl in Hpost. destruct b.
  - destruct Hpost as (pre & m0 & post & Hsplit & _ & _ & ->). simpl.
    apply wrap32_aligned, frames_of_aligned.
    intros p Hp. apply (scanned_padded fd). rewrite Hsplit.
    apply in_or_app. now left.
  - destruct Hpost as [-> _]. reflexivity.
Qed.

Lemma find_special_track_loop_aligned (fuel : nat) :
  forall fd track i lt ls b m,
    find_special_track_loop fuel fd track i lt ls = Ret (b, m) ->
    m_frame_offset m mod 4 = 0.
Proof.
  induction fuel as [| fuel IH]; intros fd track i lt ls b m H; simpl in H.
  - discriminate.
  - destruct (chdstream_find_track_number fd i) as [[found iter] | | |] eqn:Hf;
      simpl in H; try discriminate.
    pose proof (find_track_number_aligned _ _ _ _ Hf) as Hr.
    destruct (negb found && (track =? CHDSTREAM_TRACK_LAST) && (1 <? i)).
    { inversion H; subst. exact Hr. }
    destruct (negb found && (track =? CHDSTREAM_TRACK_PRIMARY) && negb (lt =? 0)).
    { eapply find_track_number_aligned; eauto. }
    destruct ((track =? CHDSTREAM_TRACK_FIRST_DATA) && negb (is_audio (m_type iter))).
    { inversion H; subst. exact Hr. }
    destruct (i =? INT32_MAX); [discriminate |].
    eapply IH; eauto.
Qed.

(** ** The bytes of a track *)

Lemma hunk_image_geometry (st st' : chdstream) (h : Z) :
  same_geometry st st' -> hunk_image st' h = hunk_image st h.
Proof.
  intros (Hc & Hs & _). unfold hunk_image. now rewrite Hc, Hs.
Qed.

Lemma stream_byte_geometry (st st' : chdstream) (pos : Z) :
  same_geometry st st' -> stream_byte st' pos = stream_byte st pos.
Proof.
  intros Hg. unfold stream_byte.
  rewrite (hunk_image_geometry st st' _ Hg), (hunk_at_geometry st st' pos Hg).
  destruct Hg as (Hc & _ & Hfs & Hfo & Hfph & Htf & Hts & _).
  unfold hunk_offset_at, chd_frame_at.
  now rewrite Hc, Hfs, Hfo, Hfph, Htf, Hts.
Qed.

(** Within the rest of a frame the hunk, the place of the frame and the
    offset in the frame move as expected. *)
Lemma same_frame (st : chdstream) (pos j : Z) :
  stream_ok st -> track_start st <= pos ->
  0 <= j < frame_size st - pos mod frame_size st ->
  hunk_at st (pos + j) = hunk_at st pos /\
  hunk_offset_at st (pos + j) = hunk_offset_at st pos /\
  (pos + j) mod frame_size st = pos mod frame_size st + j.
Proof.
  intros Hok Hpos Hj. pose proof Hok as [].
  set (fs := frame_size st) in *. set (ts := track_start st) in *.
  pose proof (Z.mod_pos_bound pos fs ltac:(lia)) as Hr.
  assert (Hmod : (pos + j) mod fs = pos mod fs + j).
  { symmetry. apply Z.mod_unique with (q := pos / fs); [lia |].
    pose proof (Z.div_mod pos fs ltac:(lia)). lia. }
  assert (Hdiv : (pos + j - ts) / fs = (pos - ts) / fs).
  { assert (Hts : ts = fs * (ts / fs))
      by (pose proof (Z.div_mod ts fs ltac:(lia)); lia).
    assert (Hq : (pos - ts) / fs = pos / fs - ts / fs).
    { symmetry. apply Z.div_unique with (r := pos mod fs); [lia |].
      pose proof (Z.div_mod pos fs ltac:(lia)). lia. }
    rewrite Hq. symmetry.
    apply Z.div_unique with (r := pos mod fs + j); [lia |].
    pose proof (Z.div_mod pos fs ltac:(lia)). lia. }
  unfold hunk_at, hunk_offset_at, chd_frame_at. fold fs ts.
  rewrite Hdiv. auto.
Qed.

(** ** A cache that serves the reads *)

(** The first hunk of an opened track is not the one that the empty cache
    stands for: the track starts on a multiple of 4 frames. *)
Lemma first_hunk_not_sentinel
    (fuel : nat) (sys : storage) (path : string) (track : Z) (st : chdstream) :
  chdstream_open fuel sys path track = Ret (Some st) ->
  0 < frame_size st -> 0 < frames_per_hunk st ->
  hunk_at st (track_start st) <> SENTINEL_HUNK.
Proof.
  intros Hopen Hfs Hfph.
  assert (Hal : track_frame st mod 4 = 0).
  { destruct (open_inv _ _ _ _ _ Hopen) as (fd & meta & _ & Hfind & _ & ->).
    simpl. unfold chdstream_find_track, chdstream_find_special_track in Hfind.
    destruct (track <? 0).
    - eapply find_special_track_loop_aligned; eauto.
    - eapply find_track_number_aligned; eauto. }
  unfold hunk_at, chd_frame_at, SENTINEL_HUNK.
  rewrite Z.sub_diag, Z.div_0_l, Z.add_0_r by lia.
  pose proof (wrap32_aligned _ Hal) as Hw.
  pose proof (wrap32_range (track_frame st)) as Hr.
  assert (Hle : wrap32 (track_frame st) <= 4294967292)
    by (Z.div_mod_to_equations; lia).
  assert (Hq : wrap32 (track_frame st) / frames_per_hunk st <= wrap32 (track_frame st)).
  { apply Z.div_le_upper_bound; [lia |]. nia. }
  lia.
Qed.

(** A load that succeeds leaves the image of the hunk in the buffer,
    provided the cache was loaded, or was empty and the hunk is not the one
    that the empty mark stands for. *)
Lemma load_hunk_loaded (st : chdstream) (h : Z) :
  0 <= h < 2 ^ 32 ->
  cache_loaded st \/ (hunknum st = -1 /\ h <> SENTINEL_HUNK) ->
  fst (chdstream_load_hunk st h) = true ->
  cache_loaded (snd (chdstream_load_hunk st h)) /\
  hunk_image st h = Some (hunkmem (snd (chdstream_load_hunk st h))).
Proof.
  intros Hh Hc. unfold chdstream_load_hunk.
  destruct (Z.eqb_spec h (wrap32 (hunknum st))) as [Hhit | Hmiss].
  - simpl. intros _. destruct Hc as [Hl | [Hempty Hns]].
    + split; [exact Hl |]. rewrite Hhit. exact Hl.
    + rewrite Hempty in Hhit. exfalso. apply Hns. exact Hhit.
  - destruct (chd_read (chd st) h) as [mem |] eqn:Hrd; simpl; [| discriminate].
    intros _.
    assert (Himg : hunk_image st h
                   = Some (if swab st
                           then swab_loop
                                  (Z.to_nat (hunkbytes (chd_get_header (chd st)) / 2))
                                  0 mem
                           else mem))
      by (unfold hunk_image; rewrite Hrd; reflexivity).
    split; [| exact Himg].
    unfold cache_loaded. simpl. rewrite wrap32_to_int32, wrap32_small by lia.
    unfold hunk_image in *. simpl. exact Himg.
Qed.

(** The bytes of a run of the loop, for a cache that serves the reads. *)
Lemma read_loop_sound (fuel : nat) :
  forall (st : chdstream) (end_ : Z) (out : list Z) st' out',
    stream_ok st -> cache_sound st -> offset st <= end_ <= track_end st ->
    read_loop fuel st end_ out = Ret (st', out') ->
    exists tail,
      out' = out ++ tail /\ cache_sound st' /\
      forall j, 0 <= j < Z.of_nat (List.length tail) ->
                nth (Z.to_nat j) tail 0 = stream_byte st (offset st + j).
Proof.
  induction fuel as [| fuel IH]; intros st end_ out st' out' Hok Hc Hend Hrun;
    simpl in Hrun.
  - destruct (offset st <? end_); [discriminate |].
    inversion Hrun; subst. exists []. rewrite app_nil_r.
    split_and; auto. intros j Hj. simpl in Hj. lia.
  - destruct (Z.ltb_spec (offset st) end_) as [Hlt | Hge].
    2:{ inversion Hrun; subst. exists []. rewrite app_nil_r.
        split_and; auto. intros j Hj. simpl in Hj. lia. }
    pose proof (chunk_amount_pos st end_ Hok Hlt) as [Ha Hb].
    pose proof (ok_offset st Hok) as Hoff0.
    destruct (Z_lt_le_dec (offset st) (track_start st)) as [Hpre | Hdat].
    + (* pregap *)
      destruct (read_chunk_pregap st end_ Hok ltac:(lia) Hpre) as [Hchunk Hbelow].
      rewrite Hchunk in Hrun. simpl in Hrun.
      set (st1 := set_offset st (offset st + chunk_amount st end_)) in *.
      assert (Hok1 : stream_ok st1) by (apply stream_ok_set_offset; [assumption | lia]).
      assert (Hc1 : cache_sound st1).
      { destruct Hc as [Hl | [Hempty Hns]]; [left; exact Hl | right].
        split; [exact Hempty |].
        rewrite Z.max_r in Hns by lia.
        unfold st1. simpl. rewrite Z.max_r by lia. exact Hns. }
      destruct (IH st1 end_ _ st' out' Hok1 Hc1 ltac:(simpl; lia) Hrun)
        as (tail & -> & Hc' & Hbytes).
      exists (repeat 0 (Z.to_nat (chunk_amount st end_)) ++ tail).
      rewrite app_assoc. split_and; auto.
      intros j Hj. rewrite length_app, repeat_length in Hj.
      destruct (Z_lt_le_dec j (chunk_amount st end_)) as [Hin | Hout].
      * rewrite app_nth1 by (rewrite repeat_length; lia).
        rewrite nth_repeat. unfold stream_byte.
        destruct (Z.ltb_spec (offset st + j) (track_start st)); [reflexivity | lia].
      * rewrite app_nth2 by (rewrite repeat_length; lia).
        rewrite repeat_length.
        replace (Z.to_nat j - Z.to_nat (chunk_amount st end_))%nat
          with (Z.to_nat (j - chunk_amount st end_)) by lia.
        rewrite Hbytes by lia.
        rewrite (stream_byte_geometry st st1) by apply same_geometry_set_offset.
        f_equal. simpl. lia.
    + (* track data *)
      destruct (read_chunk_data st end_ Hok ltac:(lia) Hdat) as (Hchunk & Hsrc0 & Hsrc1).
      rewrite Hchunk in Hrun. clear Hchunk.
      pose proof (hunk_at_range st (offset st) (ok_frames_per_hunk st Hok)) as Hh.
      pose proof (load_hunk_geometry st (hunk_at st (offset st))) as [Hg1 Ho1].
      pose proof (load_hunk_ok st (hunk_at st (offset st)) Hok) as Hokl.
      assert (Hc0 : cache_loaded st \/
                    (hunknum st = -1 /\ hunk_at st (offset st) <> SENTINEL_HUNK)).
      { destruct Hc as [Hl | [Hempty Hns]]; [left; exact Hl | right].
        rewrite Z.max_l in Hns by lia. auto. }
      pose proof (load_hunk_loaded st (hunk_at st (offset st)) Hh Hc0) as Hld.
      destruct (chdstream_load_hunk st (hunk_at st (offset st))) as [b stl].
      simpl in *. destruct b; simpl in Hrun; [| discriminate].
      destruct (Hld eq_refl) as [Hloaded Himg].
      set (src := offset st mod frame_size st + hunk_offset_at st (offset st)
                  + frame_offset st) in *.
      set (bytes := firstn (Z.to_nat (chunk_amount st end_))
                      (skipn (Z.to_nat src) (hunkmem stl))) in *.
      set (st1 := set_offset stl (offset st + chunk_amount st end_)) in *.
      assert (Hte : track_end stl = track_end st) by apply Hg1.
      assert (Hts : track_start stl = track_start st) by apply Hg1.
      assert (Hok1 : stream_ok st1)
        by (apply stream_ok_set_offset; [assumption | rewrite Hte; lia]).
      assert (Hg : same_geometry st st1)
        by (eapply same_geometry_trans; [exact Hg1 | apply same_geometry_set_offset]).
      assert (Hlenb : Z.of_nat (List.length bytes) = chunk_amount st end_).
      { unfold bytes. rewrite length_firstn, length_skipn.
        pose proof (ok_hunkmem stl Hokl) as Hl.
        replace (chd stl) with (chd st) in Hl by (symmetry; apply Hg1). lia. }
      assert (Hc1 : cache_sound st1) by (left; exact Hloaded).
      destruct (IH st1 end_ _ st' out' Hok1 Hc1 ltac:(simpl; rewrite Hte; lia) Hrun)
        as (tail & -> & Hc' & Hbytes).
      exists (bytes ++ tail). rewrite app_assoc. split_and; auto.
      intros j Hj. rewrite length_app in Hj.
      destruct (Z_lt_le_dec j (chunk_amount st end_)) as [Hin | Hout].
      * rewrite app_nth1 by lia.
        unfold bytes. rewrite nth_firstn.
        destruct (Nat.ltb_spec (Z.to_nat j) (Z.to_nat (chunk_amount st end_))); [| lia].
        rewrite nth_skipn.
        destruct (same_frame st (offset st) j Hok Hdat
                    ltac:(unfold chunk_amount in *; lia)) as (Hsh & Hso & Hsm).
        unfold stream_byte.
        destruct (Z.ltb_spec (offset st + j) (track_start st)); [lia |].
        rewrite Hsh, Hso, Hsm. rewrite Himg.
        f_equal. unfold src. lia.
      * rewrite app_nth2 by lia.
        replace (Z.to_nat j - List.length bytes)%nat
          with (Z.to_nat (j - chunk_amount st end_)) by lia.
        rewrite Hbytes by lia.
        rewrite (stream_byte_geometry st st1) by exact Hg.
        f_equal. simpl. lia.
Qed.

(** The bytes of a read, for a cache that serves the reads. *)
Lemma read_sound (st : chdstream) (bytes : Z) r st' out :
  stream_ok st -> cache_sound st -> 0 <= bytes < 2 ^ 64 ->
  chdstream_read st bytes = Ret (r, st', out) ->
  forall j, 0 <= j < Z.of_nat (List.length out) ->
            nth (Z.to_nat j) out 0 = stream_byte st (offset st + j).
Proof.
  intros Hok Hc Hb Hrd. pose proof (ok_offset st Hok) as Ho.
  rewrite read_unfold in Hrd by assumption. simpl in Hrd.
  set (n := Z.min bytes (track_end st - offset st)) in *.
  destruct (read_loop (Z.to_nat n) st (offset st + n) []) as [[st1 out1] | | |] eqn:Hrun;
    simpl in Hrd; try discriminate.
  inversion Hrd; subst r st1 out1.
  assert (Hend : offset st <= offset st + n <= track_end st) by (unfold n; lia).
  destruct (read_loop_sound (Z.to_nat n) st (offset st + n) [] st' out
              Hok Hc Hend Hrun)
    as (tail & Hout & _ & Hbytes).
  simpl in Hout. subst out. exact Hbytes.
Qed.

(** ** Reads that stay in the pregap *)

(** Below [track_start] a run of the loop stores zeros and looks at nothing
    but the frame size: no condition on the header is needed. *)
Lemma read_loop_pregap (fuel : nat) :
  forall (st : chdstream) (end_ : Z) (out : list Z),
    0 < frame_size st < 2 ^ 32 ->
    track_start st mod frame_size st = 0 ->
    0 <= offset st <= end_ -> end_ <= track_start st < 2 ^ 64 ->
    end_ - offset st <= Z.of_nat fuel ->
    read_loop fuel st end_ out
    = Ret (set_offset st end_, out ++ repeat 0 (Z.to_nat (end_ - offset st))).
Proof.
  induction fuel as [| fuel IH]; intros st end_ out Hfs Hal Ho He Hfuel; simpl.
  - destruct (Z.ltb_spec (offset st) end_); [lia |].
    replace end_ with (offset st) by lia. rewrite Z.sub_diag. simpl.
    rewrite app_nil_r. destruct st; reflexivity.
  - destruct (Z.ltb_spec (offset st) end_) as [Hlt | Hge].
    2:{ replace end_ with (offset st) by lia. rewrite Z.sub_diag. simpl.
        rewrite app_nil_r. destruct st; reflexivity. }
    unfold read_chunk.
    destruct (Z.eqb_spec (frame_size st) 0); [lia |].
    pose proof (Z.mod_pos_bound (offset st) (frame_size st) ltac:(lia)) as Hr.
    rewrite (wrap32_small (offset st mod frame_size st)) by lia.
    rewrite (wrap32_small (frame_size st - _)) by lia.
    rewrite (wrap64_small (end_ - offset st)) by lia.
    pose proof (below_start_aligned (frame_size st) (track_start st) (offset st)
                  ltac:(lia) Hal ltac:(lia)) as Hbelow.
    destruct (Z.ltb_spec (offset st) (track_start st)); [| lia].
    set (amount := if end_ - offset st <? frame_size st - offset st mod frame_size st
                   then wrap32 (end_ - offset st)
                   else frame_size st - offset st mod frame_size st).
    assert (Ham : amount = Z.min (frame_size st - offset st mod frame_size st)
                             (end_ - offset st)).
    { unfold amount.
      destruct (Z.ltb_spec (end_ - offset st)
                  (frame_size st - offset st mod frame_size st));
        [rewrite wrap32_small by lia |]; lia. }
    cbn [bind fst snd].
    rewrite wrap64_small by lia.
    rewrite IH; cbn [frame_size track_start offset set_offset]; try lia.
    do 2 f_equal.
    rewrite <- app_assoc, <- repeat_app. do 2 f_equal. lia.
Qed.

Lemma read_pregap (st : chdstream) (bytes : Z) :
  0 < frame_size st < 2 ^ 32 ->
  track_start st mod frame_size st = 0 ->
  0 <= offset st <= track_end st -> track_end st < 2 ^ 64 ->
  track_start st < 2 ^ 64 -> 0 <= bytes < 2 ^ 64 ->
  offset st + Z.min bytes (track_end st - offset st) <= track_start st ->
  chdstream_read st bytes
  = Ret (to_ssize (Z.min bytes (track_end st - offset st)),
         set_offset st (offset st + Z.min bytes (track_end st - offset st)),
         repeat 0 (Z.to_nat (Z.min bytes (track_end st - offset st)))).
Proof.
  intros Hfs Hal Ho Hte Hts Hb Hpre.
  unfold chdstream_read.
  rewrite (wrap64_small (track_end st - offset st)) by lia.
  set (n := Z.min bytes (track_end st - offset st)) in *.
  assert (Hn : (if track_end st - offset st <? bytes
                then track_end st - offset st else bytes) = n).
  { unfold n. destruct (Z.ltb_spec (track_end st - offset st) bytes); lia. }
  rewrite Hn. rewrite (wrap64_small (offset st + n)) by lia.
  rewrite read_loop_pregap by (assumption || lia).
  simpl. do 3 f_equal. lia.
Qed.

(** * The claims *)

(** ** The count returned by a read *)

Example cooked_stream_opened :
  chdstream_open 4 (sample_storage cooked_disc) "disc.chd" 1 = Ret (Some cooked_stream).
Proof. reflexivity. Qed.

Lemma cooked_stream_ok : stream_ok cooked_stream.
Proof. constructor; simpl; try lia; reflexivity. Qed.

Example short_hunk_stream_opened :
  chdstream_open 4 (sample_storage short_hunk_disc) "disc.chd" 1
  = Ret (Some short_hunk_stream).
Proof. reflexivity. Qed.

Example narrow_unit_stream_opened :
  chdstream_open 4 (sample_storage narrow_unit_disc) "disc.chd" 1
  = Ret (Some narrow_unit_stream).
Proof. reflexivity. Qed.

Example long_pregap_stream_opened :
  chdstream_open 4 (sample_storage long_pregap_disc) "disc.chd" 1
  = Ret (Some long_pregap_stream).
Proof. reflexivity. Qed.

(** C1 as stated fails on headers that the code does not check, although
    the cursor is within [0, track_end] and the engine supplies every hunk.
    With hunks shorter than units [frames_per_hunk] is 0, and a read that
    reaches the track data divides by it.  With raw frames longer than the
    unit, a read 100 bytes into the first frame copies from beyond the hunk
    buffer.  And where the clamped count is [2^63], the value returned, an
    [ssize_t], is negative. *)
Lemma read_count_needs_checked_header :
  ~ read_count_as_stated short_hunk_stream 40 /\
  ~ read_count_as_stated (snd (chdstream_seek narrow_unit_stream 100 SEEK_SET)) 4 /\
  ~ read_count_as_stated long_pregap_stream (2 ^ 63).
Proof.
  split; [| split].
  - intros H. destruct H as (st' & out & Hrd & _).
    + simpl. lia.
    + intros h. discriminate.
    + assert (Hcode : chdstream_read short_hunk_stream 40 = Undef)
        by (vm_compute; reflexivity).
      rewrite Hcode in Hrd. discriminate Hrd.
  - intros H. destruct H as (st' & out & Hrd & _).
    + vm_compute. split; discriminate.
    + intros h. discriminate.
    + assert (Hcode : chdstream_read
                        (snd (chdstream_seek narrow_unit_stream 100 SEEK_SET)) 4
                      = Undef)
        by (vm_compute; reflexivity).
      rewrite Hcode in Hrd. discriminate Hrd.
  - intros H. destruct H as (st' & out & Hrd & _).
    + cbn [offset track_end long_pregap_stream]. lia.
    + intros h. discriminate.
    + rewrite (read_pregap long_pregap_stream (2 ^ 63)) in Hrd;
        cbn [frame_size track_start track_end offset long_pregap_stream];
        try lia; [| reflexivity].
      apply (f_equal (fun r => match r with Ret (n, _, _) => n | _ => 0 end)) in Hrd.
      cbv beta iota in Hrd.
      cbn [track_end offset long_pregap_stream] in Hrd.
      vm_compute in Hrd. discriminate Hrd.
Qed.

(** On a well-formed stream whose hunks the engine supplies a read returns
    the clamped count, when that fits the type of the value returned. *)
Lemma read_clamped_count (st : chdstream) (bytes : Z) :
  stream_ok st ->
  0 <= bytes < 2 ^ 64 ->
  Z.min bytes (track_end st - offset st) <= SSIZE_MAX ->
  (forall pos,
      offset st <= pos < offset st + Z.min bytes (track_end st - offset st) ->
      track_start st <= pos ->
      chd_read (chd st) (hunk_at st pos) <> None) ->
  exists st' out,
    chdstream_read st bytes =
      Ret (Z.min bytes (track_end st - offset st), st', out) /\
    Z.min bytes (track_end st - offset st) <= bytes /\
    chdstream_tell st' = chdstream_tell st + Z.min bytes (track_end st - offset st) /\
    Z.of_nat (List.length out) = Z.min bytes (track_end st - offset st).
Proof.
  intros Hok Hb Hfit Hloads.
  pose proof (read_post_call st bytes Hok Hb) as Hpost. simpl in Hpost.
  pose proof (ok_offset st Hok) as Ho.
  destruct (chdstream_read st bytes) as [[[r st'] out] | | |]; try contradiction.
  - destruct Hpost as (-> & tail & Hout & _ & _ & Hoff & Hlen & _).
    simpl in Hout. subst out.
    exists st', tail. rewrite to_ssize_small by lia.
    unfold chdstream_tell. split_and; auto; lia.
  - destruct Hpost as (pos & Hp & Hs & Hrd). exfalso. exact (Hloads pos Hp Hs Hrd).
Qed.

(** C1, amended.  For a track opened on a header with
    [0 < unitbytes <= hunkbytes] and [frame_size <= unitbytes] (the header
    fields being 32-bit values), in every state that the stream reaches the
    cursor is within [0, track_end], and for every requested count whose
    clamped value [min (bytes, track_end - offset)] fits the [ssize_t] that
    the call returns: when the engine supplies every hunk of the requested
    range, [chdstream_read] returns exactly that clamped value, which is
    never more than requested, stores that many bytes, and afterwards
    [chdstream_tell] is the previous value plus the count returned. *)
Theorem read_returns_clamped_count
    (fuel : nat) (sys : storage) (path : string) (track : Z)
    (st0 st : chdstream) (bytes : Z) :
  chdstream_open fuel sys path track = Ret (Some st0) ->
  0 < unitbytes (header (chd st0)) ->
  unitbytes (header (chd st0)) <= hunkbytes (header (chd st0)) < 2 ^ 32 ->
  frame_size st0 <= unitbytes (header (chd st0)) ->
  reachable st0 st ->
  0 <= bytes < 2 ^ 64 ->
  Z.min bytes (track_end st - offset st) <= SSIZE_MAX ->
  (forall pos,
      offset st <= pos < offset st + Z.min bytes (track_end st - offset st) ->
      track_start st <= pos ->
      chd_read (chd st) (hunk_at st pos) <> None) ->
  0 <= offset st <= track_end st /\
  exists st' out,
    chdstream_read st bytes =
      Ret (Z.min bytes (track_end st - offset st), st', out) /\
    Z.min bytes (track_end st - offset st) <= bytes /\
    chdstream_tell st' = chdstream_tell st + Z.min bytes (track_end st - offset st) /\
    Z.of_nat (List.length out) = Z.min bytes (track_end st - offset st).
Proof.
  intros Hopen Hub Hhb Hfs Hreach Hb Hfit Hloads.
  pose proof (open_stream_ok _ _ _ _ _ Hopen Hub Hhb Hfs) as Hok0.
  destruct (reachable_keeps_ok _ _ Hreach Hok0) as [Hok _].
  split; [exact (ok_offset st Hok) |].
  now apply read_clamped_count.
Qed.

Lemma read_returns_clamped_count_witness :
  0 <= 100 <= 112 /\
  exists st' out,
    chdstream_read (snd (chdstream_seek cooked_stream 100 SEEK_SET)) 40
    = Ret (12, st', out) /\
    12 <= 40 /\ chdstream_tell st' = 100 + 12 /\ Z.of_nat (List.length out) = 12.
Proof.
  apply (read_returns_clamped_count 4 (sample_storage cooked_disc) "disc.chd" 1
           cooked_stream (snd (chdstream_seek cooked_stream 100 SEEK_SET)) 40
           cooked_stream_opened).
  - simpl. lia.
  - simpl. lia.
  - simpl. lia.
  - eapply reach_step; [apply reach_open | apply step_seek].
  - lia.
  - vm_compute. discriminate.
  - intros pos _ _. discriminate.
Defined.

(** ** Seeking *)

(** C7 as stated fails where the candidate leaves the range of [ssize_t]:
    one byte into the stream, a relative seek by [SSIZE_MAX] has the
    candidate [2^63], beyond [track_end], yet the call reports an error
    instead of clamping (the sum wraps to a negative [ssize_t]). *)
Lemma seek_as_stated_fails_on_wrap :
  ~ seek_as_stated (set_offset cooked_stream 1) SSIZE_MAX SEEK_CUR.
Proof.
  assert (Hcode : fst (chdstream_seek (set_offset cooked_stream 1) SSIZE_MAX SEEK_CUR) = -1)
    by reflexivity.
  unfold seek_as_stated, seek_candidate. cbn [SEEK_CUR SEEK_SET Z.eqb offset set_offset].
  change (1 + SSIZE_MAX <? 0) with false.
  change (track_end (set_offset cooked_stream 1) <? 1 + SSIZE_MAX) with true.
  cbv beta iota. intros H. rewrite H in Hcode. discriminate Hcode.
Qed.

(** C7, amended.  For every stream and every [chdstream_seek (off, whence)]
    whose candidate position, [off] (SEEK_SET), [offset + off] (SEEK_CUR) or
    [track_end + off] (SEEK_END), is representable as an [ssize_t]: an
    unrecognised origin or a negative candidate returns -1 and leaves the
    stream unchanged; a candidate beyond [track_end] is clamped to
    [track_end] and reported as success; otherwise the candidate becomes the
    new offset.  In particular a seek to (0, SEEK_END) makes [chdstream_tell]
    equal [track_end] (when that fits [ssize_t]) and a seek by (-1, SEEK_CUR)
    at offset 0 fails and leaves [chdstream_tell] unchanged. *)
Theorem seek_candidate_in_range :
  (forall st off whence,
      0 <= track_end st -> candidate_fits st off whence ->
      seek_as_stated st off whence) /\
  (forall st,
      0 <= track_end st <= SSIZE_MAX ->
      fst (chdstream_seek st 0 SEEK_END) = 0 /\
      chdstream_tell (snd (chdstream_seek st 0 SEEK_END)) = track_end st) /\
  (forall st,
      offset st = 0 ->
      fst (chdstream_seek st (-1) SEEK_CUR) = -1 /\
      chdstream_tell (snd (chdstream_seek st (-1) SEEK_CUR)) = chdstream_tell st).
Proof.
  assert (Hmain : forall st off whence,
             0 <= track_end st -> candidate_fits st off whence ->
             seek_as_stated st off whence).
  { intros st off whence Hte Hfit.
    unfold seek_as_stated, candidate_fits, seek_candidate, chdstream_seek in *.
    unfold SSIZE_MAX in *.
    destruct (whence =? SEEK_SET); [| destruct (whence =? SEEK_CUR);
                                      [| destruct (whence =? SEEK_END)]];
      try reflexivity;
      rewrite ?to_ssize_signed by lia;
      match goal with
      | |- context [?c <? 0] => destruct (Z.ltb_spec c 0); [reflexivity |];
          destruct (Z.ltb_spec (track_end st) c);
          [rewrite to_ssize_signed by lia | ];
          rewrite wrap64_small by lia; reflexivity
      end. }
  split; [exact Hmain | split].
  - intros st Hte.
    pose proof (Hmain st 0 SEEK_END ltac:(lia)) as H.
    unfold seek_as_stated, candidate_fits, seek_candidate in H. simpl in H.
    rewrite Z.add_0_r in H.
    destruct (Z.ltb_spec (track_end st) 0); [lia |].
    rewrite Z.ltb_irrefl in H.
    rewrite H by (unfold SSIZE_MAX in *; lia).
    simpl. unfold chdstream_tell. simpl. split; reflexivity.
  - intros st Ho.
    unfold chdstream_seek. simpl. rewrite Ho. simpl. split; reflexivity.
Qed.

Lemma seek_candidate_in_range_witness :
  seek_as_stated (set_offset cooked_stream 100) 50 SEEK_CUR /\
  chdstream_tell (snd (chdstream_seek cooked_stream 0 SEEK_END)) = 112 /\
  fst (chdstream_seek cooked_stream (-1) SEEK_CUR) = -1.
Proof.
  destruct seek_candidate_in_range as (Hgen & Hend & Hcur).
  split; [| split].
  - apply Hgen; vm_compute; [discriminate | split; discriminate].
  - apply (Hend cooked_stream). vm_compute. split; discriminate.
  - apply (Hcur cooked_stream). reflexivity.
Defined.

(** ** The hunk cache, seen from the caller *)

Example audio_stream_opened :
  chdstream_open 4 (sample_storage audio_disc) "disc.chd" 2 = Ret (Some audio_stream).
Proof. reflexivity. Qed.

Lemma audio_stream_ok : stream_ok audio_stream.
Proof. constructor; simpl; try lia; reflexivity. Qed.

Example last_hunk_stream_opened :
  chdstream_open 4 (sample_storage last_hunk_disc) "disc.chd" 2
  = Ret (Some last_hunk_stream).
Proof. reflexivity. Qed.

(** C8 as stated fails for the hunk number [2^32 - 1], which the mark of the
    empty cache, [-1], equals in the unsigned comparison of the code.  On
    the stream just opened on track 2 of [last_hunk_disc] nothing is cached
    and the engine supplies that hunk, yet the load of it asks the engine
    for nothing and leaves the buffer as [malloc] returned it; a read of
    the frame in that hunk (16 bytes at offset 48) makes no engine call and
    delivers the buffer, not the bytes 28, 29, ... that the engine holds. *)
Lemma empty_cache_hits_last_hunk :
  ~ miss_as_stated last_hunk_stream 4294967295 /\
  cached_hunk last_hunk_stream = None /\
  chdstream_load_hunk last_hunk_stream 4294967295 = (true, last_hunk_stream) /\
  read_view (chdstream_read (snd (chdstream_seek last_hunk_stream 48 SEEK_SET)) 16)
  = Ret (16, 64, [], repeat 0 16) /\
  option_map (firstn 4) (chd_read last_hunk_disc 4294967295) = Some [28; 29; 30; 31].
Proof.
  assert (Hhit : chdstream_load_hunk last_hunk_stream 4294967295
                 = (true, last_hunk_stream)) by reflexivity.
  split; [| split; [reflexivity | split; [exact Hhit | split]]].
  - intros H.
    destruct (H ltac:(discriminate) (fit 16 (sample_hunk 4294967295)) eq_refl)
      as (st' & Hld & Hlog & _).
    rewrite Hhit in Hld. injection Hld as <-.
    discriminate Hlog.
  - vm_compute. reflexivity.
  - vm_compute. reflexivity.
Qed.

Lemma cached_hunk_hit (st : chdstream) (h : Z) :
  cached_hunk st = Some h -> h = wrap32 (hunknum st).
Proof.
  unfold cached_hunk. destruct (hunknum st =? -1); [discriminate |].
  intros H. now inversion H.
Qed.

Lemma cached_hunk_miss (st : chdstream) (h : Z) :
  h <> SENTINEL_HUNK -> cached_hunk st <> Some h -> h <> wrap32 (hunknum st).
Proof.
  unfold cached_hunk, SENTINEL_HUNK. intros Hs Hc.
  destruct (Z.eqb_spec (hunknum st) (-1)) as [-> | _].
  - exact Hs.
  - intros ->. now apply Hc.
Qed.

Lemma cached_hunk_loaded (st : chdstream) (h : Z) (mem : list Z) (log : list Z) :
  0 <= h < 2 ^ 32 -> h <> SENTINEL_HUNK ->
  cached_hunk (set_hunk st (to_int32 h) mem log) = Some h.
Proof.
  intros Hh Hs. unfold cached_hunk, SENTINEL_HUNK in *. cbn [hunknum set_hunk].
  rewrite wrap32_to_int32, wrap32_small by lia.
  destruct (Z.eqb_spec (to_int32 h) (-1)) as [He | _]; [| reflexivity].
  exfalso. apply Hs.
  rewrite <- (wrap32_small h) by lia. rewrite <- wrap32_to_int32, He. reflexivity.
Qed.

(** C8, amended.  For every stream and every hunk number other than
    [2^32 - 1]: loading the hunk whose number is the cached one makes no
    engine call and succeeds, leaving the stream as it was.  On a miss the
    engine is called once for a full hunk: if it succeeds, the buffer holds
    the hunk, with the two bytes of every 16-bit word exchanged exactly once
    when [swab] is set, the hunk becomes the cached one and a further load
    of it is a hit; if it fails, the load reports the failure and the cached
    number and buffer are unchanged.  The bytes that a chunk of
    [chdstream_read] copies out are taken from the buffer as the load (swap
    included) left it.  Hence two consecutive reads within one hunk that was
    not cached call the engine exactly once, the second being served from
    the cache. *)
Theorem hunk_cache_behaviour :
  (forall st h,
      cached_hunk st = Some h -> chdstream_load_hunk st h = (true, st)) /\
  (forall st h mem,
      0 <= h < 2 ^ 32 -> h <> SENTINEL_HUNK ->
      cached_hunk st <> Some h -> chd_read (chd st) h = Some mem ->
      exists st',
        chdstream_load_hunk st h = (true, st') /\
        chd_reads st' = chd_reads st ++ [h] /\
        cached_hunk st' = Some h /\
        List.length (hunkmem st') = Z.to_nat (hunkbytes (header (chd st))) /\
        (swab st = false -> hunkmem st' = mem) /\
        (swab st = true ->
         forall i, 0 <= i < hunkbytes (header (chd st)) / 2 ->
           nth (Z.to_nat (2 * i)) (hunkmem st') 0 = nth (Z.to_nat (2 * i + 1)) mem 0 /\
           nth (Z.to_nat (2 * i + 1)) (hunkmem st') 0 = nth (Z.to_nat (2 * i)) mem 0) /\
        chdstream_load_hunk st' h = (true, st')) /\
  (forall st h,
      h <> SENTINEL_HUNK -> cached_hunk st <> Some h ->
      chd_read (chd st) h = None ->
      exists st',
        chdstream_load_hunk st h = (false, st') /\
        hunknum st' = hunknum st /\ hunkmem st' = hunkmem st /\
        cached_hunk st' = cached_hunk st /\
        chd_reads st' = chd_reads st ++ [h]) /\
  (forall st end_,
      stream_ok st -> offset st < end_ <= track_end st ->
      track_start st <= offset st ->
      fst (chdstream_load_hunk st (hunk_at st (offset st))) = true ->
      exists st',
        read_chunk st end_ =
          Ret (st',
               firstn (Z.to_nat (chunk_amount st end_))
                 (skipn (Z.to_nat (offset st mod frame_size st
                                   + hunk_offset_at st (offset st) + frame_offset st))
                    (hunkmem (snd (chdstream_load_hunk st (hunk_at st (offset st))))))))
  /\
  (forall st n1 n2 h,
      stream_ok st -> 0 < n1 -> 0 < n2 ->
      track_start st <= offset st -> offset st + n1 + n2 <= track_end st ->
      (forall pos, offset st <= pos < offset st + n1 + n2 -> hunk_at st pos = h) ->
      chd_read (chd st) h <> None ->
      h <> SENTINEL_HUNK -> cached_hunk st <> Some h ->
      exists r1 st1 out1 r2 st2 out2,
        chdstream_read st n1 = Ret (r1, st1, out1) /\
        chdstream_read st1 n2 = Ret (r2, st2, out2) /\
        chd_reads st1 = chd_reads st ++ [h] /\
        chd_reads st2 = chd_reads st1).
Proof.
  split; [| split; [| split; [| split]]].
  - intros st h Hh. apply load_hunk_hit. now apply cached_hunk_hit.
  - intros st h mem Hrange Hsent Hmiss Hrd.
    pose proof (cached_hunk_miss st h Hsent Hmiss) as Hne.
    rewrite (load_hunk_miss st h mem Hne Hrd).
    eexists. split; [reflexivity |].
    split; [reflexivity |].
    split; [now apply cached_hunk_loaded |].
    cbn [chd_reads hunknum hunkmem set_hunk chd swab].
    pose proof (chd_read_length _ _ _ Hrd) as Hlen.
    assert (Hnum : wrap32 (to_int32 h) = h)
      by (rewrite wrap32_to_int32; now apply wrap32_small).
    split_and; auto.
    + destruct (swab st); [rewrite swab_loop_length |]; exact Hlen.
    + intros ->. reflexivity.
    + intros -> i Hi. cbv beta iota.
      assert (Hbytes : forall k : nat, 0 <= nth k mem 0 < 256).
      { intros k. unfold chd_read in Hrd.
        destruct (hunks (chd st) h); simpl in Hrd; inversion Hrd.
        apply fit_bytes. }
      assert (Hdiv : 2 * (hunkbytes (header (chd st)) / 2)
                     <= hunkbytes (header (chd st)))
        by (apply Z.mul_div_le; lia).
      assert (Hfits : 2 * (0 + Z.of_nat (Z.to_nat (hunkbytes (header (chd st)) / 2)))
                      <= Z.of_nat (List.length mem)) by lia.
      pose proof (swab_loop_nth _ 0 mem ltac:(lia) Hfits Hbytes) as Hsw.
      split.
      * rewrite (Hsw (2 * i)) by lia.
        destruct (Z.leb_spec (2 * 0) (2 * i)); [| lia].
        destruct (Z.ltb_spec (2 * i)
                    (2 * (0 + Z.of_nat (Z.to_nat (hunkbytes (header (chd st)) / 2)))));
          [| lia].
        cbn [andb].
        assert (Heven : Z.even (2 * i) = true)
          by (rewrite Z.even_mul; reflexivity).
        rewrite Heven. reflexivity.
      * rewrite (Hsw (2 * i + 1)) by lia.
        destruct (Z.leb_spec (2 * 0) (2 * i + 1)); [| lia].
        destruct (Z.ltb_spec (2 * i + 1)
                    (2 * (0 + Z.of_nat (Z.to_nat (hunkbytes (header (chd st)) / 2)))));
          [| lia].
        cbn [andb].
        assert (Hodd : Z.even (2 * i + 1) = false)
          by (rewrite Z.add_comm, Z.even_add_mul_2; reflexivity).
        rewrite Hodd.
        replace (2 * i + 1 - 1) with (2 * i) by lia. reflexivity.
    + apply load_hunk_hit. cbn [hunknum]. symmetry. exact Hnum.
  - intros st h Hsent Hmiss Hrd.
    pose proof (cached_hunk_miss st h Hsent Hmiss) as Hne.
    unfold chdstream_load_hunk.
    destruct (Z.eqb_spec h (wrap32 (hunknum st))); [contradiction |].
    rewrite Hrd. eexists. split; [reflexivity |]. simpl. auto.
  - intros st end_ Hok Hend Hdat Hld.
    destruct (read_chunk_data st end_ Hok Hend Hdat) as (-> & _).
    rewrite Hld. eexists. reflexivity.
  - intros st n1 n2 h Hok Hn1 Hn2 Hdat Hend Hin Hrd Hsent Hmiss.
    pose proof (cached_hunk_miss st h Hsent Hmiss) as Hne.
    pose proof Hok as [].
    (* first read *)
    pose proof (read_unfold st n1 Hok ltac:(lia)) as Hr1. simpl in Hr1.
    replace (Z.min n1 (track_end st - offset st)) with n1 in Hr1 by lia.
    pose proof (read_loop_post (Z.to_nat n1) st (offset st + n1) [] Hok
                  ltac:(lia) ltac:(lia)) as Hpost.
    destruct (read_loop_in_hunk h (Z.to_nat n1) st (offset st + n1) [] Hok)
      as (st1 & out1 & Hrun1 & Hmore1 & _); try lia; auto.
    { intros pos Hpos. apply Hin. lia. }
    rewrite Hrun1 in Hr1, Hpost. simpl in Hpost, Hr1.
    destruct Hpost as (tail & _ & Hg & Hok1 & Hoff1 & _).
    destruct (Hmore1 ltac:(lia)) as [Hnum1 Hlog1].
    unfold load_calls in Hlog1.
    destruct (Z.eqb_spec h (wrap32 (hunknum st))); [contradiction |].
    (* second read *)
    assert (Hte : track_end st1 = track_end st) by apply Hg.
    assert (Hts : track_start st1 = track_start st) by apply Hg.
    pose proof (read_unfold st1 n2 Hok1 ltac:(lia)) as Hr2. simpl in Hr2.
    replace (Z.min n2 (track_end st1 - offset st1)) with n2 in Hr2 by lia.
    destruct (read_loop_in_hunk h (Z.to_nat n2) st1 (offset st1 + n2) [] Hok1)
      as (st2 & out2 & Hrun2 & Hmore2 & _); try lia.
    { intros pos Hpos. rewrite (hunk_at_geometry st st1 pos Hg). apply Hin. lia. }
    { replace (chd st1) with (chd st) by (symmetry; apply Hg). exact Hrd. }
    rewrite Hrun2 in Hr2. simpl in Hr2.
    destruct (Hmore2 ltac:(lia)) as [_ Hlog2].
    unfold load_calls in Hlog2. rewrite Hnum1, Z.eqb_refl, app_nil_r in Hlog2.
    exists (to_ssize n1), st1, out1, (to_ssize n2), st2, out2.
    split_and; assumption.
Qed.

Lemma hunk_cache_behaviour_witness :
  chdstream_load_hunk (snd (chdstream_load_hunk audio_stream 50)) 50
  = (true, snd (chdstream_load_hunk audio_stream 50)) /\
  (exists st',
      chdstream_load_hunk audio_stream 50 = (true, st') /\
      chd_reads st' = [50] /\
      cached_hunk st' = Some 50 /\
      (forall i, 0 <= i < 4704 / 2 ->
         nth (Z.to_nat (2 * i)) (hunkmem st') 0
         = nth (Z.to_nat (2 * i + 1)) (fit 4704 (audio_hunk 50)) 0 /\
         nth (Z.to_nat (2 * i + 1)) (hunkmem st') 0
         = nth (Z.to_nat (2 * i)) (fit 4704 (audio_hunk 50)) 0)) /\
  (exists st',
      chdstream_load_hunk audio_stream 80 = (false, st') /\
      hunknum st' = -1) /\
  (exists st' bytes, read_chunk (set_offset cooked_stream 32) 40 = Ret (st', bytes)) /\
  (exists r1 st1 out1 r2 st2 out2,
      chdstream_read (set_offset audio_stream 352800) 100 = Ret (r1, st1, out1) /\
      chdstream_read st1 100 = Ret (r2, st2, out2) /\
      chd_reads st1 = [50] /\ chd_reads st2 = [50]).
Proof.
  destruct hunk_cache_behaviour as (Hhit & Hmiss & Hfail & Hcopy & Htwice).
  split; [| split; [| split; [| split]]].
  - apply Hhit. vm_compute. reflexivity.
  - destruct (Hmiss audio_stream 50 (fit 4704 (audio_hunk 50)))
      as (st' & Hld & Hlog & Hnum & _ & _ & Hsw & _).
    + lia.
    + discriminate.
    + discriminate.
    + reflexivity.
    + exists st'. split; [exact Hld |]. split; [exact Hlog |].
      split; [exact Hnum |]. apply Hsw. reflexivity.
  - destruct (Hfail audio_stream 80) as (st' & Hld & Hnum & _).
    + discriminate.
    + discriminate.
    + reflexivity.
    + exists st'. split; [exact Hld | exact Hnum].
  - destruct (Hcopy (set_offset cooked_stream 32) 40) as (st' & Hrd).
    + apply stream_ok_set_offset; [exact cooked_stream_ok | simpl; lia].
    + simpl. lia.
    + simpl. lia.
    + reflexivity.
    + eexists. eexists. exact Hrd.
  - destruct (Htwice (set_offset audio_stream 352800) 100 100 50)
      as (r1 & st1 & out1 & r2 & st2 & out2 & H1 & H2 & H3 & H4).
    + apply stream_ok_set_offset; [exact audio_stream_ok | simpl; lia].
    + lia.
    + lia.
    + simpl. lia.
    + simpl. lia.
    + intros pos Hpos. simpl in Hpos.
      unfold hunk_at, chd_frame_at. simpl.
      rewrite (Z.div_small (pos - 352800) 2352) by lia. reflexivity.
    + simpl. discriminate.
    + discriminate.
    + discriminate.
    + exists r1, st1, out1, r2, st2, out2.
      split_and; try assumption. rewrite H4. exact H3.
Defined.

(** ** Unguarded divisions and copies *)

(** C10.  [chdstream_open] divides [hunkbytes] by [unitbytes] and
    [chdstream_read] computes [offset % frame_size], [frame / frames_per_hunk]
    and indices into the hunk buffer, none of them checked against the
    header.  For a stream opened on a header with [unitbytes > 0],
    [hunkbytes >= unitbytes] and [unitbytes >= frame_size] (the frame size
    being 2352 for raw and audio tracks and the unit size otherwise), the
    divisors are nonzero and, in every state the stream reaches, a read never
    leaves defined behaviour: each copy out of the hunk buffer lies within
    its [hunkbytes] bytes (and the loop ends). *)
Theorem header_conditions_keep_reads_defined
    (fuel : nat) (sys : storage) (path : string) (track : Z) (st : chdstream) :
  chdstream_open fuel sys path track = Ret (Some st) ->
  0 < unitbytes (header (chd st)) ->
  unitbytes (header (chd st)) <= hunkbytes (header (chd st)) < 2 ^ 32 ->
  frame_size st <= unitbytes (header (chd st)) ->
  (frame_size st = SECTOR_SIZE \/ frame_size st = unitbytes (header (chd st))) /\
  unitbytes (header (chd st)) <> 0 /\
  frame_size st <> 0 /\
  frames_per_hunk st <> 0 /\
  forall st', reachable st st' ->
    frame_size st' = frame_size st /\
    frames_per_hunk st' = frames_per_hunk st /\
    Z.of_nat (List.length (hunkmem st')) = hunkbytes (header (chd st)) /\
    forall bytes, 0 <= bytes < 2 ^ 64 ->
      chdstream_read st' bytes <> Undef /\
      chdstream_read st' bytes <> OutOfFuel /\
      (forall end_, offset st' < end_ <= track_end st' ->
         read_chunk st' end_ <> Undef /\
         (track_start st' <= offset st' ->
          0 <= offset st' mod frame_size st' + hunk_offset_at st' (offset st')
               + frame_offset st' /\
          offset st' mod frame_size st' + hunk_offset_at st' (offset st')
            + frame_offset st' + chunk_amount st' end_
          <= hunkbytes (header (chd st)))).
Proof.
  intros Hopen Hub Hhb Hfs.
  pose proof (open_stream_ok _ _ _ _ _ Hopen Hub Hhb Hfs) as Hok.
  pose proof Hok as [].
  split.
  { destruct (open_inv _ _ _ _ _ Hopen) as (fd & meta & _ & _ & _ & ->). simpl.
    apply frame_size_of_cases. }
  split; [lia |]. split; [lia |]. split; [lia |].
  intros st' Hreach.
  destruct (reachable_keeps_ok _ _ Hreach Hok) as [Hok' Hg].
  assert (Hchd : chd st' = chd st) by apply Hg.
  split; [apply Hg |]. split; [apply Hg |].
  split; [rewrite <- Hchd; apply (ok_hunkmem st' Hok') |].
  intros bytes Hb.
  pose proof (read_post_call st' bytes Hok' Hb) as Hpost. simpl in Hpost.
  split; [| split].
  - intros Hu. rewrite Hu in Hpost. exact Hpost.
  - intros Hu. rewrite Hu in Hpost. exact Hpost.
  - intros end_ Hend.
    destruct (Z_lt_le_dec (offset st') (track_start st')) as [Hpre | Hdat].
    + destruct (read_chunk_pregap st' end_ Hok' Hend Hpre) as [-> _].
      split; [discriminate | lia].
    + destruct (read_chunk_data st' end_ Hok' Hend Hdat) as (-> & Hlo & Hhi).
      rewrite Hchd in Hhi.
      split; [| auto].
      destruct (fst (chdstream_load_hunk st' (hunk_at st' (offset st'))));
        discriminate.
Qed.

Lemma header_conditions_keep_reads_defined_witness :
  frames_per_hunk audio_stream <> 0 /\
  chdstream_read (snd (chdstream_seek audio_stream 400000 SEEK_SET)) 5000 <> Undef.
Proof.
  pose proof (header_conditions_keep_reads_defined
                4 (sample_storage audio_disc) "disc.chd" 2 audio_stream
                audio_stream_opened) as H.
  destruct H as (_ & _ & _ & Hfph & Hreach).
  - simpl. lia.
  - simpl. lia.
  - simpl. lia.
  - split; [exact Hfph |].
    destruct (Hreach (snd (chdstream_seek audio_stream 400000 SEEK_SET)))
      as (_ & _ & _ & Hread).
    + eapply reach_step; [apply reach_open | apply step_seek].
    + apply (Hread 5000). lia.
Defined.

(** ** The byte range of a track *)

Example huge_stream_opened :
  chdstream_open 4 (sample_storage huge_disc) "disc.chd" 1 = Ret (Some huge_stream).
Proof. reflexivity. Qed.

(** C2 as stated fails in two places.  Where the byte range leaves
    [size_t]: with a unit size, a pregap and a frame count of [2^32 - 1]
    each, [track_end] wraps around and is not
    [track_start + frames * frame_size] (it is even below [track_start]).
    And where the header is not one that the reads are written for: on a
    header with hunks shorter than units, a read of 40 bytes from offset 0
    across the pregap of 32 bytes stores the 32 zeros and then divides by
    [frames_per_hunk = 0], although the engine supplies every hunk. *)
Lemma track_range_as_stated_fails :
  ~ open_geometry_as_stated 4 (sample_storage huge_disc) "disc.chd" 1 /\
  ~ pregap_read_as_stated short_hunk_stream 40.
Proof.
  split.
  - intros H.
    destruct (H huge_stream
                (snd (chdstream_get_meta huge_disc 0))
                huge_stream_opened eq_refl) as [_ Hend].
    lazy in Hend. discriminate Hend.
  - intros H. destruct H as (st' & out & Hrd & _).
    + reflexivity.
    + simpl. lia.
    + simpl. lia.
    + intros h. discriminate.
    + assert (Hcode : chdstream_read short_hunk_stream 40 = Undef)
        by (vm_compute; reflexivity).
      rewrite Hcode in Hrd. discriminate Hrd.
Qed.

Lemma all_zero_repeat (l : list Z) (n : Z) :
  Z.of_nat (List.length l) = n ->
  (forall j, 0 <= j < n -> nth (Z.to_nat j) l 0 = 0) ->
  l = repeat 0 (Z.to_nat n).
Proof.
  intros Hlen Hz.
  apply nth_ext with (d := 0) (d' := 0).
  - rewrite repeat_length. lia.
  - intros k Hk. rewrite nth_repeat.
    rewrite <- (Nat2Z.id k). apply Hz. lia.
Qed.

(** C2, amended.  For every track opened successfully (the header fields
    being 32-bit values): the pregap counts for the byte range exactly when
    its type equals the track's own type, and otherwise contributes nothing;
    [track_start = pregap_frames * frame_size]; and, provided
    [track_start + frames * frame_size] fits [size_t],
    [track_end = track_start + frames * frame_size].  Whatever the header,
    a read that ends at or below [track_start], from any cursor within the
    track, delivers only zeros and loads no hunk.  On a header with
    [0 < unitbytes <= hunkbytes] and [frame_size <= unitbytes], every byte
    read from an offset below [track_start] is zero, in every state that the
    stream reaches; and a read from offset 0 across the pregap, when the
    engine supplies the hunks of its range, delivers exactly [track_start]
    zero bytes followed by the data of the track from the first byte of its
    first frame: the byte at offset [pos >= track_start] is the byte at
    [(pos - track_start) mod frame_size] of frame
    [track_frame + (pos - track_start) / frame_size] of the container.
    (Counts are those that fit the [ssize_t] returned.) *)
Theorem open_track_geometry
    (fuel : nat) (sys : storage) (path : string) (track : Z) (st : chdstream) :
  chdstream_open fuel sys path track = Ret (Some st) ->
  0 <= unitbytes (header (chd st)) < 2 ^ 32 ->
  exists meta,
    chdstream_find_track fuel (chd st) track = Ret (true, meta) /\
    frame_size st = frame_size_of (header (chd st)) meta /\
    track_start st =
      (if String.eqb (m_type meta) (m_pgtype meta) then m_pregap meta else 0)
      * frame_size st /\
    (track_start st + m_frames meta * frame_size st < 2 ^ 64 ->
     track_end st = track_start st + m_frames meta * frame_size st) /\
    (forall st1 bytes,
        same_geometry st st1 -> 0 <= offset st1 <= track_end st1 ->
        0 <= bytes < 2 ^ 64 ->
        Z.min bytes (track_end st1 - offset st1) <= SSIZE_MAX ->
        offset st1 + Z.min bytes (track_end st1 - offset st1) <= track_start st ->
        chdstream_read st1 bytes =
          Ret (Z.min bytes (track_end st1 - offset st1),
               set_offset st1 (offset st1 + Z.min bytes (track_end st1 - offset st1)),
               repeat 0 (Z.to_nat (Z.min bytes (track_end st1 - offset st1))))) /\
    (0 < unitbytes (header (chd st)) ->
     unitbytes (header (chd st)) <= hunkbytes (header (chd st)) < 2 ^ 32 ->
     frame_size st <= unitbytes (header (chd st)) ->
     (forall st1 bytes r st2 out,
         reachable st st1 -> 0 <= bytes < 2 ^ 64 ->
         chdstream_read st1 bytes = Ret (r, st2, out) ->
         forall j, 0 <= j < Z.of_nat (List.length out) ->
                   offset st1 + j < track_start st ->
                   nth (Z.to_nat j) out 0 = 0) /\
     (forall bytes,
         0 <= bytes <= track_start st -> bytes <= track_end st ->
         bytes <= SSIZE_MAX ->
         chdstream_read st bytes =
           Ret (bytes, set_offset st bytes, repeat 0 (Z.to_nat bytes))) /\
     (forall bytes r st2 out,
         track_start st <= bytes < 2 ^ 64 -> track_start st <= track_end st ->
         chdstream_read st bytes = Ret (r, st2, out) ->
         firstn (Z.to_nat (track_start st)) out
         = repeat 0 (Z.to_nat (track_start st))) /\
     (forall bytes,
         track_start st < bytes -> bytes <= track_end st -> bytes <= SSIZE_MAX ->
         (forall pos, track_start st <= pos < bytes ->
                      chd_read (chd st) (hunk_at st pos) <> None) ->
         exists st2 data,
           chdstream_read st bytes =
             Ret (bytes, st2, repeat 0 (Z.to_nat (track_start st)) ++ data) /\
           Z.of_nat (List.length data) = bytes - track_start st /\
           forall j, 0 <= j < bytes - track_start st ->
             nth (Z.to_nat j) data 0 = stream_byte st (track_start st + j) /\
             stream_byte st (track_start st + j) =
               match chd_read (chd st) (hunk_at st (track_start st + j)) with
               | Some raw =>
                   nth (Z.to_nat (j mod frame_size st
                                  + hunk_offset_at st (track_start st + j)
                                  + frame_offset st))
                       (if swab st
                        then swab_loop (Z.to_nat (hunkbytes (header (chd st)) / 2))
                               0 raw
                        else raw) 0
               | None => 0
               end)).
Proof.
  intros Hopen Hub.
  destruct (open_inv _ _ _ _ _ Hopen) as (fd & meta & _ & Hfind & Hnz & Hst).
  exists meta.
  assert (Hchd : chd st = fd) by (subst st; reflexivity).
  assert (Hfs : frame_size st = frame_size_of (header fd) meta)
    by (subst st; reflexivity).
  pose proof (find_track_in_range _ _ _ _ _ Hfind) as Hrange.
  pose proof (counted_pregap_range meta Hrange) as Hpg.
  destruct Hrange as [Hfr _].
  assert (Hfsr : 0 <= frame_size st < 2 ^ 32).
  { rewrite Hfs. rewrite Hchd in Hub.
    destruct (frame_size_of_cases (header fd) meta) as [-> | ->];
      unfold SECTOR_SIZE; lia. }
  assert (Hts : track_start st = counted_pregap meta * frame_size st).
  { rewrite Hfs. subst st. simpl. apply wrap64_small. rewrite Hfs in Hfsr.
    simpl in Hfsr. nia. }
  assert (Hoff0 : offset st = 0) by (subst st; reflexivity).
  rewrite Hchd. split; [exact Hfind |]. split; [exact Hfs |].
  split; [exact Hts |]. split.
  { intros Hfit. rewrite Hts in *. rewrite Hfs in *.
    subst st. simpl in *.
    rewrite (wrap64_small (counted_pregap meta * _)) by nia.
    rewrite (wrap64_small (m_frames meta * _)) by nia.
    apply wrap64_small. nia. }
  split.
  { intros st1 bytes Hg1 Ho1 Hb1 Hfit1 Hpre1.
    assert (Hfs0 : 0 < frame_size st).
    { rewrite Hfs. rewrite Hchd in Hub.
      destruct (frame_size_of_cases (header fd) meta) as [-> | ->];
        unfold SECTOR_SIZE; lia. }
    assert (Hfs1 : frame_size st1 = frame_size st) by apply Hg1.
    assert (Hts1 : track_start st1 = track_start st) by apply Hg1.
    assert (Hte1 : track_end st1 = track_end st) by apply Hg1.
    assert (Hter : 0 <= track_end st < 2 ^ 64)
      by (subst st; simpl; apply wrap64_range).
    rewrite (read_pregap st1 bytes); try lia.
    - rewrite to_ssize_small by (unfold SSIZE_MAX in *; lia). reflexivity.
    - rewrite Hfs1, Hts1, Hts. apply Z.mod_mul. lia.
    - rewrite Hts1. nia. }
  intros Hub0 Hhb Hfsu.
  rewrite <- Hchd in Hub0, Hhb, Hfsu.
  pose proof (open_stream_ok _ _ _ _ _ Hopen Hub0 Hhb Hfsu) as Hok.
  split; [| split; [| split]].
  - intros st1 bytes r st2 out Hreach Hb Hrd j Hj Hbelow.
    destruct (reachable_keeps_ok _ _ Hreach Hok) as [Hok1 Hg].
    pose proof (read_post_call st1 bytes Hok1 Hb) as Hpost. simpl in Hpost.
    rewrite Hrd in Hpost.
    destruct Hpost as (_ & tail & Hout & _ & _ & _ & Hlen & Hz & _).
    simpl in Hout. subst out.
    apply Hz; [lia |].
    replace (track_start st1) with (track_start st) by (symmetry; apply Hg).
    exact Hbelow.
  - intros bytes Hb Hbe Hfit.
    pose proof (read_post_call st bytes Hok ltac:(unfold SSIZE_MAX in Hfit; lia))
      as Hpost. simpl in Hpost.
    rewrite Hoff0 in Hpost.
    replace (Z.min bytes (track_end st - 0)) with bytes in Hpost by lia.
    destruct (chdstream_read st bytes) as [[[r st'] out] | | |]; try contradiction.
    + destruct Hpost as (-> & tail & Hout & _ & _ & _ & Hlen & Hz & Hsame).
      simpl in Hout. subst out.
      rewrite to_ssize_small by lia.
      rewrite (Hsame ltac:(lia)).
      rewrite (all_zero_repeat tail bytes); [reflexivity | lia |].
      intros j Hj. apply Hz; lia.
    + destruct Hpost as (pos & Hp & Hs & _). lia.
  - intros bytes r st2 out Hb Hle Hrd.
    pose proof (read_post_call st bytes Hok ltac:(lia)) as Hpost. simpl in Hpost.
    rewrite Hrd, Hoff0 in Hpost.
    destruct Hpost as (_ & tail & Hout & _ & _ & _ & Hlen & Hz & _).
    simpl in Hout. subst out.
    pose proof (ok_track_start st Hok) as Hts0.
    apply all_zero_repeat.
    + rewrite length_firstn. lia.
    + intros j Hj. rewrite nth_firstn.
      destruct (Nat.ltb_spec (Z.to_nat j) (Z.to_nat (track_start st))); [| lia].
      apply Hz; lia.
  - rewrite <- Hchd. intros bytes Hlt Hle Hfit Hloads.
    pose proof (ok_track_start st Hok) as Hts0.
    pose proof (ok_track_end st Hok) as Hte0.
    assert (Hb : 0 <= bytes < 2 ^ 64) by lia.
    pose proof (read_post_call st bytes Hok Hb) as Hpost. simpl in Hpost.
    rewrite Hoff0 in Hpost.
    replace (Z.min bytes (track_end st - 0)) with bytes in Hpost by lia.
    destruct (chdstream_read st bytes) as [[[r st2] out] | | |] eqn:Hrd;
      try contradiction.
    2:{ destruct Hpost as (pos & Hp & Hs & Hnone). exfalso.
        apply (Hloads pos); [lia | exact Hnone]. }
    destruct Hpost as (-> & tail & Hout & _ & _ & _ & Hlen & Hz & _).
    simpl in Hout. subst out.
    assert (Hsound : cache_sound st).
    { right. split; [subst st; reflexivity |].
      rewrite Hoff0, Z.max_r by lia.
      apply (first_hunk_not_sentinel _ _ _ _ _ Hopen);
        [apply (ok_frame_size st Hok) | apply (ok_frames_per_hunk st Hok)]. }
    pose proof (read_sound st bytes _ st2 tail Hok Hsound Hb Hrd) as Hbytes.
    rewrite Hoff0 in Hbytes.
    exists st2, (skipn (Z.to_nat (track_start st)) tail).
    rewrite to_ssize_small by (unfold SSIZE_MAX in *; lia).
    split; [| split].
    + rewrite <- (all_zero_repeat (firstn (Z.to_nat (track_start st)) tail)
                    (track_start st)).
      * now rewrite firstn_skipn.
      * rewrite length_firstn. lia.
      * intros j Hj. rewrite nth_firstn.
        destruct (Nat.ltb_spec (Z.to_nat j) (Z.to_nat (track_start st))); [| lia].
        apply Hz; lia.
    + rewrite length_skipn. lia.
    + intros j Hj. split.
      * rewrite nth_skipn.
        replace (Z.to_nat (track_start st) + Z.to_nat j)%nat
          with (Z.to_nat (track_start st + j)) by lia.
        rewrite Hbytes by lia. reflexivity.
      * unfold stream_byte, hunk_image.
        destruct (Z.ltb_spec (track_start st + j) (track_start st)); [lia |].
        assert (Hmod : (track_start st + j) mod frame_size st = j mod frame_size st).
        { pose proof (ok_aligned st Hok) as Hal.
          pose proof (ok_frame_size st Hok) as Hfs1.
          rewrite Z.add_mod, Hal, Z.add_0_l, Z.mod_mod by lia. reflexivity. }
        rewrite Hmod.
        destruct (chd_read (chd st) (hunk_at st (track_start st + j)));
          reflexivity.
Qed.

Lemma open_track_geometry_witness :
  track_start cooked_stream = 2 * 16 /\
  track_end cooked_stream = 2 * 16 + 5 * 16 /\
  chdstream_read (set_offset cooked_stream 10) 20 =
    Ret (20, set_offset cooked_stream 30, repeat 0 20) /\
  exists st2 data,
    chdstream_read cooked_stream 40 = Ret (40, st2, repeat 0 32 ++ data) /\
    Z.of_nat (List.length data) = 8 /\
    nth 0 data 0 = 1 /\ nth 7 data 0 = 8.
Proof.
  destruct (open_track_geometry 4 (sample_storage cooked_disc) "disc.chd" 1
              cooked_stream cooked_stream_opened)
    as (meta & Hfind & _ & Hstart & Hend & Hpre & Hread).
  - simpl. lia.
  - assert (Hmeta : meta = snd (chdstream_get_meta cooked_disc 0)).
    { change (chdstream_find_track 4 (chd cooked_stream) 1)
        with (Ret (true, snd (chdstream_get_meta cooked_disc 0)))
        in Hfind.
      inversion Hfind. reflexivity. }
    subst meta.
    split; [exact Hstart |].
    split; [apply Hend; simpl; lia |].
    split.
    + apply (Hpre (set_offset cooked_stream 10) 20).
      * apply same_geometry_set_offset.
      * simpl. lia.
      * lia.
      * vm_compute. discriminate.
      * simpl. lia.
    + destruct Hread as (_ & _ & _ & Hcross); try (simpl; lia).
      destruct (Hcross 40) as (st2 & data & Hrd & Hlen & Hdata).
      * simpl. lia.
      * simpl. lia.
      * vm_compute. discriminate.
      * intros pos _. discriminate.
      * exists st2, data. split; [exact Hrd |]. split; [exact Hlen |].
        split.
        -- destruct (Hdata 0 ltac:(simpl; lia)) as [H0 _].
           transitivity (stream_byte cooked_stream (track_start cooked_stream + 0));
             [exact H0 | reflexivity].
        -- destruct (Hdata 7 ltac:(simpl; lia)) as [H7 _].
           transitivity (stream_byte cooked_stream (track_start cooked_stream + 7));
             [exact H7 | reflexivity].
Defined.

(** ** Failing hunk loads *)

Example broken_stream_opened :
  chdstream_open 4 (sample_storage broken_disc) "disc.chd" 1
  = Ret (Some (set_offset broken_stream 0)).
Proof. reflexivity. Qed.

(** A read on a well-formed stream either returns a count that is not
    negative or ends in [abort()]: no failure is reported as a value. *)
Lemma read_returns_or_aborts (st : chdstream) (bytes : Z) :
  stream_ok st -> 0 <= bytes < 2 ^ 64 ->
  Z.min bytes (track_end st - offset st) <= SSIZE_MAX ->
  chdstream_read st bytes = Aborted \/
  exists st' out,
    chdstream_read st bytes = Ret (Z.min bytes (track_end st - offset st), st', out).
Proof.
  intros Hok Hb Hfit.
  pose proof (read_post_call st bytes Hok Hb) as Hpost. simpl in Hpost.
  pose proof (ok_offset st Hok) as Ho.
  destruct (chdstream_read st bytes) as [[[r st'] out] | | |]; try contradiction.
  - right. destruct Hpost as (-> & _). rewrite to_ssize_small by lia. eauto.
  - left. reflexivity.
Qed.

(** Whenever the first chunk of a read lies in the track data and its hunk
    is neither cached nor supplied by the engine, the call ends in
    [abort()]. *)
Lemma read_aborts_when_load_fails (st : chdstream) (bytes : Z) :
  stream_ok st -> 0 < bytes < 2 ^ 64 ->
  track_start st <= offset st < track_end st ->
  hunk_at st (offset st) <> wrap32 (hunknum st) ->
  chd_read (chd st) (hunk_at st (offset st)) = None ->
  chdstream_read st bytes = Aborted.
Proof.
  intros Hok Hb Hpos Hmiss Hfail.
  rewrite read_unfold by (assumption || lia). simpl.
  set (n := Z.min bytes (track_end st - offset st)).
  assert (Hn : 0 < n) by (unfold n; lia).
  destruct (Z.to_nat n) as [| fuel] eqn:Hfuel; [lia |].
  simpl. destruct (Z.ltb_spec (offset st) (offset st + n)); [| lia].
  destruct (read_chunk_data st (offset st + n) Hok ltac:(unfold n in *; lia)
              ltac:(lia)) as (-> & _).
  unfold chdstream_load_hunk.
  destruct (Z.eqb_spec (hunk_at st (offset st)) (wrap32 (hunknum st)));
    [contradiction |].
  rewrite Hfail. reflexivity.
Qed.

(** C3 (the code departs from it).  The engine supplies hunk 0 of
    [broken_disc] and fails on hunk 1.  A read of the first four frames of
    the track returns their 64 bytes; a read of all five frames copies the
    same four frames and then, on the failed load of hunk 1, ends in
    [abort()]: the process is terminated and no result value, -1 or other,
    reaches the caller. *)
Theorem read_aborts_on_failed_load :
  chd_read (chd broken_stream) 1 = None /\
  read_view (chdstream_read broken_stream 64) = Ret (64, 96, [0], sample_hunk 0) /\
  chdstream_read broken_stream 80 = Aborted.
Proof.
  split; [reflexivity |]. split; vm_compute; reflexivity.
Qed.

(** ** Single-byte read *)

(** The byte count passed by [chdstream_getc] is [sizeof(c) != sizeof(c)],
    that is 0: the read moves nothing and reports 0 bytes, which the test
    takes for success, so the initial value of [c] is returned. *)
Lemma getc_returns_zero (st : chdstream) :
  0 <= offset st < 2 ^ 64 -> chdstream_getc st = Ret (0, st).
Proof.
  intros Ho. unfold chdstream_getc, chdstream_read.
  cbn [Z.eqb Pos.eqb negb Z.b2z].
  pose proof (wrap64_range (track_end st - offset st)) as Hr.
  destruct (Z.ltb_spec (wrap64 (track_end st - offset st)) 0); [lia |].
  rewrite Z.add_0_r, wrap64_small by lia.
  cbn [Z.to_nat read_loop]. rewrite Z.ltb_irrefl. reflexivity.
Qed.

(** C4 (the code departs from it).  With the cursor at the start of the
    track data of [cooked_stream] a read of one byte delivers the byte 1 and
    moves the cursor to 33, yet [chdstream_getc] returns 0 and leaves the
    cursor at 32; with the cursor at [track_end] it returns 0 again, not
    [EOF]. *)
Theorem getc_reads_no_byte :
  read_view (chdstream_read (set_offset cooked_stream 32) 1) = Ret (1, 33, [0], [1]) /\
  chdstream_getc (set_offset cooked_stream 32) = Ret (0, set_offset cooked_stream 32) /\
  chdstream_tell (set_offset cooked_stream 112) = track_end cooked_stream /\
  chdstream_getc (set_offset cooked_stream 112) = Ret (0, set_offset cooked_stream 112).
Proof.
  split; [vm_compute; reflexivity |].
  split; [apply getc_returns_zero; simpl; lia |].
  split; [reflexivity |].
  apply getc_returns_zero; simpl; lia.
Qed.

(** ** Bounded slurp *)

(** What the loop does with the single-byte read as it is: it stores zeros
    until [len] bytes are stored and never moves the cursor. *)
Lemma gets_loop_zeros (fuel : nat) :
  forall st len off buffer,
    0 <= offset st < 2 ^ 64 -> 0 <= off <= len -> len - off <= Z.of_nat fuel ->
    gets_loop chdstream_getc fuel st len off buffer
    = Ret (st, len, buffer ++ repeat 0 (Z.to_nat (len - off))).
Proof.
  induction fuel as [| fuel IH]; intros st len off buffer Ho Hoff Hfuel; simpl.
  - destruct (Z.ltb_spec off len); [lia |].
    replace (len - off) with 0 by lia. simpl. rewrite app_nil_r.
    f_equal. f_equal. f_equal. lia.
  - destruct (Z.ltb_spec off len).
    + rewrite getc_returns_zero by assumption. simpl.
      rewrite IH by lia. rewrite <- app_assoc. simpl.
      replace (Z.to_nat (len - off)) with (S (Z.to_nat (len - (off + 1)))) by lia.
      reflexivity.
    + replace (len - off) with 0 by lia. simpl. rewrite app_nil_r.
      f_equal. f_equal. f_equal. lia.
Qed.

(** C9 as stated fails on the bound: with [len = 4] the loop stores four
    bytes, not three, and leaves no room for the terminator. *)
Lemma slurp_stores_len_bytes : ~ slurp_as_stated cooked_stream 4.
Proof.
  intros (st' & off & buffer & Hrun & Hlen & Hle).
  rewrite gets_loop_zeros in Hrun by (simpl; lia).
  inversion Hrun; subst. lia.
Qed.

Section GetsLoop.
Variable g : chdstream -> outcome (Z * chdstream).
(** A set of streams that [g] stays in and on which it returns. *)
Variable inv : chdstream -> Prop.
Hypothesis g_returns :
  forall st, inv st -> exists c st', g st = Ret (c, st') /\ inv st'.

Lemma reads_of_snoc (st : chdstream) cs st1 c st2 :
  reads_of g st cs st1 -> g st1 = Ret (c, st2) -> c <> EOF ->
  reads_of g st (cs ++ [c]) st2.
Proof.
  intros Hr Hg Hc. induction Hr as [st | st c0 st1 cs st2' Hg0 Hc0 _ IH]; simpl.
  - econstructor; eauto. constructor.
  - econstructor; eauto.
Qed.

(** The loop, started after the reads [cs0] with [off] bytes stored, stops
    with [len] bytes stored or at the first [EOF]. *)
Lemma gets_loop_reads (fuel : nat) :
  forall st0 cs0 st off buffer len,
    inv st -> reads_of g st0 cs0 st ->
    0 <= off <= len -> len - off <= Z.of_nat fuel ->
    off = Z.of_nat (List.length cs0) ->
    buffer = map (fun c => c mod 256) cs0 ->
    exists cs st1 st',
      reads_of g st0 cs st1 /\
      gets_loop g fuel st len off buffer
      = Ret (st', Z.of_nat (List.length cs), map (fun c => c mod 256) cs) /\
      Z.of_nat (List.length cs) <= len /\
      (Z.of_nat (List.length cs) < len -> g st1 = Ret (EOF, st')) /\
      (Z.of_nat (List.length cs) = len -> st' = st1).
Proof.
  induction fuel as [| fuel IH];
    intros st0 cs0 st off buffer len Hinv Hreads Hoff Hfuel Hlen Hbuf.
  - simpl. destruct (Z.ltb_spec off len); [lia |].
    exists cs0, st, st. subst. split_and; auto; lia.
  - simpl. destruct (Z.ltb_spec off len) as [Hlt | Hge].
    2:{ exists cs0, st, st. subst. split_and; auto; lia. }
    destruct (g_returns st Hinv) as (c & st1 & Hg & Hinv1).
    rewrite Hg. simpl.
    destruct (Z.eqb_spec c EOF) as [-> | Hne].
    + exists cs0, st, st1. subst. split_and; auto; lia.
    + apply (IH st0 (cs0 ++ [c]) st1); auto.
      * eapply reads_of_snoc; eauto.
      * lia.
      * lia.
      * rewrite length_app. simpl. lia.
      * rewrite map_app. subst. reflexivity.
Qed.
End GetsLoop.

(** The loop is determined by what the single-byte reads return: after the
    values [cs], none of them [EOF], it stops when [len] bytes are stored or
    when the next call returns [EOF]. *)
Lemma gets_loop_trace (g : chdstream -> outcome (Z * chdstream)) (len : Z) :
  forall st cs st1,
    reads_of g st cs st1 ->
    forall (fuel : nat) (off : Z) (buffer : list Z) st',
      0 <= off -> off + Z.of_nat (List.length cs) <= len ->
      (off + Z.of_nat (List.length cs) < len -> g st1 = Ret (EOF, st')) ->
      (off + Z.of_nat (List.length cs) = len -> st' = st1) ->
      len - off <= Z.of_nat fuel ->
      gets_loop g fuel st len off buffer
      = Ret (st', off + Z.of_nat (List.length cs),
             buffer ++ map (fun c => c mod 256) cs).
Proof.
  intros st cs st1 Hreads.
  induction Hreads as [st | st c st1 cs st2 Hg Hc Hreads IH];
    intros fuel off buffer st' Hoff Hle Heof Hfull Hfuel.
  - simpl in *. rewrite Z.add_0_r in *. rewrite app_nil_r.
    destruct fuel as [| fuel]; simpl.
    + destruct (Z.ltb_spec off len); [lia |].
      rewrite (Hfull ltac:(lia)). reflexivity.
    + destruct (Z.ltb_spec off len) as [Hlt | Hge].
      * rewrite (Heof Hlt). simpl. reflexivity.
      * rewrite (Hfull ltac:(lia)). reflexivity.
  - cbn [List.length] in *.
    destruct fuel as [| fuel]; [lia |]. simpl.
    destruct (Z.ltb_spec off len); [| lia].
    rewrite Hg. simpl.
    destruct (Z.eqb_spec c EOF); [contradiction |].
    rewrite (IH fuel (off + 1) (buffer ++ [c mod 256]) st');
      [| lia | lia | intros; apply Heof; lia | intros; apply Hfull; lia | lia].
    rewrite <- app_assoc. simpl. do 3 f_equal. lia.
Qed.

(** C9, amended.  For every stream and every length [len], the bounded slurp
    calls the single-byte read until [len] values have been stored or a call
    reports end-of-stream; it stores the values returned in the buffer in
    order, and writes a null terminator after them exactly when fewer than
    [len] were stored, that is, if room remains.  This holds of the loop for
    whatever the single-byte read returns; with [chdstream_getc] as it is,
    such a run exists from every stream. *)
Theorem gets_stores_up_to_len :
  (forall (g : chdstream -> outcome (Z * chdstream)) st len cs st1 st',
      0 <= len < 2 ^ 64 ->
      reads_of g st cs st1 ->
      Z.of_nat (List.length cs) <= len ->
      (Z.of_nat (List.length cs) < len -> g st1 = Ret (EOF, st')) ->
      (Z.of_nat (List.length cs) = len -> st' = st1) ->
      gets_with g st len =
        Ret (map (fun c => c mod 256) cs
             ++ (if Z.of_nat (List.length cs) <? len then [0] else []),
             st')) /\
  (forall st len,
      0 <= offset st < 2 ^ 64 -> 0 <= len < 2 ^ 64 ->
      exists cs st1 st',
        reads_of chdstream_getc st cs st1 /\
        chdstream_gets st len =
          Ret (map (fun c => c mod 256) cs
               ++ (if Z.of_nat (List.length cs) <? len then [0] else []),
               st') /\
        Z.of_nat (List.length cs) <= len /\
        (Z.of_nat (List.length cs) < len -> chdstream_getc st1 = Ret (EOF, st')) /\
        (Z.of_nat (List.length cs) = len -> st' = st1)).
Proof.
  split.
  - intros g st len cs st1 st' Hlen Hreads Hle Heof Hfull.
    unfold gets_with.
    rewrite (gets_loop_trace g len st cs st1 Hreads (Z.to_nat len) 0 [] st')
      by (auto; lia).
    simpl. destruct (Z.ltb_spec (Z.of_nat (List.length cs)) len); [reflexivity |].
    now rewrite app_nil_r.
  - intros st len Ho Hlen.
    destruct (gets_loop_reads chdstream_getc (fun s => 0 <= offset s < 2 ^ 64))
      with (fuel := Z.to_nat len) (st0 := st) (cs0 := @nil Z) (st := st)
           (off := 0) (buffer := @nil Z) (len := len)
      as (cs & st1 & st' & Hreads & Hrun & Hle & Heof & Hfull);
      try (simpl; lia); auto.
    + intros s Hs. exists 0, s. split; [now apply getc_returns_zero | exact Hs].
    + constructor.
    + exists cs, st1, st'. split_and; auto.
      unfold chdstream_gets, gets_with. rewrite Hrun. simpl.
      destruct (Z.ltb_spec (Z.of_nat (List.length cs)) len); [reflexivity |].
      now rewrite app_nil_r.
Qed.

Lemma gets_stores_up_to_len_witness :
  (exists st',
      gets_with getc_as_stated (set_offset cooked_stream 110) 4
      = Ret ([79; 80; 0], st')) /\
  (exists cs st1 st',
      reads_of chdstream_getc cooked_stream cs st1 /\
      chdstream_gets cooked_stream 4 =
        Ret (map (fun c => c mod 256) cs
             ++ (if Z.of_nat (List.length cs) <? 4 then [0] else []),
             st') /\
      Z.of_nat (List.length cs) <= 4 /\
      (Z.of_nat (List.length cs) < 4 -> chdstream_getc st1 = Ret (EOF, st')) /\
      (Z.of_nat (List.length cs) = 4 -> st' = st1)).
Proof.
  destruct gets_stores_up_to_len as [Hloop Hcode].
  split.
  - eexists.
    eapply (Hloop getc_as_stated (set_offset cooked_stream 110) 4 [79; 80]).
    + lia.
    + eapply reads_cons; [reflexivity | discriminate |].
      eapply reads_cons; [reflexivity | discriminate |].
      apply reads_nil.
    + simpl. lia.
    + intros _. reflexivity.
    + simpl. lia.
  - apply (Hcode cooked_stream 4); simpl; lia.
Defined.

(** ** Track selectors *)

Lemma chd_get_metadata_In (l : list track_text) (i : Z) (t : track_text) :
  chd_get_metadata l i = Some t -> In t l.
Proof.
  unfold chd_get_metadata. destruct (i <? 0); [discriminate |].
  apply nth_error_In.
Qed.

(** A record that [chdstream_get_meta] does not find is left zeroed by the
    [memset]; one that it finds has the type of a record of the container. *)
Lemma get_meta_cases (fd : chd_file) (i : Z) :
  chdstream_get_meta fd i = (false, metadata_zero) \/
  exists t m, In t (records fd) /\ chdstream_get_meta fd i = (true, m) /\
              m_type m = t_type t.
Proof.
  unfold chdstream_get_meta, records.
  destruct (chd_get_metadata (cdrom2_meta fd) i) as [t |] eqn:H2.
  { right. eexists t, _. split; [| split; reflexivity].
    apply in_or_app. left. eapply chd_get_metadata_In; eauto. }
  destruct (chd_get_metadata (cdrom_meta fd) i) as [t |] eqn:H1.
  { right. eexists t, _. split; [| split; reflexivity].
    apply in_or_app. right. apply in_or_app. left.
    eapply chd_get_metadata_In; eauto. }
  destruct (chd_get_metadata (gdrom_meta fd) i) as [t |] eqn:H0.
  { right. eexists t, _. split; [| split; reflexivity].
    apply in_or_app. right. apply in_or_app. right.
    eapply chd_get_metadata_In; eauto. }
  left. reflexivity.
Qed.

Lemma find_track_number_loop_cases (fuel : nat) :
  forall fd track i fo b m,
    find_track_number_loop fuel fd track i fo = Ret (b, m) ->
    (b = false /\ m = metadata_zero) \/
    (b = true /\ exists t, In t (records fd) /\ m_type m = t_type t).
Proof.
  induction fuel as [| fuel IH]; intros fd track i fo b m H; simpl in H.
  - discriminate.
  - destruct (get_meta_cases fd i) as [Hz | (t & meta & Hin & Hg & Hty)].
    + rewrite Hz in H. inversion H; subst. auto.
    + rewrite Hg in H.
      destruct (wrap32 track =? m_track meta).
      * inversion H; subst. right. split; [reflexivity |]. exists t. auto.
      * eapply IH; eauto.
Qed.

Lemma find_track_number_cases (fd : chd_file) (track : Z) b m :
  chdstream_find_track_number fd track = Ret (b, m) ->
  (b = false /\ m = metadata_zero) \/
  (b = true /\ exists t, In t (records fd) /\ m_type m = t_type t).
Proof. apply find_track_number_loop_cases. Qed.

(** Whatever the container, a LAST lookup that returns hands back the record
    zeroed by the failed lookup that ended the scan. *)
Lemma last_returns_zeroed (fuel : nat) :
  forall fd i lt ls b m,
    find_special_track_loop fuel fd CHDSTREAM_TRACK_LAST i lt ls = Ret (b, m) ->
    b = true /\ m = metadata_zero.
Proof.
  induction fuel as [| fuel IH]; intros fd i lt ls b m H; simpl in H.
  - discriminate.
  - destruct (chdstream_find_track_number fd i) as [[found iter] | | |] eqn:Hf;
      simpl in H; try discriminate.
    destruct (find_track_number_cases _ _ _ _ Hf) as [[-> ->] | [-> _]];
      simpl in H.
    + destruct (1 <? i); simpl in H.
      * inversion H. auto.
      * destruct (i =? INT32_MAX); [discriminate |]. eapply IH; eauto.
    + destruct (i =? INT32_MAX); [discriminate |]. eapply IH; eauto.
Qed.

(** C5 (the code departs from it).  On the three-track [cooked_disc] track 3
    is found by number with the frame offset [(5 + 3) + (3 + 1) = 12]
    accumulated over tracks 1 and 2, yet the LAST selector reports success
    with a record that is all zero (track number 0, no frames, frame offset
    0): what it copies out is the record that the failed lookup of track 4
    has just cleared. *)
Theorem last_selector_yields_zeroed_record :
  chdstream_find_track 4 cooked_disc 3 =
    Ret (true,
         {| m_type := "MODE1"; m_subtype := "NONE"; m_pgtype := "VAUDIO";
            m_pgsub := "NONE"; m_frame_offset := 12; m_frames := 7; m_pad := 0;
            m_extra := 1; m_pregap := 1; m_postgap := 0; m_track := 3 |}) /\
  chdstream_find_track 4 cooked_disc CHDSTREAM_TRACK_LAST = Ret (true, metadata_zero) /\
  forall fuel, chdstream_find_track (4 + fuel) cooked_disc CHDSTREAM_TRACK_LAST
               = Ret (true, metadata_zero).
Proof.
  split; [reflexivity |]. split; [reflexivity |].
  intros fuel. reflexivity.
Qed.

Lemma find_track_number_loop_no_abort (fuel : nat) :
  forall fd track i fo, find_track_number_loop fuel fd track i fo <> Aborted.
Proof.
  induction fuel as [| fuel IH]; intros fd track i fo; simpl; [discriminate |].
  destruct (chdstream_get_meta fd i) as [[|] meta]; [| discriminate].
  destruct (wrap32 track =? m_track meta); [discriminate | apply IH].
Qed.

(** On a container without a non-AUDIO record the PRIMARY scan never
    records a candidate, so it has no way out: it goes on until the counter
    overflows. *)
Lemma primary_never_returns (fd : chd_file) :
  Forall (fun t => t_type t = "AUDIO"%string) (records fd) ->
  forall fuel i,
    find_special_track_loop fuel fd CHDSTREAM_TRACK_PRIMARY i 0 0 = OutOfFuel \/
    find_special_track_loop fuel fd CHDSTREAM_TRACK_PRIMARY i 0 0 = Undef.
Proof.
  intros Haudio. rewrite Forall_forall in Haudio.
  induction fuel as [| fuel IH]; intros i; simpl; [auto |].
  destruct (chdstream_find_track_number fd i) as [[found iter] | | |] eqn:Hf;
    simpl; auto.
  - destruct (find_track_number_cases _ _ _ _ Hf) as [[-> ->] | [-> (t & Hin & Hty)]];
      simpl.
    + destruct (i =? INT32_MAX); [auto | apply IH].
    + rewrite Hty, (Haudio t Hin). simpl.
      destruct (i =? INT32_MAX); [auto | apply IH].
  - exfalso. revert Hf. apply find_track_number_loop_no_abort.
Qed.

(** On such a container a FIRST_DATA lookup that returns reports success
    with the zeroed record of the first failed lookup. *)
Lemma first_data_returns_zeroed (fd : chd_file) :
  Forall (fun t => t_type t = "AUDIO"%string) (records fd) ->
  forall fuel i lt ls b m,
    find_special_track_loop fuel fd CHDSTREAM_TRACK_FIRST_DATA i lt ls = Ret (b, m) ->
    b = true /\ m = metadata_zero.
Proof.
  intros Haudio. rewrite Forall_forall in Haudio.
  induction fuel as [| fuel IH]; intros i lt ls b m H; simpl in H; [discriminate |].
  destruct (chdstream_find_track_number fd i) as [[found iter] | | |] eqn:Hf;
    simpl in H; try discriminate.
  destruct (find_track_number_cases _ _ _ _ Hf) as [[-> ->] | [-> (t & Hin & Hty)]];
    simpl in H.
  - inversion H. auto.
  - rewrite Hty, (Haudio t Hin) in H. simpl in H.
    destruct (i =? INT32_MAX); [discriminate |]. eapply IH; eauto.
Qed.

Example primary_finds_largest_data_track :
  chdstream_find_track 4 mixed_disc CHDSTREAM_TRACK_PRIMARY =
    Ret (true,
         {| m_type := "MODE1_RAW"; m_subtype := "NONE"; m_pgtype := "MODE1_RAW";
            m_pgsub := "NONE"; m_frame_offset := 200; m_frames := 500; m_pad := 0;
            m_extra := 0; m_pregap := 0; m_postgap := 0; m_track := 2 |}).
Proof. reflexivity. Qed.

(** C6 (the code departs from it).  [audio_only_disc] has two AUDIO records
    and no other.  The FIRST_DATA selector does not report not_found: after
    the two audio tracks the lookup of track 3 fails, and its zeroed record,
    whose type is not "AUDIO", is returned as found.  The PRIMARY selector
    does not report not_found either: it returns for no number of turns. *)
Theorem data_selectors_on_audio_only_disc :
  chdstream_find_track 4 audio_only_disc CHDSTREAM_TRACK_FIRST_DATA
  = Ret (true, metadata_zero) /\
  forall fuel,
    chdstream_find_track fuel audio_only_disc CHDSTREAM_TRACK_PRIMARY = OutOfFuel \/
    chdstream_find_track fuel audio_only_disc CHDSTREAM_TRACK_PRIMARY = Undef.
Proof.
  split; [reflexivity |].
  intros fuel. apply primary_never_returns.
  repeat constructor.
Qed.

(** * Further properties of the unit *)

(** ** Padding between tracks *)

(** X1.  [padding_frames] rounds a frame count up to the next multiple of
    [TRACK_PAD]: for every 32-bit count it returns [(- frames) mod 4], a
    value below 4 that is 0 exactly for a multiple of 4; this holds also for
    the three largest counts, where [frames + 3] wraps around. *)
Theorem padding_frames_rounds_up (frames : Z) :
  0 <= frames < 2 ^ 32 ->
  padding_frames frames = (- frames) mod 4 /\
  0 <= padding_frames frames < 4 /\
  (frames + padding_frames frames) mod 4 = 0 /\
  (padding_frames frames = 0 <-> frames mod 4 = 0).
Proof.
  intros Hf. rewrite (padding_frames_value frames Hf).
  repeat split; try (Z.div_mod_to_equations; lia).
Qed.

Lemma padding_frames_rounds_up_witness :
  padding_frames 4294967295 = 1 /\ padding_frames 100 = 0 /\ padding_frames 5 = 3.
Proof.
  destruct (padding_frames_rounds_up 4294967295) as [H1 _]; [lia |].
  destruct (padding_frames_rounds_up 100) as [H2 _]; [lia |].
  destruct (padding_frames_rounds_up 5) as [H3 _]; [lia |].
  rewrite H1, H2, H3. repeat split.
Defined.

(** ** Lookup of a track by number *)

(** X2.  [chdstream_find_track_number] always returns.  It reports a track
    as found exactly when a scanned record carries its number (compared as
    [uint32_t]); it then yields the first such record, with [frame_offset]
    set to the frames, padding included, of all the records before it
    (modulo 2^32).  Otherwise it yields the zeroed record. *)
Theorem find_track_number_first_match (fd : chd_file) (track : Z) :
  exists b m,
    chdstream_find_track_number fd track = Ret (b, m) /\
    (b = true <-> exists p, In p (scanned fd) /\ m_track p = wrap32 track) /\
    (b = true ->
     exists pre m0 post,
       scanned fd = pre ++ m0 :: post /\
       (forall p, In p pre -> m_track p <> wrap32 track) /\
       m_track m0 = wrap32 track /\
       m = set_frame_offset m0 (wrap32 (frames_of pre))) /\
    (b = false -> m = metadata_zero).
Proof.
  pose proof (find_track_number_post fd track) as Hpost.
  destruct (chdstream_find_track_number fd track) as [[[|] m] | | |];
    simpl in Hpost; try contradiction.
  - destruct Hpost as (pre & m0 & post & Hsplit & Hpre & Hm0 & Hm).
    exists true, m. split; [reflexivity |]. split; [| split].
    + split; [| reflexivity]. intros _. exists m0. split; [| exact Hm0].
      rewrite Hsplit. apply in_or_app. right. now left.
    + intros _. exists pre, m0, post. auto.
    + discriminate.
  - destruct Hpost as (Hm & Habsent).
    exists false, m. split; [reflexivity |]. split; [| split].
    + split; [discriminate |]. intros (p & Hp & Ht). exfalso. exact (Habsent p Hp Ht).
    + discriminate.
    + auto.
Qed.

(** ** Where a track starts in the container *)

(** X3.  Whatever the selector, the track that [chdstream_open] resolves
    starts on a 4-frame boundary of the container: the [track_frame] of an
    opened stream is a multiple of [TRACK_PAD], every record before it
    occupying its frames rounded up to a multiple of 4. *)
Theorem opened_track_starts_on_pad_boundary
    (fuel : nat) (sys : storage) (path : string) (track : Z) (st : chdstream) :
  chdstream_open fuel sys path track = Ret (Some st) ->
  track_frame st mod TRACK_PAD = 0.
Proof.
  intros Hopen.
  destruct (open_inv _ _ _ _ _ Hopen) as (fd & meta & _ & Hfind & _ & ->).
  simpl. unfold chdstream_find_track, chdstream_find_special_track in Hfind.
  destruct (track <? 0).
  - eapply find_special_track_loop_aligned; eauto.
  - eapply find_track_number_aligned; eauto.
Qed.

Lemma opened_track_starts_on_pad_boundary_witness :
  track_frame audio_stream mod TRACK_PAD = 0.
Proof.
  exact (opened_track_starts_on_pad_boundary
           4 (sample_storage audio_disc) "disc.chd" 2 audio_stream
           audio_stream_opened).
Defined.

(** ** Symbolic selectors *)

Lemma find_track_number_loop_congr (fuel : nat) :
  forall fd t1 t2 i fo,
    wrap32 t1 = wrap32 t2 ->
    find_track_number_loop fuel fd t1 i fo = find_track_number_loop fuel fd t2 i fo.
Proof.
  induction fuel as [| fuel IH]; intros fd t1 t2 i fo Heq; simpl; [reflexivity |].
  destruct (chdstream_get_meta fd i) as [[|] meta]; [| reflexivity].
  rewrite Heq. destruct (wrap32 t2 =? m_track meta); [reflexivity |].
  now apply IH.
Qed.

Lemma wrap32_idem (x : Z) : wrap32 (wrap32 x) = wrap32 x.
Proof. apply wrap32_small, wrap32_range. Qed.

(** Looking up the number carried by a found record finds a record again. *)
Lemma find_track_number_again (fd : chd_file) (i : Z) (iter : metadata_t) :
  chdstream_find_track_number fd i = Ret (true, iter) ->
  chdstream_find_track_number fd (to_int32 (m_track iter)) = Ret (true, iter).
Proof.
  intros H. pose proof (find_track_number_post fd i) as Hpost.
  rewrite H in Hpost. simpl in Hpost.
  destruct Hpost as (pre & m0 & post & _ & _ & Hm0 & ->).
  rewrite <- H. unfold chdstream_find_track_number.
  apply find_track_number_loop_congr. simpl.
  rewrite wrap32_to_int32, Hm0. apply wrap32_idem.
Qed.

Lemma find_track_number_not_found (fd : chd_file) (i : Z) (iter : metadata_t) :
  chdstream_find_track_number fd i = Ret (false, iter) -> iter = metadata_zero.
Proof.
  intros H. destruct (find_track_number_cases _ _ _ _ H) as [[_ ->] | [Hb _]];
    [reflexivity | discriminate].
Qed.

Lemma find_special_track_loop_found (fuel : nat) :
  forall fd track i lt ls b m,
    (lt = 0 \/ exists m', chdstream_find_track_number fd lt = Ret (true, m')) ->
    0 <= ls ->
    find_special_track_loop fuel fd track i lt ls = Ret (b, m) -> b = true.
Proof.
  induction fuel as [| fuel IH]; intros fd track i lt ls b m Hlt Hls H; simpl in H.
  - discriminate.
  - destruct (chdstream_find_track_number fd i) as [[found iter] | | |] eqn:Hf;
      simpl in H; try discriminate.
    destruct (negb found && (track =? CHDSTREAM_TRACK_LAST) && (1 <? i)).
    { now inversion H. }
    destruct (negb found && (track =? CHDSTREAM_TRACK_PRIMARY) && negb (lt =? 0))
      eqn:Hprim.
    { destruct Hlt as [-> | [m' Hm']].
      - rewrite Z.eqb_refl in Hprim. simpl in Hprim.
        rewrite andb_false_r in Hprim. discriminate.
      - rewrite Hm' in H. now inversion H. }
    destruct ((track =? CHDSTREAM_TRACK_FIRST_DATA) && negb (is_audio (m_type iter))).
    { now inversion H. }
    destruct (i =? INT32_MAX); [discriminate |].
    destruct ((track =? CHDSTREAM_TRACK_PRIMARY) && negb (is_audio (m_type iter))
              && (ls <? m_frames iter)) eqn:Hupd.
    + apply andb_prop in Hupd as [_ Hgt]. apply Z.ltb_lt in Hgt.
      destruct found.
      * eapply IH; [| | exact H]; [| lia].
        right. exists iter. now apply find_track_number_again with (i := i).
      * apply find_track_number_not_found in Hf. subst iter. simpl in Hgt. lia.
    + eapply IH; eauto.
Qed.

(** X4.  The lookup by a symbolic selector never reports "not found": when
    [chdstream_find_special_track] returns, whatever the container and the
    (negative) selector, it returns [true]. *)
Theorem find_special_track_never_fails
    (fuel : nat) (fd : chd_file) (track : Z) (m : metadata_t) :
  chdstream_find_special_track fuel fd track <> Ret (false, m).
Proof.
  intros H. unfold chdstream_find_special_track in H.
  apply find_special_track_loop_found in H; [discriminate | now left | lia].
Qed.

Lemma find_special_track_never_fails_witness :
  chdstream_find_special_track 4 audio_only_disc CHDSTREAM_TRACK_FIRST_DATA
  <> Ret (false, metadata_zero).
Proof.
  exact (find_special_track_never_fails
           4 audio_only_disc CHDSTREAM_TRACK_FIRST_DATA metadata_zero).
Defined.

Lemma first_data_loop (fd : chd_file) (k : Z) (b : bool) (m : metadata_t) (fuel : nat) :
  k <= INT32_MAX ->
  (forall i, 1 <= i < k ->
     exists bi mi, chdstream_find_track_number fd i = Ret (bi, mi) /\
                   is_audio (m_type mi) = true) ->
  chdstream_find_track_number fd k = Ret (b, m) ->
  is_audio (m_type m) = false ->
  forall i lt ls,
    1 <= i <= k -> k - i < Z.of_nat fuel ->
    find_special_track_loop fuel fd CHDSTREAM_TRACK_FIRST_DATA i lt ls = Ret (true, m).
Proof.
  intros Hk Haudio Hlookup Hdata.
  induction fuel as [| fuel IH]; intros i lt ls Hi Hfuel; [lia |].
  cbn [find_special_track_loop].
  destruct (Z.eq_dec i k) as [-> | Hne].
  - rewrite Hlookup. cbn [bind]. rewrite Hdata.
    change (CHDSTREAM_TRACK_FIRST_DATA =? CHDSTREAM_TRACK_LAST) with false.
    change (CHDSTREAM_TRACK_FIRST_DATA =? CHDSTREAM_TRACK_PRIMARY) with false.
    rewrite !andb_false_r. cbn [andb negb].
    rewrite Z.eqb_refl. reflexivity.
  - destruct (Haudio i ltac:(lia)) as (bi & mi & -> & Hmi). cbn [bind]. rewrite Hmi.
    change (CHDSTREAM_TRACK_FIRST_DATA =? CHDSTREAM_TRACK_LAST) with false.
    change (CHDSTREAM_TRACK_FIRST_DATA =? CHDSTREAM_TRACK_PRIMARY) with false.
    rewrite !andb_false_r. cbn [andb negb].
    destruct (Z.eqb_spec i INT32_MAX); [lia |].
    apply IH; lia.
Qed.

(** X5.  The FIRST_DATA selector walks the track numbers 1, 2, ... and
    resolves to the record of the first number [k] whose lookup does not
    yield an AUDIO record: when the tracks 1 .. k-1 are audio tracks, it
    returns what the lookup of [k] by number returns, frame offset included
    (the zeroed record if there is no track [k]). *)
Theorem first_data_resolves_first_non_audio
    (fd : chd_file) (k : Z) (fuel : nat) (b : bool) (m : metadata_t) :
  1 <= k <= INT32_MAX -> k <= Z.of_nat fuel ->
  (forall i, 1 <= i < k ->
     exists bi mi, chdstream_find_track_number fd i = Ret (bi, mi) /\
                   is_audio (m_type mi) = true) ->
  chdstream_find_track_number fd k = Ret (b, m) ->
  is_audio (m_type m) = false ->
  chdstream_find_track fuel fd CHDSTREAM_TRACK_FIRST_DATA = Ret (true, m).
Proof.
  intros Hk Hfuel Haudio Hlookup Hdata.
  unfold chdstream_find_track, chdstream_find_special_track.
  change (CHDSTREAM_TRACK_FIRST_DATA <? 0) with true. cbv iota.
  eapply first_data_loop; eauto; lia.
Qed.

Lemma first_data_resolves_first_non_audio_witness :
  chdstream_find_track 4 mixed_disc CHDSTREAM_TRACK_FIRST_DATA =
    Ret (true,
         {| m_type := "MODE1_RAW"; m_subtype := "NONE"; m_pgtype := "MODE1_RAW";
            m_pgsub := "NONE"; m_frame_offset := 200; m_frames := 500; m_pad := 0;
            m_extra := 0; m_pregap := 0; m_postgap := 0; m_track := 2 |}).
Proof.
  apply (first_data_resolves_first_non_audio mixed_disc 2 4 true).
  - unfold INT32_MAX. lia.
  - lia.
  - intros i Hi. assert (i = 1) as -> by lia.
    eexists. eexists. split; reflexivity.
  - reflexivity.
  - reflexivity.
Defined.

Lemma find_track_number_track (fd : chd_file) (i : Z) (m : metadata_t) :
  chdstream_find_track_number fd i = Ret (true, m) -> m_track m = wrap32 i.
Proof.
  intros H. pose proof (find_track_number_post fd i) as Hpost.
  rewrite H in Hpost. simpl in Hpost.
  destruct Hpost as (pre & m0 & post & _ & _ & Hm0 & ->). exact Hm0.
Qed.

Lemma to_int32_small (x : Z) : 0 <= x < 2 ^ 31 -> to_int32 x = x.
Proof.
  intros H. unfold to_int32. rewrite wrap32_small by lia.
  destruct (Z.ltb_spec x (2 ^ 31)); lia.
Qed.

Section Primary.
Variable fd : chd_file.
Variable n : Z.
Hypothesis n_small : 1 <= n < INT32_MAX.
Hypothesis tracks_present :
  forall i, 1 <= i <= n -> exists mi, chdstream_find_track_number fd i = Ret (true, mi).
Hypothesis track_absent :
  exists z, chdstream_find_track_number fd (n + 1) = Ret (false, z).

Lemma primary_loop (fuel : nat) :
  forall i lt ls,
    1 <= i <= n + 1 -> n + 1 - i < Z.of_nat fuel ->
    primary_inv fd i lt ls ->
    (exists j mj, 1 <= j <= n /\
       chdstream_find_track_number fd j = Ret (true, mj) /\
       is_audio (m_type mj) = false /\ 0 < m_frames mj) ->
    exists k mk,
      primary_among fd n k mk /\
      find_special_track_loop fuel fd CHDSTREAM_TRACK_PRIMARY i lt ls = Ret (true, mk).
Proof.
  induction fuel as [| fuel IH]; intros i lt ls Hi Hfuel [Hmax Hbest] Hdata; [lia |].
  cbn [find_special_track_loop].
  change (CHDSTREAM_TRACK_PRIMARY =? CHDSTREAM_TRACK_LAST) with false.
  change (CHDSTREAM_TRACK_PRIMARY =? CHDSTREAM_TRACK_FIRST_DATA) with false.
  change (CHDSTREAM_TRACK_PRIMARY =? CHDSTREAM_TRACK_PRIMARY) with true.
  destruct (Z.eq_dec i (n + 1)) as [-> | Hne].
  - (* the tracks are exhausted *)
    destruct track_absent as [z ->]. cbn [bind negb andb].
    destruct Hdata as (j & mj & Hj & Hlj & Hdj & Hfj).
    pose proof (Hmax j mj ltac:(lia) Hlj Hdj) as Hle.
    destruct Hbest as [[-> ->] | (mk & Hlt & Hlk & Hdk & Hfk & Hpos & Hfirst)]; [lia |].
    destruct (Z.eqb_spec lt 0); [lia |]. cbn [negb].
    exists lt, mk. split; [| exact Hlk].
    unfold primary_among. split_and; auto; try lia.
    + intros j' mj' Hj' Hl' Hd'. rewrite Hfk. apply (Hmax j' mj'); auto; lia.
    + intros j' mj' Hj' Hl' Hd'. rewrite Hfk. apply (Hfirst j' mj'); auto.
  - destruct (tracks_present i ltac:(lia)) as [mi Hli]. rewrite Hli.
    cbn [bind negb andb].
    destruct (Z.eqb_spec i INT32_MAX); [lia |].
    assert (Hls : 0 <= ls)
      by (destruct Hbest as [[_ ->] | (mk & _ & _ & _ & _ & Hpos & _)]; lia).
    assert (Hdet : forall mj, chdstream_find_track_number fd i = Ret (true, mj) -> mj = mi)
      by (intros mj Hmj; congruence).
    destruct (negb (is_audio (m_type mi)) && (ls <? m_frames mi)) eqn:Hupd.
    + apply andb_prop in Hupd as [Hd Hgt].
      apply negb_true_iff in Hd. apply Z.ltb_lt in Hgt.
      rewrite (find_track_number_track fd i mi Hli).
      unfold INT32_MAX in *.
      rewrite wrap32_small, to_int32_small by lia.
      apply IH; try lia; auto. split.
      * intros j mj Hj Hlj Hdj.
        destruct (Z.eq_dec j i) as [-> | Hji]; [rewrite (Hdet mj Hlj); lia |].
        pose proof (Hmax j mj ltac:(lia) Hlj Hdj). lia.
      * right. exists mi. split_and; auto; try lia.
        intros j mj Hj Hlj Hdj. pose proof (Hmax j mj ltac:(lia) Hlj Hdj). lia.
    + apply IH; try lia; auto. split.
      * intros j mj Hj Hlj Hdj.
        destruct (Z.eq_dec j i) as [-> | Hji]; [| apply (Hmax j mj); auto; lia].
        rewrite (Hdet mj Hlj) in *. rewrite Hdj in Hupd. cbn [negb andb] in Hupd.
        apply Z.ltb_ge in Hupd. exact Hupd.
      * destruct Hbest as [Hz | (mk & Hlt & Hrest)]; [now left |].
        right. exists mk. split; [lia | exact Hrest].
Qed.
End Primary.

(** X6.  On a container whose tracks are numbered 1 .. n (track n+1 being
    absent) and that holds a non-AUDIO track with at least one frame, the
    PRIMARY selector resolves to the non-AUDIO track with the most frames,
    the lowest-numbered one among equals, and returns exactly what the
    lookup of that track by number returns, frame offset included. *)
Theorem primary_resolves_largest_data_track
    (fd : chd_file) (n : Z) (fuel : nat) :
  1 <= n < INT32_MAX -> n + 1 <= Z.of_nat fuel ->
  (forall i, 1 <= i <= n ->
     exists mi, chdstream_find_track_number fd i = Ret (true, mi)) ->
  (exists z, chdstream_find_track_number fd (n + 1) = Ret (false, z)) ->
  (exists j mj, 1 <= j <= n /\
     chdstream_find_track_number fd j = Ret (true, mj) /\
     is_audio (m_type mj) = false /\ 0 < m_frames mj) ->
  exists k mk,
    primary_among fd n k mk /\
    chdstream_find_track fuel fd CHDSTREAM_TRACK_PRIMARY = Ret (true, mk).
Proof.
  intros Hn Hfuel Hpresent Habsent Hdata.
  unfold chdstream_find_track, chdstream_find_special_track.
  change (CHDSTREAM_TRACK_PRIMARY <? 0) with true. cbv iota.
  apply (primary_loop fd n Hn Hpresent Habsent fuel 1 0 0); try lia; auto.
  split; [intros j mj Hj; lia | now left].
Qed.

Lemma primary_resolves_largest_data_track_witness :
  exists k mk,
    primary_among mixed_disc 2 k mk /\
    chdstream_find_track 4 mixed_disc CHDSTREAM_TRACK_PRIMARY = Ret (true, mk).
Proof.
  apply (primary_resolves_largest_data_track mixed_disc 2 4).
  - unfold INT32_MAX. lia.
  - lia.
  - intros i Hi. assert (i = 1 \/ i = 2) as [-> | ->] by lia; eexists; reflexivity.
  - eexists. reflexivity.
  - exists 2. eexists. split; [lia |]. split; [reflexivity |]. split; [reflexivity |].
    vm_compute. reflexivity.
Defined.

(** ** Opening *)

(** A property of every record that [chdstream_get_meta] yields, kept by
    the assignment of the frame offset, holds of every resolved track. *)
Lemma find_track_preserves (P : metadata_t -> Prop) (fd : chd_file) :
  (forall i, P (snd (chdstream_get_meta fd i))) ->
  (forall m v, P m -> P (set_frame_offset m v)) ->
  forall fuel track b m,
    chdstream_find_track fuel fd track = Ret (b, m) -> P m.
Proof.
  intros Hget Hset.
  assert (Hnum : forall fuel track i fo b m,
             find_track_number_loop fuel fd track i fo = Ret (b, m) -> P m).
  { induction fuel as [| fuel IH]; intros track i fo b m H; simpl in H;
      [discriminate |].
    pose proof (Hget i) as Hi.
    destruct (chdstream_get_meta fd i) as [[|] meta]; simpl in Hi.
    - destruct (wrap32 track =? m_track meta).
      + inversion H; subst. now apply Hset.
      + eapply IH; eauto.
    - inversion H; subst. exact Hi. }
  assert (Hspec : forall fuel track i lt ls b m,
             find_special_track_loop fuel fd track i lt ls = Ret (b, m) -> P m).
  { induction fuel as [| fuel IH]; intros track i lt ls b m H; simpl in H;
      [discriminate |].
    destruct (chdstream_find_track_number fd i) as [[found iter] | | |] eqn:Hf;
      simpl in H; try discriminate.
    pose proof (Hnum _ _ _ _ _ _ Hf) as Hr.
    destruct (negb found && (track =? CHDSTREAM_TRACK_LAST) && (1 <? i)).
    { inversion H; subst. exact Hr. }
    destruct (negb found && (track =? CHDSTREAM_TRACK_PRIMARY) && negb (lt =? 0)).
    { eapply Hnum; eauto. }
    destruct ((track =? CHDSTREAM_TRACK_FIRST_DATA) && negb (is_audio (m_type iter))).
    { inversion H; subst. exact Hr. }
    destruct (i =? INT32_MAX); [discriminate |].
    eapply IH; eauto. }
  intros fuel track b m H.
  unfold chdstream_find_track, chdstream_find_special_track in H.
  destruct (track <? 0); [eapply Hspec | eapply Hnum]; eauto.
Qed.

(** X7.  A record in the legacy CD-track format carries no pregap fields, so
    on a container that has only legacy records no pregap is ever counted:
    whatever the selector, the opened stream has [track_start = 0] and its
    byte range is just the frames of the track. *)
Theorem legacy_records_have_no_pregap
    (fuel : nat) (sys : storage) (path : string) (track : Z) (st : chdstream) :
  chdstream_open fuel sys path track = Ret (Some st) ->
  cdrom2_meta (chd st) = [] -> gdrom_meta (chd st) = [] ->
  track_start st = 0 /\
  exists meta,
    chdstream_find_track fuel (chd st) track = Ret (true, meta) /\
    track_end st = wrap64 (m_frames meta * frame_size st).
Proof.
  intros Hopen H2 Hgd.
  destruct (open_inv _ _ _ _ _ Hopen) as (fd & meta & _ & Hfind & _ & ->).
  simpl in *.
  assert (Hget : forall i, m_pregap (snd (chdstream_get_meta fd i)) = 0).
  { intros i. unfold chdstream_get_meta. rewrite H2, Hgd.
    assert (Hnil : chd_get_metadata [] i = None)
      by (unfold chd_get_metadata; destruct (i <? 0); [| destruct (Z.to_nat i)];
          reflexivity).
    rewrite Hnil.
    destruct (chd_get_metadata (cdrom_meta fd) i); reflexivity. }
  assert (Hpg : m_pregap meta = 0).
  { apply (find_track_preserves (fun m => m_pregap m = 0) fd Hget
             (fun m v H => H) fuel track true meta Hfind). }
  assert (Hcp : counted_pregap meta = 0)
    by (unfold counted_pregap; rewrite Hpg;
        destruct (String.eqb (m_type meta) (m_pgtype meta)); reflexivity).
  rewrite Hcp. simpl. split; [reflexivity |].
  exists meta. split; [exact Hfind |].
  change (wrap64 0) with 0. simpl.
  unfold wrap64. rewrite Z.mod_mod by lia. reflexivity.
Qed.

Example legacy_stream_opened :
  chdstream_open 4 (sample_storage legacy_disc) "disc.chd" 1 = Ret (Some legacy_stream).
Proof. reflexivity. Qed.

Lemma legacy_records_have_no_pregap_witness :
  track_start legacy_stream = 0 /\
  exists meta,
    chdstream_find_track 4 (chd legacy_stream) 1 = Ret (true, meta) /\
    track_end legacy_stream = wrap64 (m_frames meta * frame_size legacy_stream).
Proof.
  apply (legacy_records_have_no_pregap 4 (sample_storage legacy_disc) "disc.chd" 1
           legacy_stream legacy_stream_opened); reflexivity.
Defined.

Lemma open_explicit_cases
    (fuel : nat) (sys : storage) (path : string) (track : Z) (fd : chd_file) :
  0 <= track -> chd_open sys path = Some fd ->
  (open_refused sys fd track /\ chdstream_open fuel sys path track = Ret None) \/
  (~ open_refused sys fd track /\ unitbytes (header fd) = 0 /\
   chdstream_open fuel sys path track = Undef) \/
  (~ open_refused sys fd track /\ unitbytes (header fd) <> 0 /\
   exists st, chdstream_open fuel sys path track = Ret (Some st)).
Proof.
  intros Htrack Hfd. unfold chdstream_open, chdstream_find_track, open_refused.
  rewrite Hfd. rewrite (proj2 (Z.ltb_ge track 0)) by lia.
  pose proof (find_track_number_post fd track) as Hpost.
  destruct (chdstream_find_track_number fd track) as [[[|] meta] | | |];
    simpl in Hpost; try contradiction; cbn [bind negb]; unfold chd_get_header.
  - destruct Hpost as (pre & m0 & post & Hsplit & _ & Hm0 & _).
    assert (Hpresent : ~ (forall p, In p (scanned fd) -> m_track p <> wrap32 track)).
    { intros Habs. apply (Habs m0); [| exact Hm0].
      rewrite Hsplit. apply in_or_app. right. now left. }
    destruct (calloc_ok sys); cbn [negb]; [| left; auto].
    destruct (malloc_ok sys (hunkbytes (header fd))); cbn [negb]; [| left; auto].
    assert (Hok : ~ ((forall p, In p (scanned fd) -> m_track p <> wrap32 track) \/
                     true = false \/ true = false))
      by (intros [Habs | [Hc | Hm]]; [contradiction | discriminate ..]).
    right. destruct (Z.eqb_spec (unitbytes (header fd)) 0); [left | right]; eauto.
  - left. split; [| reflexivity]. left. apply Hpost.
Qed.

(** X8.  [chdstream_open] with an explicit track number (not negative)
    always returns or divides by zero; it never aborts and does not depend on
    the number of turns granted.  It returns no stream exactly when the
    container cannot be opened, no scanned record carries the track number,
    or one of the two allocations fails; with all of these in order it
    returns a stream unless the header's unit size is 0, in which case the
    division [hunkbytes / unitbytes] is undefined. *)
Theorem open_explicit_track_outcomes
    (fuel : nat) (sys : storage) (path : string) (track : Z) :
  0 <= track ->
  (chdstream_open fuel sys path track = Ret None <->
   chd_open sys path = None \/
   exists fd, chd_open sys path = Some fd /\ open_refused sys fd track) /\
  (chdstream_open fuel sys path track = Undef <->
   exists fd, chd_open sys path = Some fd /\ ~ open_refused sys fd track /\
              unitbytes (header fd) = 0) /\
  ((exists st, chdstream_open fuel sys path track = Ret (Some st)) <->
   exists fd, chd_open sys path = Some fd /\ ~ open_refused sys fd track /\
              unitbytes (header fd) <> 0) /\
  chdstream_open fuel sys path track <> Aborted /\
  chdstream_open fuel sys path track <> OutOfFuel.
Proof.
  intros Htrack.
  destruct (chd_open sys path) as [fd |] eqn:Hfd.
  2:{ assert (Hnone : chdstream_open fuel sys path track = Ret None)
        by (unfold chdstream_open; now rewrite Hfd).
      rewrite Hnone. split_and; try discriminate.
      - split; auto.
      - split; [discriminate | intros (fd & Hfd' & _); discriminate].
      - split; [intros [st H]; discriminate | intros (fd & Hfd' & _); discriminate]. }
  assert (Hsome : forall P : chd_file -> Prop,
             (exists fd', Some fd = Some fd' /\ P fd') <-> P fd).
  { intros P. split; [intros (fd' & Heq & HP); inversion Heq; subst; exact HP |].
    intros HP. eauto. }
  rewrite !Hsome.
  destruct (open_explicit_cases fuel sys path track fd Htrack Hfd)
    as [[HR ->] | [(HnR & Hz & ->) | (HnR & Hnz & st & ->)]];
    split_and; try discriminate.
  - split; auto.
  - split; [discriminate | intros [H' _]; contradiction].
  - split; [intros [st Hst]; discriminate | intros [H' _]; contradiction].
  - split; [discriminate | intros [H' | H']; [discriminate | contradiction]].
  - split; auto.
  - split; [intros [st Hst]; discriminate | intros [_ H']; contradiction].
  - split; [discriminate | intros [H' | H']; [discriminate | contradiction]].
  - split; [discriminate | intros [_ H']; contradiction].
  - split; eauto.
Qed.

Lemma open_explicit_track_outcomes_witness :
  chdstream_open 0 (sample_storage cooked_disc) "disc.chd" 7 = Ret None.
Proof.
  destruct (open_explicit_track_outcomes 0 (sample_storage cooked_disc) "disc.chd" 7)
    as [Hnone _]; [lia |].
  apply Hnone. right. exists cooked_disc. split; [reflexivity |].
  left. intros p Hp.
  simpl in Hp. destruct Hp as [<- | [<- | [<- | []]]]; vm_compute; discriminate.
Defined.

(** ** End of track *)

Lemma read_nothing (st : chdstream) (bytes : Z) :
  0 <= offset st <= track_end st -> track_end st < 2 ^ 64 ->
  0 <= bytes < 2 ^ 64 ->
  bytes = 0 \/ offset st = track_end st ->
  chdstream_read st bytes = Ret (0, st, []).
Proof.
  intros Ho Hte Hb Hnone. unfold chdstream_read.
  rewrite (wrap64_small (track_end st - offset st)) by lia.
  assert (Hn : (if track_end st - offset st <? bytes
                then track_end st - offset st else bytes) = 0)
    by (destruct (Z.ltb_spec (track_end st - offset st) bytes); lia).
  rewrite Hn, Z.add_0_r, wrap64_small by lia.
  cbn [Z.to_nat read_loop]. rewrite Z.ltb_irrefl. reflexivity.
Qed.

(** X9.  End-of-track is signalled by a count of 0 and by nothing else.
    With the cursor at [track_end], or with a request of 0 bytes,
    [chdstream_read] returns 0, delivers nothing and leaves the stream as it
    was, without dividing by any field of the geometry; and on a well-formed
    stream a call that returns 0 was such a call. *)
Theorem read_returns_zero_only_at_end (st : chdstream) (bytes : Z) :
  0 <= offset st <= track_end st -> track_end st < 2 ^ 64 ->
  0 <= bytes < 2 ^ 64 ->
  (bytes = 0 \/ offset st = track_end st ->
   chdstream_read st bytes = Ret (0, st, [])) /\
  (stream_ok st ->
   forall st' out,
     chdstream_read st bytes = Ret (0, st', out) ->
     bytes = 0 \/ offset st = track_end st).
Proof.
  intros Ho Hte Hb. split; [now apply read_nothing |].
  intros Hok st' out Hrd.
  pose proof (read_post_call st bytes Hok Hb) as Hpost. simpl in Hpost.
  rewrite Hrd in Hpost. destruct Hpost as [Hr _].
  unfold to_ssize in Hr.
  rewrite wrap64_small in Hr by lia.
  destruct (Z.ltb_spec (Z.min bytes (track_end st - offset st)) (2 ^ 63)); lia.
Qed.

Lemma read_returns_zero_only_at_end_witness :
  chdstream_read (set_offset cooked_stream 112) 10
  = Ret (0, set_offset cooked_stream 112, []).
Proof.
  destruct (read_returns_zero_only_at_end (set_offset cooked_stream 112) 10)
    as [Hend _]; try (simpl; lia).
  apply Hend. right. reflexivity.
Defined.

(** ** Seeking *)

(** X10.  Whatever the offset and the origin, [chdstream_seek] returns 0 or
    -1; when it returns -1 (as it does for every origin other than
    SEEK_SET, SEEK_CUR and SEEK_END) the stream is unchanged; when it
    returns 0 only the cursor has changed and it lies within
    [0, track_end].  The cursor invariant thus survives every seek,
    wrap-around of the candidate included. *)
Theorem seek_keeps_cursor_in_track (st : chdstream) (off whence : Z) :
  0 <= offset st <= track_end st -> track_end st < 2 ^ 64 ->
  (fst (chdstream_seek st off whence) = 0 \/
   fst (chdstream_seek st off whence) = -1) /\
  (fst (chdstream_seek st off whence) = -1 ->
   snd (chdstream_seek st off whence) = st) /\
  (fst (chdstream_seek st off whence) = 0 ->
   snd (chdstream_seek st off whence)
   = set_offset st (chdstream_tell (snd (chdstream_seek st off whence))) /\
   0 <= chdstream_tell (snd (chdstream_seek st off whence)) <= track_end st) /\
  (whence <> SEEK_SET -> whence <> SEEK_CUR -> whence <> SEEK_END ->
   chdstream_seek st off whence = (-1, st)).
Proof.
  intros Ho Hte. unfold chdstream_seek, chdstream_tell.
  destruct (Z.eqb_spec whence SEEK_SET) as [Hset | Hset];
    [| destruct (Z.eqb_spec whence SEEK_CUR) as [Hcur | Hcur];
       [| destruct (Z.eqb_spec whence SEEK_END) as [Hend | Hend]]];
    try match goal with
        | |- context [?c <? 0] =>
            destruct (Z.ltb_spec c 0);
            [| destruct (Z.ltb_spec (track_end st) c);
               [rewrite wrap64_to_ssize, (wrap64_small (track_end st)) by lia
               | rewrite (wrap64_small c) by lia]]
        end;
    cbn [fst snd offset set_offset];
    split_and; auto; try discriminate; try lia; try contradiction;
    intros; split; try reflexivity; lia.
Qed.

Lemma seek_keeps_cursor_in_track_witness :
  chdstream_seek cooked_stream 5 7 = (-1, cooked_stream).
Proof.
  destruct (seek_keeps_cursor_in_track cooked_stream 5 7) as (_ & _ & _ & Hbad);
    try (simpl; lia).
  apply Hbad; discriminate.
Defined.

(** ** The bytes that a read delivers *)

(** A load keeps the cache valid; when it succeeds, and the hunk is not the
    one that the empty cache stands for, the buffer holds its image. *)
Lemma load_hunk_cache (st : chdstream) (h : Z) :
  cache_valid st -> 0 <= h < 2 ^ 32 ->
  cache_valid (snd (chdstream_load_hunk st h)) /\
  (fst (chdstream_load_hunk st h) = true -> h <> SENTINEL_HUNK ->
   hunk_image st h = Some (hunkmem (snd (chdstream_load_hunk st h)))).
Proof.
  intros Hvalid Hh. unfold chdstream_load_hunk.
  destruct (Z.eqb_spec h (wrap32 (hunknum st))) as [Hhit | Hmiss].
  - simpl. split; [exact Hvalid |]. intros _ Hns.
    destruct Hvalid as [Hempty | Himg].
    + rewrite Hempty in Hhit. exfalso. apply Hns. exact Hhit.
    + now rewrite Hhit.
  - destruct (chd_read (chd st) h) as [mem |] eqn:Hrd; simpl.
    + assert (Himg : hunk_image st h
                     = Some (if swab st
                             then swab_loop
                                    (Z.to_nat (hunkbytes (chd_get_header (chd st)) / 2))
                                    0 mem
                             else mem))
        by (unfold hunk_image; rewrite Hrd; reflexivity).
      split; [| auto].
      right. simpl. rewrite wrap32_to_int32, wrap32_small by lia.
      unfold hunk_image in *. simpl. exact Himg.
    + split; [| discriminate].
      destruct Hvalid as [Hempty | Himg]; [now left | right].
      unfold hunk_image in *. simpl. exact Himg.
Qed.

Lemma read_loop_content (fuel : nat) :
  forall (st : chdstream) (end_ : Z) (out : list Z) st' out',
    stream_ok st -> cache_valid st -> offset st <= end_ <= track_end st ->
    read_loop fuel st end_ out = Ret (st', out') ->
    exists tail,
      out' = out ++ tail /\ cache_valid st' /\
      ((forall pos, offset st <= pos < end_ -> track_start st <= pos ->
                    hunk_at st pos <> SENTINEL_HUNK) ->
       forall j, 0 <= j < Z.of_nat (List.length tail) ->
                 nth (Z.to_nat j) tail 0 = stream_byte st (offset st + j)).
Proof.
  induction fuel as [| fuel IH]; intros st end_ out st' out' Hok Hvalid Hend Hrun;
    simpl in Hrun.
  - destruct (offset st <? end_); [discriminate |].
    inversion Hrun; subst. exists []. rewrite app_nil_r.
    split_and; auto. intros _ j Hj. simpl in Hj. lia.
  - destruct (Z.ltb_spec (offset st) end_) as [Hlt | Hge].
    2:{ inversion Hrun; subst. exists []. rewrite app_nil_r.
        split_and; auto. intros _ j Hj. simpl in Hj. lia. }
    pose proof (chunk_amount_pos st end_ Hok Hlt) as [Ha Hb].
    pose proof (ok_offset st Hok) as Hoff0.
    destruct (Z_lt_le_dec (offset st) (track_start st)) as [Hpre | Hdat].
    + (* pregap *)
      destruct (read_chunk_pregap st end_ Hok ltac:(lia) Hpre) as [Hchunk Hbelow].
      rewrite Hchunk in Hrun. simpl in Hrun.
      set (st1 := set_offset st (offset st + chunk_amount st end_)) in *.
      assert (Hok1 : stream_ok st1) by (apply stream_ok_set_offset; [assumption | lia]).
      destruct (IH st1 end_ _ st' out' Hok1 Hvalid ltac:(simpl; lia) Hrun)
        as (tail & -> & Hvalid' & Hbytes).
      exists (repeat 0 (Z.to_nat (chunk_amount st end_)) ++ tail).
      rewrite app_assoc. split_and; auto.
      intros Hsent j Hj. rewrite length_app, repeat_length in Hj.
      destruct (Z_lt_le_dec j (chunk_amount st end_)) as [Hin | Hout].
      * rewrite app_nth1 by (rewrite repeat_length; lia).
        rewrite nth_repeat. unfold stream_byte.
        destruct (Z.ltb_spec (offset st + j) (track_start st)); [reflexivity | lia].
      * rewrite app_nth2 by (rewrite repeat_length; lia).
        rewrite repeat_length.
        replace (Z.to_nat j - Z.to_nat (chunk_amount st end_))%nat
          with (Z.to_nat (j - chunk_amount st end_)) by lia.
        rewrite Hbytes; [| intros pos Hp Hs; apply Hsent; simpl in Hp; auto; lia | lia].
        rewrite (stream_byte_geometry st st1) by apply same_geometry_set_offset.
        f_equal. simpl. lia.
    + (* track data *)
      destruct (read_chunk_data st end_ Hok ltac:(lia) Hdat) as (Hchunk & Hsrc0 & Hsrc1).
      rewrite Hchunk in Hrun. clear Hchunk.
      pose proof (hunk_at_range st (offset st) (ok_frames_per_hunk st Hok)) as Hh.
      pose proof (load_hunk_geometry st (hunk_at st (offset st))) as [Hg1 Ho1].
      pose proof (load_hunk_ok st (hunk_at st (offset st)) Hok) as Hokl.
      pose proof (load_hunk_cache st (hunk_at st (offset st)) Hvalid Hh)
        as [Hvalidl Himg].
      destruct (chdstream_load_hunk st (hunk_at st (offset st))) as [b stl].
      simpl in *. destruct b; simpl in Hrun; [| discriminate].
      set (src := offset st mod frame_size st + hunk_offset_at st (offset st)
                  + frame_offset st) in *.
      set (bytes := firstn (Z.to_nat (chunk_amount st end_))
                      (skipn (Z.to_nat src) (hunkmem stl))) in *.
      set (st1 := set_offset stl (offset st + chunk_amount st end_)) in *.
      assert (Hte : track_end stl = track_end st) by apply Hg1.
      assert (Hts : track_start stl = track_start st) by apply Hg1.
      assert (Hok1 : stream_ok st1)
        by (apply stream_ok_set_offset; [assumption | rewrite Hte; lia]).
      assert (Hg : same_geometry st st1)
        by (eapply same_geometry_trans; [exact Hg1 | apply same_geometry_set_offset]).
      assert (Hlenb : Z.of_nat (List.length bytes) = chunk_amount st end_).
      { unfold bytes. rewrite length_firstn, length_skipn.
        pose proof (ok_hunkmem stl Hokl) as Hl.
        replace (chd stl) with (chd st) in Hl by (symmetry; apply Hg1). lia. }
      destruct (IH st1 end_ _ st' out' Hok1 Hvalidl ltac:(simpl; rewrite Hte; lia) Hrun)
        as (tail & -> & Hvalid' & Hbytes).
      exists (bytes ++ tail). rewrite app_assoc. split_and; auto.
      intros Hsent j Hj. rewrite length_app in Hj.
      destruct (Z_lt_le_dec j (chunk_amount st end_)) as [Hin | Hout].
      * rewrite app_nth1 by lia.
        unfold bytes. rewrite nth_firstn.
        destruct (Nat.ltb_spec (Z.to_nat j) (Z.to_nat (chunk_amount st end_))); [| lia].
        rewrite nth_skipn.
        destruct (same_frame st (offset st) j Hok Hdat
                    ltac:(unfold chunk_amount in *; lia)) as (Hsh & Hso & Hsm).
        unfold stream_byte.
        destruct (Z.ltb_spec (offset st + j) (track_start st)); [lia |].
        rewrite Hsh, Hso, Hsm.
        rewrite (Himg eq_refl (Hsent (offset st) ltac:(lia) Hdat)).
        f_equal. unfold src. lia.
      * rewrite app_nth2 by lia.
        replace (Z.to_nat j - List.length bytes)%nat
          with (Z.to_nat (j - chunk_amount st end_)) by lia.
        rewrite Hbytes;
          [| intros pos Hp Hs; rewrite (hunk_at_geometry st st1 pos Hg);
             apply Hsent; simpl in Hp; [lia | rewrite <- Hts; exact Hs]
           | lia].
        rewrite (stream_byte_geometry st st1) by exact Hg.
        f_equal. simpl. lia.
Qed.

(** A read whose hunks the engine supplies returns, with the clamped count. *)
Lemma read_returns (st : chdstream) (bytes : Z) :
  stream_ok st -> 0 <= bytes < 2 ^ 64 ->
  (forall pos,
      offset st <= pos < offset st + Z.min bytes (track_end st - offset st) ->
      track_start st <= pos -> chd_read (chd st) (hunk_at st pos) <> None) ->
  exists st' out,
    chdstream_read st bytes
    = Ret (to_ssize (Z.min bytes (track_end st - offset st)), st', out) /\
    same_geometry st st' /\ stream_ok st' /\
    offset st' = offset st + Z.min bytes (track_end st - offset st) /\
    Z.of_nat (List.length out) = Z.min bytes (track_end st - offset st).
Proof.
  intros Hok Hb Hloads.
  pose proof (read_post_call st bytes Hok Hb) as Hpost. simpl in Hpost.
  destruct (chdstream_read st bytes) as [[[r st'] out] | | |]; try contradiction.
  - destruct Hpost as (-> & tail & Hout & Hg & Hok' & Hoff & Hlen & _).
    simpl in Hout. subst out. exists st', tail. split_and; auto. lia.
  - destruct Hpost as (pos & Hp & Hs & Hrd). exfalso. exact (Hloads pos Hp Hs Hrd).
Qed.

Lemma read_content (st : chdstream) (bytes : Z) r st' out :
  stream_ok st -> cache_valid st -> 0 <= bytes < 2 ^ 64 ->
  chdstream_read st bytes = Ret (r, st', out) ->
  cache_valid st' /\
  ((forall pos,
       offset st <= pos < offset st + Z.min bytes (track_end st - offset st) ->
       track_start st <= pos -> hunk_at st pos <> SENTINEL_HUNK) ->
   forall j, 0 <= j < Z.of_nat (List.length out) ->
             nth (Z.to_nat j) out 0 = stream_byte st (offset st + j)).
Proof.
  intros Hok Hvalid Hb Hrd. pose proof (ok_offset st Hok) as Ho.
  rewrite read_unfold in Hrd by assumption. simpl in Hrd.
  set (n := Z.min bytes (track_end st - offset st)) in *.
  destruct (read_loop (Z.to_nat n) st (offset st + n) []) as [[st1 out1] | | |] eqn:Hrun;
    simpl in Hrd; try discriminate.
  inversion Hrd; subst r st1 out1.
  assert (Hend : offset st <= offset st + n <= track_end st) by (unfold n; lia).
  destruct (read_loop_content (Z.to_nat n) st (offset st + n) [] st' out
              Hok Hvalid Hend Hrun)
    as (tail & Hout & Hvalid' & Hbytes).
  simpl in Hout. subst out. split; [exact Hvalid' |].
  intros Hsent. apply Hbytes. intros pos Hp Hs. apply Hsent; [exact Hp | exact Hs].
Qed.

(** X11.  The bytes that [chdstream_read] delivers are those of the track,
    whatever the position of the cursor and the state of the cache: the byte
    at stream offset [pos] is zero below [track_start], and otherwise the
    byte at [pos mod frame_size] in the frame
    [track_frame + (pos - track_start) / frame_size] of the container, taken
    from the (byte-swapped, for audio) image of the hunk that holds that
    frame.  The precondition on the hunk numbers excludes the one number
    that an empty cache takes for already loaded. *)
Theorem read_delivers_track_bytes (st : chdstream) (bytes : Z) r st' out :
  stream_ok st -> cache_valid st -> 0 <= bytes < 2 ^ 64 ->
  (forall pos,
      offset st <= pos < offset st + Z.min bytes (track_end st - offset st) ->
      track_start st <= pos -> hunk_at st pos <> SENTINEL_HUNK) ->
  chdstream_read st bytes = Ret (r, st', out) ->
  Z.of_nat (List.length out) = Z.min bytes (track_end st - offset st) /\
  forall j, 0 <= j < Z.of_nat (List.length out) ->
            nth (Z.to_nat j) out 0 = stream_byte st (chdstream_tell st + j).
Proof.
  intros Hok Hvalid Hb Hsent Hrd. split.
  - pose proof (read_post_call st bytes Hok Hb) as Hpost. simpl in Hpost.
    rewrite Hrd in Hpost.
    destruct Hpost as (_ & tail & Hout & _ & _ & _ & Hlen & _).
    simpl in Hout. subst out. lia.
  - destruct (read_content st bytes r st' out Hok Hvalid Hb Hrd) as [_ Hbytes].
    now apply Hbytes.
Qed.

Lemma cooked_stream_valid : cache_valid cooked_stream.
Proof. left. reflexivity. Qed.

Lemma cooked_hunks_not_sentinel (v pos : Z) :
  0 <= pos < 112 -> hunk_at (set_offset cooked_stream v) pos <> SENTINEL_HUNK.
Proof.
  intros Hp. unfold hunk_at, chd_frame_at, SENTINEL_HUNK. simpl.
  assert (Hq : -2 <= (pos - 32) / 16 < 5) by (Z.div_mod_to_equations; lia).
  assert (Hor : (pos - 32) / 16 < 0 \/ 0 <= (pos - 32) / 16 < 5) by lia.
  destruct Hor as [Hneg | Hnn].
  - unfold wrap32.
    replace ((0 + (pos - 32) / 16) mod 2 ^ 32) with (2 ^ 32 + (pos - 32) / 16)
      by (apply Z.mod_unique with (q := -1); lia).
    Z.div_mod_to_equations; lia.
  - rewrite wrap32_small by lia. Z.div_mod_to_equations; lia.
Qed.

Lemma read_delivers_track_bytes_witness :
  exists r st' out,
    chdstream_read (set_offset cooked_stream 30) 6 = Ret (r, st', out) /\
    Z.of_nat (List.length out) = 6 /\
    forall j, 0 <= j < Z.of_nat (List.length out) ->
      nth (Z.to_nat j) out 0 = stream_byte (set_offset cooked_stream 30) (30 + j).
Proof.
  assert (Hok : stream_ok (set_offset cooked_stream 30))
    by (apply stream_ok_set_offset; [exact cooked_stream_ok | simpl; lia]).
  destruct (read_returns (set_offset cooked_stream 30) 6 Hok ltac:(lia))
    as (st' & out & Hrd & _).
  { intros pos _ _. discriminate. }
  eexists. exists st', out. split; [exact Hrd |].
  eapply (read_delivers_track_bytes (set_offset cooked_stream 30) 6);
    [exact Hok | left; reflexivity | lia | | exact Hrd].
  intros pos Hp _. apply cooked_hunks_not_sentinel. simpl in Hp. lia.
Defined.

(** ** The cache invariant *)

Lemma cache_valid_set_offset (st : chdstream) (v : Z) :
  cache_valid st -> cache_valid (set_offset st v).
Proof. intros H. exact H. Qed.

Lemma getc_keeps_cache (st : chdstream) c st' :
  stream_ok st -> cache_valid st -> chdstream_getc st = Ret (c, st') ->
  cache_valid st'.
Proof.
  intros Hok Hvalid H. unfold chdstream_getc in H.
  destruct (chdstream_read st _) as [[[n st1] out] | | |] eqn:Hrd;
    simpl in H; try discriminate.
  apply read_content in Hrd; [| assumption | assumption | simpl; lia].
  destruct (negb (n =? 0)); inversion H; subst; apply Hrd.
Qed.

Lemma gets_loop_keeps_cache (fuel : nat) :
  forall st len off buffer st' off' buffer',
    stream_ok st -> cache_valid st ->
    gets_loop chdstream_getc fuel st len off buffer = Ret (st', off', buffer') ->
    cache_valid st'.
Proof.
  induction fuel as [| fuel IH];
    intros st len off buffer st' off' buffer' Hok Hvalid H; simpl in H.
  - destruct (off <? len); [discriminate |]. inversion H; subst. exact Hvalid.
  - destruct (off <? len).
    2:{ inversion H; subst. exact Hvalid. }
    destruct (chdstream_getc st) as [[c st1] | | |] eqn:Hc; simpl in H; try discriminate.
    pose proof (getc_keeps_cache _ _ _ Hok Hvalid Hc) as Hv1.
    destruct (getc_keeps_ok _ _ _ Hok Hc) as [Hok1 _].
    destruct (c =? EOF).
    + inversion H; subst. exact Hv1.
    + eapply IH; eauto.
Qed.

Lemma step_keeps_cache (st st' : chdstream) :
  step st st' -> stream_ok st -> cache_valid st -> cache_valid st'.
Proof.
  intros Hstep Hok Hvalid. destruct Hstep.
  - eapply read_content; eauto.
  - eapply getc_keeps_cache; eauto.
  - unfold chdstream_gets, gets_with in H0.
    destruct (gets_loop chdstream_getc (Z.to_nat len) st len 0 [])
      as [[[st1 off] buffer] | | |] eqn:Hl; simpl in H0; try discriminate.
    inversion H0; subst. eapply gets_loop_keeps_cache; eauto.
  - unfold chdstream_seek.
    destruct (if whence =? SEEK_SET then Some off
              else if whence =? SEEK_CUR then Some (to_ssize (offset st + off))
              else if whence =? SEEK_END then Some (to_ssize (track_end st + off))
              else None) as [c |]; simpl; [| exact Hvalid].
    destruct (c <? 0); simpl; exact Hvalid.
  - exact Hvalid.
Qed.

(** X12.  The cache is never stale.  In every state that a stream reaches
    after [chdstream_open] (on a header that keeps reads defined), either no
    hunk has been loaded yet ([hunknum] is still -1) or the buffer holds
    exactly the image of the hunk whose number is cached: the hunk as the
    engine supplies it, byte-swapped once for an audio track.  A failed load
    changes neither the number nor, in the model of the engine, the buffer. *)
Theorem cache_never_stale
    (fuel : nat) (sys : storage) (path : string) (track : Z) (st st' : chdstream) :
  chdstream_open fuel sys path track = Ret (Some st) ->
  0 < unitbytes (header (chd st)) ->
  unitbytes (header (chd st)) <= hunkbytes (header (chd st)) < 2 ^ 32 ->
  frame_size st <= unitbytes (header (chd st)) ->
  reachable st st' ->
  hunknum st' = -1 \/
  exists mem,
    chd_read (chd st) (wrap32 (hunknum st')) = Some mem /\
    hunkmem st' =
      (if swab st
       then swab_loop (Z.to_nat (hunkbytes (header (chd st)) / 2)) 0 mem
       else mem).
Proof.
  intros Hopen Hub Hhb Hfs Hreach.
  pose proof (open_stream_ok _ _ _ _ _ Hopen Hub Hhb Hfs) as Hok.
  assert (Hvalid0 : cache_valid st).
  { destruct (open_inv _ _ _ _ _ Hopen) as (fd & meta & _ & _ & _ & ->).
    left. reflexivity. }
  assert (Hinv : stream_ok st' /\ cache_valid st' /\ same_geometry st st').
  { induction Hreach as [| s s' Hr IH Hstep].
    - auto using same_geometry_refl.
    - destruct IH as (Hoks & Hvs & Hgs).
      destruct (step_keeps_ok _ _ Hstep Hoks) as [Hoks' Hgs'].
      split_and; auto.
      + eapply step_keeps_cache; eauto.
      + eapply same_geometry_trans; eauto. }
  destruct Hinv as (_ & [Hempty | Himg] & Hg); [now left | right].
  unfold hunk_image in Himg.
  replace (chd st') with (chd st) in Himg by (symmetry; apply Hg).
  replace (swab st') with (swab st) in Himg by (symmetry; apply Hg).
  destruct (chd_read (chd st) (wrap32 (hunknum st'))) as [mem |]; [| discriminate].
  exists mem. split; [reflexivity |]. simpl in Himg. now inversion Himg.
Qed.

Lemma cache_never_stale_witness :
  exists r st' out,
    chdstream_read (snd (chdstream_seek audio_stream 352800 SEEK_SET)) 4
    = Ret (r, st', out) /\
    wrap32 (hunknum st') = 50 /\
    exists mem,
      chd_read (chd audio_stream) 50 = Some mem /\
      hunkmem st' =
        (if swab audio_stream
         then swab_loop (Z.to_nat (hunkbytes (header (chd audio_stream)) / 2)) 0 mem
         else mem).
Proof.
  change (snd (chdstream_seek audio_stream 352800 SEEK_SET))
    with (set_offset audio_stream 352800).
  assert (Hok : stream_ok (set_offset audio_stream 352800))
    by (apply stream_ok_set_offset; [exact audio_stream_ok | simpl; lia]).
  pose proof (read_unfold (set_offset audio_stream 352800) 4 Hok ltac:(lia)) as Hrd.
  cbv zeta in Hrd.
  change (Z.min 4 (track_end (set_offset audio_stream 352800)
                   - offset (set_offset audio_stream 352800))) with 4 in Hrd.
  destruct (read_loop_in_hunk 50 (Z.to_nat 4) (set_offset audio_stream 352800)
              (offset (set_offset audio_stream 352800) + 4) [] Hok)
    as (st' & out & Hrun & Hmore & _).
  { simpl. lia. }
  { simpl. lia. }
  { simpl. lia. }
  { intros pos Hpos. simpl in Hpos.
    unfold hunk_at, chd_frame_at. simpl.
    rewrite (Z.div_small (pos - 352800) 2352) by lia. reflexivity. }
  { discriminate. }
  rewrite Hrun in Hrd. simpl in Hrd.
  destruct (Hmore ltac:(simpl; lia)) as [Hnum _].
  exists (to_ssize 4), st', out. split; [exact Hrd |]. split; [exact Hnum |].
  assert (Hreach : reachable audio_stream st').
  { eapply reach_step;
      [eapply reach_step; [apply reach_open | apply step_seek] |].
    apply (step_read (snd (chdstream_seek audio_stream 352800 SEEK_SET)) 4
             (to_ssize 4) st' out); [lia | exact Hrd]. }
  assert (Hub : 0 < unitbytes (header (chd audio_stream))) by (simpl; lia).
  assert (Hhb : unitbytes (header (chd audio_stream))
                <= hunkbytes (header (chd audio_stream)) < 2 ^ 32) by (simpl; lia).
  assert (Hfs : frame_size audio_stream <= unitbytes (header (chd audio_stream)))
    by (simpl; lia).
  destruct (cache_never_stale 4 (sample_storage audio_disc) "disc.chd" 2 audio_stream
              st' audio_stream_opened Hub Hhb Hfs Hreach)
    as [Hempty | (mem & Hmem & Hbuf)].
  - rewrite Hempty in Hnum. discriminate Hnum.
  - rewrite Hnum in Hmem. exists mem. split; [exact Hmem | exact Hbuf].
Defined.

(** ** Reads compose *)

(** X13.  Reading in two calls delivers what one call delivers.  When the
    engine supplies the hunks of the range, a read of [n1] bytes followed by
    a read of [n2] bytes returns counts that add up to the count of a single
    read of [n1 + n2] bytes, delivers the same bytes in the same order, and
    leaves the cursor at the same place. *)
Theorem reads_compose (st : chdstream) (n1 n2 : Z) :
  stream_ok st -> cache_valid st ->
  0 <= n1 -> 0 <= n2 -> n1 + n2 < 2 ^ 64 ->
  Z.min (n1 + n2) (track_end st - offset st) <= SSIZE_MAX ->
  (forall pos,
      offset st <= pos < offset st + Z.min (n1 + n2) (track_end st - offset st) ->
      track_start st <= pos ->
      chd_read (chd st) (hunk_at st pos) <> None /\
      hunk_at st pos <> SENTINEL_HUNK) ->
  exists r1 st1 out1 r2 st2 out2 st12,
    chdstream_read st n1 = Ret (r1, st1, out1) /\
    chdstream_read st1 n2 = Ret (r2, st2, out2) /\
    chdstream_read st (n1 + n2) = Ret (r1 + r2, st12, out1 ++ out2) /\
    chdstream_tell st12 = chdstream_tell st2.
Proof.
  intros Hok Hvalid Hn1 Hn2 Hsum Hfit Hrange.
  pose proof (ok_offset st Hok) as Ho. pose proof (ok_track_end st Hok) as Hte.
  unfold SSIZE_MAX in Hfit.
  (* first read *)
  destruct (read_returns st n1 Hok ltac:(lia)) as (st1 & out1 & Hr1 & Hg1 & Hok1 & Ho1 & Hl1).
  { intros pos Hp Hs. apply Hrange; [lia | exact Hs]. }
  destruct (read_content st n1 _ st1 out1 Hok Hvalid ltac:(lia) Hr1) as [Hvalid1 Hb1].
  assert (Hte1 : track_end st1 = track_end st) by apply Hg1.
  assert (Hts1 : track_start st1 = track_start st) by apply Hg1.
  (* second read *)
  destruct (read_returns st1 n2 Hok1 ltac:(lia)) as (st2 & out2 & Hr2 & Hg2 & Hok2 & Ho2 & Hl2).
  { intros pos Hp Hs. replace (chd st1) with (chd st) by (symmetry; apply Hg1).
    rewrite (hunk_at_geometry st st1 pos Hg1). apply Hrange; lia. }
  destruct (read_content st1 n2 _ st2 out2 Hok1 Hvalid1 ltac:(lia) Hr2) as [_ Hb2].
  (* the single read *)
  destruct (read_returns st (n1 + n2) Hok ltac:(lia)) as (st12 & out & Hr & _ & _ & Ho12 & Hl).
  { intros pos Hp Hs. apply Hrange; [lia | exact Hs]. }
  destruct (read_content st (n1 + n2) _ st12 out Hok Hvalid ltac:(lia) Hr) as [_ Hb].
  set (m1 := Z.min n1 (track_end st - offset st)) in *.
  set (m2 := Z.min n2 (track_end st1 - offset st1)) in *.
  set (m := Z.min (n1 + n2) (track_end st - offset st)) in *.
  assert (Hm : m = m1 + m2) by (unfold m, m1, m2; lia).
  exists (to_ssize m1), st1, out1, (to_ssize m2), st2, out2, st12.
  split; [exact Hr1 |]. split; [exact Hr2 |]. split.
  - rewrite Hr. f_equal. f_equal; [f_equal |].
    + unfold SSIZE_MAX. rewrite !to_ssize_small by (unfold SSIZE_MAX, m, m1, m2 in *; lia).
      exact Hm.
    + apply nth_ext with (d := 0) (d' := 0); [rewrite length_app; lia |].
      intros k Hk.
      rewrite <- (Nat2Z.id k).
      rewrite Hb; [| intros pos Hp Hs; apply Hrange; auto | lia].
      destruct (Z_lt_le_dec (Z.of_nat k) m1) as [Hin | Hout].
      * rewrite app_nth1 by lia.
        rewrite Hb1; [reflexivity | intros pos Hp Hs; apply Hrange; auto; lia | lia].
      * rewrite app_nth2 by lia.
        replace (Z.to_nat (Z.of_nat k) - List.length out1)%nat
          with (Z.to_nat (Z.of_nat k - m1)) by lia.
        rewrite Hb2;
          [| intros pos Hp Hs; rewrite (hunk_at_geometry st st1 pos Hg1);
             apply Hrange; lia
           | lia].
        rewrite (stream_byte_geometry st st1) by exact Hg1.
        f_equal. lia.
  - unfold chdstream_tell. lia.
Qed.

Lemma reads_compose_witness :
  exists r1 st1 out1 r2 st2 out2 st12,
    chdstream_read (set_offset cooked_stream 20) 30 = Ret (r1, st1, out1) /\
    chdstream_read st1 70 = Ret (r2, st2, out2) /\
    chdstream_read (set_offset cooked_stream 20) (30 + 70)
    = Ret (r1 + r2, st12, out1 ++ out2) /\
    chdstream_tell st12 = chdstream_tell st2.
Proof.
  apply (reads_compose (set_offset cooked_stream 20) 30 70); try lia.
  - apply stream_ok_set_offset; [exact cooked_stream_ok | simpl; lia].
  - left. reflexivity.
  - vm_compute. discriminate.
  - intros pos Hp _. split; [discriminate |].
    apply cooked_hunks_not_sentinel. simpl in Hp. lia.
Defined.

(** ** Seeking back *)

(** X14.  [chdstream_tell] and [chdstream_seek] are inverse to each other,
    and a stream reads the same after coming back.  On a well-formed stream
    whose cache is empty or holds the image of the cached hunk, with the
    position told not beyond [SSIZE_MAX], when the engine supplies every
    hunk of the range read and none of them has the number [2^32 - 1] (the
    one that the empty cache takes for loaded): seeking to the position
    that [chdstream_tell] reported before a read succeeds and restores that
    position, and the same read then returns the same count and delivers
    the same bytes, whatever the first read left in the cache. *)
Theorem reread_after_seek_back (st : chdstream) (bytes : Z) r st1 out :
  stream_ok st -> cache_valid st -> 0 <= bytes < 2 ^ 64 ->
  chdstream_tell st <= SSIZE_MAX ->
  (forall pos,
      offset st <= pos < offset st + Z.min bytes (track_end st - offset st) ->
      track_start st <= pos ->
      chd_read (chd st) (hunk_at st pos) <> None /\
      hunk_at st pos <> SENTINEL_HUNK) ->
  chdstream_read st bytes = Ret (r, st1, out) ->
  fst (chdstream_seek st1 (chdstream_tell st) SEEK_SET) = 0 /\
  chdstream_tell (snd (chdstream_seek st1 (chdstream_tell st) SEEK_SET))
  = chdstream_tell st /\
  exists st3,
    chdstream_read (snd (chdstream_seek st1 (chdstream_tell st) SEEK_SET)) bytes
    = Ret (r, st3, out).
Proof.
  intros Hok Hvalid Hb Hfit Hrange Hrd.
  pose proof (ok_offset st Hok) as Ho.
  destruct (read_keeps_ok st bytes r st1 out Hok Hb Hrd) as [Hok1 Hg1].
  destruct (read_content st bytes r st1 out Hok Hvalid Hb Hrd) as [Hvalid1 Hb1].
  assert (Hte1 : track_end st1 = track_end st) by apply Hg1.
  assert (Hseek : chdstream_seek st1 (chdstream_tell st) SEEK_SET
                  = (0, set_offset st1 (offset st))).
  { unfold chdstream_seek, chdstream_tell. cbn [SEEK_SET Z.eqb].
    destruct (Z.ltb_spec (offset st) 0); [lia |].
    destruct (Z.ltb_spec (track_end st1) (offset st)); [lia |].
    pose proof (ok_track_end st Hok).
    rewrite wrap64_small by lia. reflexivity. }
  rewrite Hseek. cbn [fst snd]. split; [reflexivity |]. split; [reflexivity |].
  set (st2 := set_offset st1 (offset st)).
  assert (Hok2 : stream_ok st2)
    by (apply stream_ok_set_offset; [exact Hok1 | lia]).
  assert (Hg2 : same_geometry st st2)
    by (eapply same_geometry_trans; [exact Hg1 | apply same_geometry_set_offset]).
  assert (Hte2 : track_end st2 = track_end st) by apply Hg2.
  assert (Ho2 : offset st2 = offset st) by reflexivity.
  destruct (read_returns st2 bytes Hok2 Hb) as (st3 & out' & Hr3 & _ & _ & _ & Hl3).
  { intros pos Hp Hs. replace (chd st2) with (chd st) by (symmetry; apply Hg2).
    rewrite (hunk_at_geometry st st2 pos Hg2).
    apply Hrange; [rewrite Ho2, Hte2 in Hp; exact Hp |].
    replace (track_start st) with (track_start st2) by apply Hg2. exact Hs. }
  destruct (read_content st2 bytes _ st3 out' Hok2
              (cache_valid_set_offset st1 (offset st) Hvalid1) Hb Hr3) as [_ Hb3].
  pose proof (read_post_call st bytes Hok Hb) as Hpost. simpl in Hpost.
  rewrite Hrd in Hpost.
  destruct Hpost as (Hr & tail & Hout & _ & _ & _ & Hlen & _).
  simpl in Hout. subst tail.
  exists st3. rewrite Hr3. rewrite Ho2, Hte2 in *. rewrite <- Hr.
  f_equal. f_equal.
  apply nth_ext with (d := 0) (d' := 0); [lia |].
  intros k Hk. rewrite <- (Nat2Z.id k).
  rewrite Hb3;
    [| intros pos Hp Hs; rewrite (hunk_at_geometry st st2 pos Hg2);
       apply Hrange; [exact Hp |];
       replace (track_start st) with (track_start st2) by apply Hg2; exact Hs
     | lia].
  rewrite Hb1; [| intros pos Hp Hs; apply Hrange; auto | lia].
  now rewrite (stream_byte_geometry st st2) by exact Hg2.
Qed.

Lemma reread_after_seek_back_witness :
  exists r st1 out,
    chdstream_read (set_offset cooked_stream 20) 50 = Ret (r, st1, out) /\
    fst (chdstream_seek st1 20 SEEK_SET) = 0 /\
    chdstream_tell (snd (chdstream_seek st1 20 SEEK_SET)) = 20 /\
    exists st3,
      chdstream_read (snd (chdstream_seek st1 20 SEEK_SET)) 50 = Ret (r, st3, out).
Proof.
  assert (Hok : stream_ok (set_offset cooked_stream 20))
    by (apply stream_ok_set_offset; [exact cooked_stream_ok | simpl; lia]).
  destruct (read_returns (set_offset cooked_stream 20) 50 Hok ltac:(lia))
    as (st1 & out & Hrd & _).
  { intros pos _ _. discriminate. }
  eexists. exists st1, out. split; [exact Hrd |].
  eapply (reread_after_seek_back (set_offset cooked_stream 20) 50);
    [exact Hok | left; reflexivity | lia | vm_compute; discriminate | | exact Hrd].
  intros pos Hp _. split; [discriminate |].
  apply cooked_hunks_not_sentinel. simpl in Hp. lia.
Defined.

(** ** Audio tracks *)

(** X15.  On a stream that swaps bytes (an AUDIO track) two bytes read at an
    even place of the hunk buffer are the two bytes that the engine supplies
    there, exchanged.  On a well-formed stream with [swab] set, whose cache
    is empty or holds the image of the cached hunk, with the cursor in the
    track data on a 16-bit word of the hunk that lies within one frame and
    within the track, when the engine supplies the hunk of the cursor and
    its number is not [2^32 - 1] (the one that the empty cache takes for
    loaded): a read of 2 bytes returns 2 and delivers the engine's byte at
    the odd place first and the one at the even place second. *)
Theorem audio_read_swaps_bytes (st : chdstream) (raw : list Z) :
  stream_ok st -> cache_valid st -> swab st = true ->
  track_start st <= offset st -> offset st + 2 <= track_end st ->
  offset st mod frame_size st + 2 <= frame_size st ->
  Z.even (offset st mod frame_size st + hunk_offset_at st (offset st)
          + frame_offset st) = true ->
  chd_read (chd st) (hunk_at st (offset st)) = Some raw ->
  hunk_at st (offset st) <> SENTINEL_HUNK ->
  exists st',
    chdstream_read st 2 =
      Ret (2, st',
           [nth (Z.to_nat (offset st mod frame_size st + hunk_offset_at st (offset st)
                           + frame_offset st + 1)) raw 0;
            nth (Z.to_nat (offset st mod frame_size st + hunk_offset_at st (offset st)
                           + frame_offset st)) raw 0]).
Proof.
  intros Hok Hvalid Hswab Hdat Hend Hframe Heven Hraw Hsent.
  pose proof Hok as [].
  set (idx := offset st mod frame_size st + hunk_offset_at st (offset st)
              + frame_offset st) in *.
  assert (Hsame : forall j, 0 <= j < 2 ->
             hunk_at st (offset st + j) = hunk_at st (offset st) /\
             hunk_offset_at st (offset st + j) = hunk_offset_at st (offset st) /\
             (offset st + j) mod frame_size st = offset st mod frame_size st + j)
    by (intros j Hj; apply same_frame; auto; lia).
  assert (Hmin : Z.min 2 (track_end st - offset st) = 2) by lia.
  destruct (read_returns st 2 Hok ltac:(lia)) as (st' & out & Hrd & _ & _ & _ & Hlen).
  { intros pos Hp _. rewrite Hmin in Hp.
    destruct (Hsame (pos - offset st) ltac:(lia)) as [Hh _].
    replace (offset st + (pos - offset st)) with pos in Hh by lia.
    rewrite Hh, Hraw. discriminate. }
  destruct (read_content st 2 _ st' out Hok Hvalid ltac:(lia) Hrd) as [_ Hbytes].
  rewrite Hmin in *. rewrite to_ssize_small in Hrd by (unfold SSIZE_MAX; lia).
  exists st'. rewrite Hrd. f_equal. f_equal.
  (* the place is within the hunk buffer *)
  destruct (read_chunk_data st (offset st + 2) Hok ltac:(lia) Hdat) as (_ & Hlo & Hhi).
  fold idx in Hlo, Hhi.
  assert (Hamount : chunk_amount st (offset st + 2) = 2)
    by (unfold chunk_amount; lia).
  rewrite Hamount in Hhi.
  pose proof (chd_read_length _ _ _ Hraw) as Hrawlen.
  assert (Hrawbytes : forall k : nat, 0 <= nth k raw 0 < 256).
  { intros k. unfold chd_read in Hraw.
    destruct (hunks (chd st) (hunk_at st (offset st))); simpl in Hraw; inversion Hraw.
    apply fit_bytes. }
  assert (Hq : exists q, idx = 2 * q)
    by (apply Z.even_spec in Heven; destruct Heven as [q Hq]; eauto).
  destruct Hq as [q Hq].
  set (hb := hunkbytes (header (chd st))) in *.
  assert (Hhalf : 2 * (0 + Z.of_nat (Z.to_nat (hb / 2))) <= Z.of_nat (List.length raw)).
  { assert (2 * (hb / 2) <= hb) by (apply Z.mul_div_le; lia). lia. }
  assert (Hword : idx + 1 < 2 * (0 + Z.of_nat (Z.to_nat (hb / 2)))).
  { assert (q + 1 <= hb / 2) by (apply Z.div_le_lower_bound; lia). lia. }
  pose proof (swab_loop_nth (Z.to_nat (hb / 2)) 0 raw ltac:(lia) Hhalf Hrawbytes) as Hsw.
  assert (Himg : forall j, 0 <= j < 2 ->
             stream_byte st (offset st + j)
             = nth (Z.to_nat (idx + j))
                   (swab_loop (Z.to_nat (hb / 2)) 0 raw) 0).
  { intros j Hj. unfold stream_byte.
    destruct (Z.ltb_spec (offset st + j) (track_start st)); [lia |].
    destruct (Hsame j Hj) as (Hh & Hho & Hm). rewrite Hh, Hho, Hm.
    unfold hunk_image. rewrite Hraw, Hswab. simpl. fold hb.
    f_equal. unfold idx. f_equal. lia. }
  assert (H0 : nth 0 out 0 = nth (Z.to_nat (idx + 1)) raw 0).
  { change 0%nat with (Z.to_nat 0).
    rewrite Hbytes; [| intros pos Hp _; destruct (Hsame (pos - offset st) ltac:(lia))
                         as [Hh _];
                       replace (offset st + (pos - offset st)) with pos in Hh by lia;
                       now rewrite Hh | lia].
    rewrite (Himg 0) by lia. rewrite Z.add_0_r. rewrite (Hsw idx) by lia.
    destruct (Z.leb_spec (2 * 0) idx); [| lia].
    destruct (Z.ltb_spec idx (2 * (0 + Z.of_nat (Z.to_nat (hb / 2))))); [| lia].
    cbn [andb]. rewrite Heven. reflexivity. }
  assert (H1 : nth 1 out 0 = nth (Z.to_nat idx) raw 0).
  { change 1%nat with (Z.to_nat 1).
    rewrite Hbytes; [| intros pos Hp _; destruct (Hsame (pos - offset st) ltac:(lia))
                         as [Hh _];
                       replace (offset st + (pos - offset st)) with pos in Hh by lia;
                       now rewrite Hh | lia].
    rewrite (Himg 1) by lia. rewrite (Hsw (idx + 1)) by lia.
    destruct (Z.leb_spec (2 * 0) (idx + 1)); [| lia].
    destruct (Z.ltb_spec (idx + 1) (2 * (0 + Z.of_nat (Z.to_nat (hb / 2))))); [| lia].
    cbn [andb].
    assert (Hodd : Z.even (idx + 1) = false)
      by (rewrite Hq, Z.add_comm, Z.even_add_mul_2; reflexivity).
    rewrite Hodd. f_equal. f_equal. lia. }
  destruct out as [| a [| b [| c out]]]; simpl in Hlen; try lia.
  simpl in H0, H1. now rewrite H0, H1.
Qed.

Lemma audio_read_swaps_bytes_witness :
  exists st',
    chdstream_read (set_offset audio_stream 352800) 2 =
      Ret (2, st', [nth 1 (fit 4704 (audio_hunk 50)) 0;
                    nth 0 (fit 4704 (audio_hunk 50)) 0]).
Proof.
  apply (audio_read_swaps_bytes (set_offset audio_stream 352800)
           (fit 4704 (audio_hunk 50))).
  - apply stream_ok_set_offset; [exact audio_stream_ok | simpl; lia].
  - left. reflexivity.
  - reflexivity.
  - simpl. lia.
  - simpl. lia.
  - vm_compute. discriminate.
  - reflexivity.
  - reflexivity.
  - vm_compute. discriminate.
Defined.

(** ** Rewinding *)

(** Two well-formed streams on the same track, with the cursor at the same
    place, read the same, whatever their caches hold. *)
Lemma reads_agree (st st2 : chdstream) (bytes : Z) r st1 out :
  stream_ok st -> cache_valid st -> stream_ok st2 -> cache_valid st2 ->
  same_geometry st st2 -> offset st2 = offset st ->
  0 <= bytes < 2 ^ 64 ->
  (forall pos,
      offset st <= pos < offset st + Z.min bytes (track_end st - offset st) ->
      track_start st <= pos ->
      chd_read (chd st) (hunk_at st pos) <> None /\
      hunk_at st pos <> SENTINEL_HUNK) ->
  chdstream_read st bytes = Ret (r, st1, out) ->
  exists st3, chdstream_read st2 bytes = Ret (r, st3, out).
Proof.
  intros Hok Hvalid Hok2 Hvalid2 Hg2 Ho2 Hb Hrange Hrd.
  destruct (read_content st bytes r st1 out Hok Hvalid Hb Hrd) as [_ Hb1].
  assert (Hte2 : track_end st2 = track_end st) by apply Hg2.
  destruct (read_returns st2 bytes Hok2 Hb) as (st3 & out' & Hr3 & _ & _ & _ & Hl3).
  { intros pos Hp Hs. replace (chd st2) with (chd st) by (symmetry; apply Hg2).
    rewrite (hunk_at_geometry st st2 pos Hg2).
    apply Hrange; [rewrite Ho2, Hte2 in Hp; exact Hp |].
    replace (track_start st) with (track_start st2) by apply Hg2. exact Hs. }
  destruct (read_content st2 bytes _ st3 out' Hok2 Hvalid2 Hb Hr3) as [_ Hb3].
  pose proof (read_post_call st bytes Hok Hb) as Hpost. simpl in Hpost.
  rewrite Hrd in Hpost.
  destruct Hpost as (Hr & tail & Hout & _ & _ & _ & Hlen & _).
  simpl in Hout. subst tail.
  exists st3. rewrite Hr3. rewrite Ho2, Hte2 in *. rewrite <- Hr.
  f_equal. f_equal.
  apply nth_ext with (d := 0) (d' := 0); [lia |].
  intros k Hk. rewrite <- (Nat2Z.id k).
  rewrite Hb3;
    [| intros pos Hp Hs; rewrite (hunk_at_geometry st st2 pos Hg2);
       apply Hrange; [exact Hp |];
       replace (track_start st) with (track_start st2) by apply Hg2; exact Hs
     | lia].
  rewrite Hb1; [| intros pos Hp Hs; apply Hrange; auto | lia].
  now rewrite (stream_byte_geometry st st2) by exact Hg2.
Qed.

Lemma reachable_invariants
    (fuel : nat) (sys : storage) (path : string) (track : Z) (st st' : chdstream) :
  chdstream_open fuel sys path track = Ret (Some st) ->
  0 < unitbytes (header (chd st)) ->
  unitbytes (header (chd st)) <= hunkbytes (header (chd st)) < 2 ^ 32 ->
  frame_size st <= unitbytes (header (chd st)) ->
  reachable st st' ->
  stream_ok st /\ cache_valid st /\ offset st = 0 /\
  stream_ok st' /\ cache_valid st' /\ same_geometry st st'.
Proof.
  intros Hopen Hub Hhb Hfs Hreach.
  pose proof (open_stream_ok _ _ _ _ _ Hopen Hub Hhb Hfs) as Hok.
  assert (Hfresh : cache_valid st /\ offset st = 0).
  { destruct (open_inv _ _ _ _ _ Hopen) as (fd & meta & _ & _ & _ & ->).
    split; [left |]; reflexivity. }
  destruct Hfresh as [Hvalid0 Ho0]. split_and; auto.
  all: induction Hreach as [| s s' Hr IH Hstep]; auto using same_geometry_refl.
  - destruct (reachable_keeps_ok _ _ Hr Hok) as [Hoks _].
    now destruct (step_keeps_ok _ _ Hstep Hoks).
  - destruct (reachable_keeps_ok _ _ Hr Hok) as [Hoks _].
    eapply step_keeps_cache; eauto.
  - destruct (reachable_keeps_ok _ _ Hr Hok) as [Hoks _].
    destruct (step_keeps_ok _ _ Hstep Hoks) as [_ Hgs].
    eapply same_geometry_trans; eauto.
Qed.

(** X16.  [chdstream_rewind] brings a stream back to what it was when
    opened, as far as reading goes: whatever calls were made in between, a
    read after a rewind returns the count and delivers the bytes that the
    same read returned on the freshly opened stream. *)
Theorem rewind_restores_start
    (fuel : nat) (sys : storage) (path : string) (track : Z)
    (st st' : chdstream) (bytes : Z) r st1 out :
  chdstream_open fuel sys path track = Ret (Some st) ->
  0 < unitbytes (header (chd st)) ->
  unitbytes (header (chd st)) <= hunkbytes (header (chd st)) < 2 ^ 32 ->
  frame_size st <= unitbytes (header (chd st)) ->
  reachable st st' ->
  0 <= bytes < 2 ^ 64 ->
  (forall pos,
      0 <= pos < Z.min bytes (track_end st) -> track_start st <= pos ->
      chd_read (chd st) (hunk_at st pos) <> None /\
      hunk_at st pos <> SENTINEL_HUNK) ->
  chdstream_read st bytes = Ret (r, st1, out) ->
  chdstream_tell (chdstream_rewind st') = 0 /\
  exists st3, chdstream_read (chdstream_rewind st') bytes = Ret (r, st3, out).
Proof.
  intros Hopen Hub Hhb Hfs Hreach Hb Hrange Hrd.
  destruct (reachable_invariants _ _ _ _ _ _ Hopen Hub Hhb Hfs Hreach)
    as (Hok & Hvalid & Ho0 & Hok' & Hvalid' & Hg).
  split; [reflexivity |].
  pose proof (ok_offset st' Hok') as Ho'.
  apply (reads_agree st (chdstream_rewind st') bytes r st1 out);
    [exact Hok | exact Hvalid | | | | | exact Hb | | exact Hrd].
  - unfold chdstream_rewind. apply stream_ok_set_offset; [exact Hok' | lia].
  - unfold chdstream_rewind. now apply cache_valid_set_offset.
  - unfold chdstream_rewind.
    eapply same_geometry_trans; [exact Hg | apply same_geometry_set_offset].
  - now rewrite Ho0.
  - intros pos Hp Hs. rewrite Ho0 in Hp. apply Hrange; [| exact Hs].
    rewrite Z.sub_0_r in Hp. lia.
Qed.

Lemma rewind_restores_start_witness :
  exists r st1 out,
    chdstream_read cooked_stream 40 = Ret (r, st1, out) /\
    chdstream_tell
      (chdstream_rewind (snd (chdstream_seek cooked_stream 70 SEEK_SET))) = 0 /\
    exists st3,
      chdstream_read
        (chdstream_rewind (snd (chdstream_seek cooked_stream 70 SEEK_SET))) 40 =
      Ret (r, st3, out).
Proof.
  destruct (read_returns cooked_stream 40 cooked_stream_ok ltac:(lia))
    as (st1 & out & Hrd & _).
  { intros pos _ _. discriminate. }
  eexists. exists st1, out. split; [exact Hrd |].
  eapply (rewind_restores_start 4 (sample_storage cooked_disc) "disc.chd" 1
            cooked_stream _ 40);
    [exact cooked_stream_opened | simpl; lia | simpl; lia | simpl; lia
    | eapply reach_step; [apply reach_open | apply step_seek]
    | lia | | exact Hrd].
  intros pos Hp _. split; [discriminate |].
  apply (cooked_hunks_not_sentinel 0). simpl in Hp. lia.
Defined.

(** ** The engine calls of a read *)

(** What one load adds to the log of engine calls. *)
Lemma load_hunk_log (st : chdstream) (h : Z) :
  exists calls,
    chd_reads (snd (chdstream_load_hunk st h)) = chd_reads st ++ calls /\
    (forall x, In x calls -> x = h /\ h <> wrap32 (hunknum st)) /\
    (fst (chdstream_load_hunk st h) = true ->
     forall x, In x calls -> chd_read (chd st) x <> None).
Proof.
  unfold chdstream_load_hunk.
  destruct (Z.eqb_spec h (wrap32 (hunknum st))) as [Hhit | Hmiss].
  - exists []. simpl. rewrite app_nil_r. split_and; auto; intros; contradiction.
  - destruct (chd_read (chd st) h) as [mem |] eqn:Hrd; exists [h]; simpl;
      split_and; auto.
    + intros x [<- | []]. auto.
    + intros _ x [<- | []]. congruence.
    + intros x [<- | []]. auto.
    + discriminate.
Qed.

Lemma read_loop_log (fuel : nat) :
  forall (st : chdstream) (end_ : Z) (out : list Z) st' out',
    stream_ok st -> offset st <= end_ <= track_end st ->
    read_loop fuel st end_ out = Ret (st', out') ->
    exists calls,
      chd_reads st' = chd_reads st ++ calls /\
      forall h, In h calls ->
        exists pos, offset st <= pos < end_ /\ track_start st <= pos /\
                    h = hunk_at st pos /\ chd_read (chd st) h <> None.
Proof.
  induction fuel as [| fuel IH]; intros st end_ out st' out' Hok Hend Hrun;
    simpl in Hrun.
  - destruct (offset st <? end_); [discriminate |].
    inversion Hrun; subst. exists []. rewrite app_nil_r.
    split; [reflexivity | intros h []].
  - destruct (Z.ltb_spec (offset st) end_) as [Hlt | Hge].
    2:{ inversion Hrun; subst. exists []. rewrite app_nil_r.
        split; [reflexivity | intros h []]. }
    pose proof (chunk_amount_pos st end_ Hok Hlt) as [Ha Hb].
    pose proof (ok_offset st Hok) as Hoff0.
    destruct (Z_lt_le_dec (offset st) (track_start st)) as [Hpre | Hdat].
    + (* pregap: no load *)
      destruct (read_chunk_pregap st end_ Hok ltac:(lia) Hpre) as [Hchunk Hbelow].
      rewrite Hchunk in Hrun. simpl in Hrun.
      set (st1 := set_offset st (offset st + chunk_amount st end_)) in *.
      assert (Hok1 : stream_ok st1) by (apply stream_ok_set_offset; [assumption | lia]).
      destruct (IH st1 end_ _ st' out' Hok1 ltac:(simpl; lia) Hrun)
        as (calls & Hlog & Hin).
      exists calls. split; [exact Hlog |].
      intros h Hh. destruct (Hin h Hh) as (pos & Hp & Hs & -> & Hsome).
      exists pos. simpl in Hp, Hs, Hsome. split_and; auto; lia.
    + (* track data: one load *)
      destruct (read_chunk_data st end_ Hok ltac:(lia) Hdat) as (Hchunk & _ & _).
      rewrite Hchunk in Hrun. clear Hchunk.
      pose proof (load_hunk_geometry st (hunk_at st (offset st))) as [Hg1 Ho1].
      pose proof (load_hunk_ok st (hunk_at st (offset st)) Hok) as Hokl.
      destruct (load_hunk_log st (hunk_at st (offset st)))
        as (calls0 & Hlog0 & Hwhich & Hsome0).
      destruct (chdstream_load_hunk st (hunk_at st (offset st))) as [b stl].
      simpl in *. destruct b; simpl in Hrun; [| discriminate].
      set (st1 := set_offset stl (offset st + chunk_amount st end_)) in *.
      assert (Hte : track_end stl = track_end st) by apply Hg1.
      assert (Hts : track_start stl = track_start st) by apply Hg1.
      assert (Hchd : chd stl = chd st) by apply Hg1.
      assert (Hok1 : stream_ok st1)
        by (apply stream_ok_set_offset; [assumption | rewrite Hte; lia]).
      assert (Hg : same_geometry st st1)
        by (eapply same_geometry_trans; [exact Hg1 | apply same_geometry_set_offset]).
      destruct (IH st1 end_ _ st' out' Hok1 ltac:(simpl; rewrite Hte; lia) Hrun)
        as (calls & Hlog & Hin).
      exists (calls0 ++ calls). split.
      * rewrite Hlog. simpl. rewrite Hlog0. now rewrite app_assoc.
      * intros h Hh. apply in_app_or in Hh. destruct Hh as [Hh | Hh].
        -- exists (offset st). destruct (Hwhich h Hh) as [-> _].
           split_and; auto; try lia.
        -- destruct (Hin h Hh) as (pos & Hp & Hs & -> & Hsome).
           exists pos. simpl in Hp, Hs, Hsome. rewrite Hts in Hs. rewrite Hchd in Hsome.
           rewrite (hunk_at_geometry st st1 pos Hg) in *.
           split_and; auto; lia.
Qed.

(** X17.  A read asks the engine for nothing but hunks of the range it
    delivers.  When [chdstream_read] returns, the engine calls it made are
    appended to the log, and each of them is for the hunk of a position of
    the track data between the cursor and the end of the clamped range, and
    was answered.  In particular a read that lies in the pregap, or that
    delivers nothing, makes no engine call. *)
Theorem read_loads_only_requested_hunks (st : chdstream) (bytes : Z) r st' out :
  stream_ok st -> 0 <= bytes < 2 ^ 64 ->
  chdstream_read st bytes = Ret (r, st', out) ->
  exists calls,
    chd_reads st' = chd_reads st ++ calls /\
    (forall h, In h calls ->
       exists pos,
         offset st <= pos < offset st + Z.min bytes (track_end st - offset st) /\
         track_start st <= pos /\
         h = hunk_at st pos /\ chd_read (chd st) h <> None) /\
    (offset st + Z.min bytes (track_end st - offset st) <= track_start st ->
     calls = []).
Proof.
  intros Hok Hb Hrd.
  pose proof (ok_offset st Hok) as Ho.
  rewrite (read_unfold st bytes Hok Hb) in Hrd. cbv zeta in Hrd.
  destruct (read_loop _ st _ []) as [[st1 out1] | | |] eqn:Hloop;
    simpl in Hrd; try discriminate.
  inversion Hrd; subst.
  assert (Hend : offset st <= offset st + Z.min bytes (track_end st - offset st)
                 <= track_end st) by lia.
  destruct (read_loop_log _ st _ [] st' out Hok Hend Hloop)
    as (calls & Hlog & Hin).
  exists calls. split_and; auto.
  intros Hpre. destruct calls as [| h calls]; [reflexivity |].
  destruct (Hin h (or_introl eq_refl)) as (pos & Hp & Hs & _). lia.
Qed.

Lemma read_loads_only_requested_hunks_witness :
  exists r st' out,
    chdstream_read (set_offset cooked_stream 30) 40 = Ret (r, st', out) /\
    exists calls,
      chd_reads st' = chd_reads (set_offset cooked_stream 30) ++ calls /\
      (forall h, In h calls ->
         exists pos,
           30 <= pos < 30 + Z.min 40 (112 - 30) /\ 32 <= pos /\
           h = hunk_at (set_offset cooked_stream 30) pos /\
           chd_read (chd cooked_stream) h <> None) /\
      (30 + Z.min 40 (112 - 30) <= 32 -> calls = []).
Proof.
  assert (Hok : stream_ok (set_offset cooked_stream 30))
    by (apply stream_ok_set_offset; [exact cooked_stream_ok | simpl; lia]).
  destruct (read_returns (set_offset cooked_stream 30) 40 Hok ltac:(lia))
    as (st' & out & Hrd & _).
  { intros pos _ _. discriminate. }
  eexists. exists st', out. split; [exact Hrd |].
  apply (read_loads_only_requested_hunks (set_offset cooked_stream 30) 40 _ st' out
           Hok ltac:(lia) Hrd).
Defined.

(** ** Opening and closing *)

(** X18.  [chdstream_open] and [chdstream_close] release what was acquired,
    once.  A call of [chdstream_open] that fails has, on every path to the
    label [error], released the handle, the structure and the buffer that it
    had acquired, none of them twice, and holds nothing when it returns
    [NULL].  A call that succeeds holds the three of them, and
    [chdstream_close] on the stream it returned releases the three; and
    [chdstream_close] on a null pointer does nothing. *)
Theorem open_and_close_balance
    (fuel : nat) (sys : storage) (path : string) (track : Z) :
  chdstream_close None = [] /\
  (chdstream_open fuel sys path track = Ret None ->
   exists tr,
     chdstream_open_events fuel sys path track = Ret (tr, None) /\
     held_after [] tr = Some []) /\
  (forall st,
     chdstream_open fuel sys path track = Ret (Some st) ->
     exists tr s,
       chdstream_open_events fuel sys path track = Ret (tr, Some s) /\
       held_after [] tr = Some [Buffer; Structure; Handle] /\
       held_after [] (tr ++ chdstream_close (Some s)) = Some []).
Proof.
  split; [reflexivity |].
  unfold chdstream_open, chdstream_open_events.
  destruct (chd_open sys path) as [fd |].
  2:{ split; [| discriminate]. intros _. eexists. split; reflexivity. }
  destruct (chdstream_find_track fuel fd track) as [[found meta] | | |];
    simpl; [| split; [| intros st]; discriminate ..].
  destruct found; simpl.
  2:{ split; [| discriminate]. intros _. eexists. split; reflexivity. }
  destruct (calloc_ok sys); simpl.
  2:{ split; [| discriminate]. intros _. eexists. split; reflexivity. }
  destruct (malloc_ok sys _); simpl.
  2:{ split; [| discriminate]. intros _. eexists. split; reflexivity. }
  destruct (unitbytes (chd_get_header fd) =? 0).
  { split; [| intros st]; discriminate. }
  split; [discriminate |].
  intros st _. do 2 eexists. split_and; reflexivity.
Qed.

Lemma open_and_close_balance_witness :
  exists tr s,
    chdstream_open_events 4 (sample_storage cooked_disc) "disc.chd" 1 = Ret (tr, Some s) /\
    held_after [] tr = Some [Buffer; Structure; Handle] /\
    held_after [] (tr ++ chdstream_close (Some s)) = Some [].
Proof.
  exact (proj2 (proj2 (open_and_close_balance 4 (sample_storage cooked_disc)
                         "disc.chd" 1))
           cooked_stream cooked_stream_opened).
Defined.

(** ** Single bytes and lines *)

(** X19.  [chdstream_getc] and [chdstream_gets] consume nothing.  The count
    that [chdstream_getc] passes to [chdstream_read] is the value of
    [sizeof(c) != sizeof(c)], so on every stream it returns 0 and leaves the
    stream as it was: it never reports [EOF], moves no cursor and loads no
    hunk.  [chdstream_gets] therefore stores [len] zero bytes, without a
    terminator, and leaves the stream as it was as well. *)
Theorem getc_and_gets_consume_nothing (st : chdstream) (len : Z) :
  0 <= offset st < 2 ^ 64 -> 0 <= len < 2 ^ 64 ->
  chdstream_getc st = Ret (0, st) /\
  chdstream_gets st len = Ret (repeat 0 (Z.to_nat len), st).
Proof.
  intros Ho Hlen. split; [now apply getc_returns_zero |].
  unfold chdstream_gets, gets_with.
  rewrite gets_loop_zeros by lia. simpl.
  rewrite Z.ltb_irrefl, Z.sub_0_r. reflexivity.
Qed.

Lemma getc_and_gets_consume_nothing_witness :
  chdstream_getc (set_offset audio_stream 352800)
  = Ret (0, set_offset audio_stream 352800) /\
  chdstream_gets (set_offset audio_stream 352800) 3
  = Ret ([0; 0; 0], set_offset audio_stream 352800).
Proof.
  apply (getc_and_gets_consume_nothing (set_offset audio_stream 352800) 3);
    simpl; lia.
Defined.
